(** * RouterOS API client (mikrotik.js): codec, stream reassembly,
      request correlator, connection pool.

    Shallow embedding of the JavaScript source.  Buffers are lists of
    bytes ([Z] in [0,256)), JavaScript strings are lists of UTF-16 code
    units ([Z] in [0,65536)), plain objects used as dictionaries are
    [gmap]s keyed by strings, and the event handlers registered on the
    socket are state transformers over an explicit connection record. *)

From Stdlib Require Import ZArith List Lia Bool Ascii String.
From stdpp Require Import base decidable option list gmap.
From Equations Require Import Equations.
Import ListNotations.

Local Open Scope Z_scope.

(* ===================================================================== *)
(** ** JavaScript numbers, bytes and strings *)
(* ===================================================================== *)

Module JS.

(** ToInt32: operands of the bit operators are wrapped to 32 bits,
    two's complement. *)
Definition toInt32 (x : Z) : Z := (x + 2 ^ 31) mod 2 ^ 32 - 2 ^ 31.

(** [a >> k] *)
Definition shr (a k : Z) : Z := Z.shiftr (toInt32 a) k.
(** [a << k] *)
Definition shl (a k : Z) : Z := toInt32 (Z.shiftl (toInt32 a) k).
(** [a & b] *)
Definition and (a b : Z) : Z := Z.land (toInt32 a) (toInt32 b).
(** [a | b] *)
Definition or (a b : Z) : Z := Z.lor (toInt32 a) (toInt32 b).

(** A byte of a [Buffer]. *)
Abbreviation byte := Z.
Definition is_byte (b : Z) : Prop := 0 <= b < 256.

(** [Buffer.from([v0, v1, ...])]: every element is stored modulo 256. *)
Definition Buffer_from (vs : list Z) : list byte := map (fun v => v mod 256) vs.

(** A string: its UTF-16 code units. *)
Abbreviation str := (list Z).

(** A string literal of the source (ASCII only). *)
Definition lit (s : string) : str :=
  map (fun c => Z.of_N (N_of_ascii c)) (list_ascii_of_string s).

(** [Buffer.from(s, "utf8")]: the UTF-8 encoding of a string.  A
    surrogate pair is one code point of four bytes; a surrogate that is
    not part of a pair is encoded as U+FFFD (EF BF BD). *)
Definition is_high (u : Z) : bool := (0xD800 <=? u) && (u <=? 0xDBFF).
Definition is_low (u : Z) : bool := (0xDC00 <=? u) && (u <=? 0xDFFF).

Definition utf8_bytes (cp : Z) : list byte :=
  if cp <? 0x80 then [cp]
  else if cp <? 0x800 then [0xC0 + cp / 64; 0x80 + cp mod 64]
  else if cp <? 0x10000 then
    [0xE0 + cp / 4096; 0x80 + (cp / 64) mod 64; 0x80 + cp mod 64]
  else
    [0xF0 + cp / 262144; 0x80 + (cp / 4096) mod 64;
     0x80 + (cp / 64) mod 64; 0x80 + cp mod 64].

Fixpoint utf8_encode (s : str) : list byte :=
  match s with
  | [] => []
  | u :: rest =>
    if is_high u then
      match rest with
      | v :: rest' =>
        if is_low v
        then utf8_bytes (0x10000 + (u - 0xD800) * 0x400 + (v - 0xDC00))
               ++ utf8_encode rest'
        else [0xEF; 0xBF; 0xBD] ++ utf8_encode rest
      | [] => [0xEF; 0xBF; 0xBD]
      end
    else if is_low u then [0xEF; 0xBF; 0xBD] ++ utf8_encode rest
    else utf8_bytes u ++ utf8_encode rest
  end.

(** [buf.toString("utf8")]: the UTF-8 decoder of the Encoding Standard
    (ill-formed input is replaced by U+FFFD, one per maximal subpart;
    a byte order mark is kept). *)
Inductive dstate :=
| Idle
| Cont (cp : Z) (needed : nat) (lower upper : Z).

Definition units (cp : Z) : str :=
  if cp <? 0x10000 then [cp]
  else [0xD800 + (cp - 0x10000) / 0x400; 0xDC00 + (cp - 0x10000) mod 0x400].

Definition lead (b : byte) : str * dstate :=
  if b <=? 0x7F then ([b], Idle)
  else if (0xC2 <=? b) && (b <=? 0xDF) then ([], Cont (b mod 32) 1 0x80 0xBF)
  else if (0xE0 <=? b) && (b <=? 0xEF) then
    ([], Cont (b mod 16) 2 (if b =? 0xE0 then 0xA0 else 0x80)
                           (if b =? 0xED then 0x9F else 0xBF))
  else if (0xF0 <=? b) && (b <=? 0xF4) then
    ([], Cont (b mod 8) 3 (if b =? 0xF0 then 0x90 else 0x80)
                          (if b =? 0xF4 then 0x8F else 0xBF))
  else ([0xFFFD], Idle).

Definition dstep (st : dstate) (b : byte) : str * dstate :=
  match st with
  | Idle => lead b
  | Cont cp n lo hi =>
    if (lo <=? b) && (b <=? hi) then
      let cp' := cp * 64 + b mod 64 in
      match n with
      | S (S n') => ([], Cont cp' (S n') 0x80 0xBF)
      | _ => (units cp', Idle)
      end
    else let (out, st') := lead b in (0xFFFD :: out, st')
  end.

Fixpoint utf8_decode_from (st : dstate) (bs : list byte) : str :=
  match bs with
  | [] => match st with Idle => [] | Cont _ _ _ _ => [0xFFFD] end
  | b :: rest => let (out, st') := dstep st b in out ++ utf8_decode_from st' rest
  end.

Definition utf8_decode (bs : list byte) : str := utf8_decode_from Idle bs.

(** Strings that are valid Unicode text: every surrogate is part of a
    pair (these are the strings UTF-8 can represent). *)
Fixpoint well_formed (s : str) : bool :=
  match s with
  | [] => true
  | u :: rest =>
    if is_high u then
      match rest with
      | v :: rest' => is_low v && well_formed rest'
      | [] => false
      end
    else (0 <=? u) && (u <? 0x10000) && negb (is_low u) && well_formed rest
  end.

(** [buf[i]] for an index inside the buffer (the decoder checks the
    bounds before every read). *)
Definition at_ (buf : list byte) (i : nat) : Z := nth i buf 0.

(** [buf.subarray(i, j)] *)
Definition subarray (buf : list byte) (i j : nat) : list byte :=
  firstn (j - i) (skipn i buf).

End JS.

(* ===================================================================== *)
(** ** Encoder *)
(* ===================================================================== *)

(** [encodeLength(len)] *)
Definition encodeLength (len : Z) : list JS.byte :=
  if len <? 0x80 then JS.Buffer_from [len]
  else if len <? 0x4000 then
    JS.Buffer_from [JS.or (JS.and (JS.shr len 8) 0x3f) 0x80; JS.and len 0xff]
  else if len <? 0x200000 then
    JS.Buffer_from [JS.or (JS.and (JS.shr len 16) 0x1f) 0xc0;
                    JS.and (JS.shr len 8) 0xff;
                    JS.and len 0xff]
  else if len <? 0x10000000 then
    JS.Buffer_from [JS.or (JS.and (JS.shr len 24) 0x0f) 0xe0;
                    JS.and (JS.shr len 16) 0xff;
                    JS.and (JS.shr len 8) 0xff;
                    JS.and len 0xff]
  else
    JS.Buffer_from [0xf0;
                    JS.and (JS.shr len 24) 0xff;
                    JS.and (JS.shr len 16) 0xff;
                    JS.and (JS.shr len 8) 0xff;
                    JS.and len 0xff].

(* ===================================================================== *)
(** ** Decoder: the length prefix *)
(* ===================================================================== *)

(** Outcome of the prefix block of [decodePackets] (the [if]/[else if]
    chain on [b0]): either the loop leaves through [break outer] because
    the prefix is not complete, or [len] and [skip] are set. *)
Inductive prefix :=
| Incomplete
| Prefix (len : Z) (skip : nat).

Definition readPrefix (buf : list JS.byte) (i : nat) : prefix :=
  let b0 := JS.at_ buf i in
  if JS.and b0 0xf0 =? 0xf0 then
    if (length buf <? i + 5)%nat then Incomplete
    else Prefix (JS.at_ buf (i + 1) * 0x1000000
                 + JS.shl (JS.at_ buf (i + 2)) 16
                 + JS.shl (JS.at_ buf (i + 3)) 8
                 + JS.at_ buf (i + 4)) 5
  else if JS.and b0 0xe0 =? 0xe0 then
    if (length buf <? i + 4)%nat then Incomplete
    else Prefix (JS.and b0 0x0f * 0x1000000
                 + JS.shl (JS.at_ buf (i + 1)) 16
                 + JS.shl (JS.at_ buf (i + 2)) 8
                 + JS.at_ buf (i + 3)) 4
  else if JS.and b0 0xc0 =? 0xc0 then
    if (length buf <? i + 3)%nat then Incomplete
    else Prefix (JS.shl (JS.and b0 0x1f) 16
                 + JS.shl (JS.at_ buf (i + 1)) 8
                 + JS.at_ buf (i + 2)) 3
  else if JS.and b0 0x80 =? 0x80 then
    if (length buf <? i + 2)%nat then Incomplete
    else Prefix (JS.shl (JS.and b0 0x3f) 8 + JS.at_ buf (i + 1)) 2
  else Prefix b0 1.

(** [encodeWord(word)] *)
Definition encodeWord (word : JS.str) : list JS.byte :=
  let body := JS.utf8_encode word in
  encodeLength (Z.of_nat (length body)) ++ body.

(** [encodeSentence(words)] *)
Definition encodeSentence (words : list JS.str) : list JS.byte :=
  let parts := map encodeWord words in
  concat (parts ++ [JS.Buffer_from [0x00]]).

(* ===================================================================== *)
(** ** Decoder: [decodePackets] *)
(* ===================================================================== *)

Abbreviation Sentence := (list JS.str).

(** Matching on a value while keeping the equation that names it. *)
Definition inspect {A : Type} (x : A) : { y : A | x = y } := exist _ x eq_refl.

(** The two nested loops of [decodePackets], from a cursor [i] with the
    complete [sentences] so far and the words of the current [sentence].
    Every [break outer] returns the current [sentences] and cursor; the
    words of the sentence under construction are dropped with it, as the
    local [sentence] array is. Each turn of the inner loop moves the cursor
    forward, which bounds the recursion by [length buf - i]. *)
Equations? decodeLoop (buf : list JS.byte) (i : nat)
    (sentences : list Sentence) (sentence : list JS.str)
    : list Sentence * nat by wf (length buf - i)%nat lt :=
  decodeLoop buf i sentences sentence with le_lt_dec (length buf) i => {
    | left _ => (sentences, i)
    | right _ with inspect (readPrefix buf i) => {
      | exist _ Incomplete _ => (sentences, i)
      | exist _ (Prefix len skip) eq with Z.eq_dec len 0 => {
        | left _ => decodeLoop buf (i + skip) (sentences ++ [sentence]) []
        | right _ with Z_lt_dec (Z.of_nat (length buf)) (Z.of_nat (i + skip) + len) => {
          | left _ => (sentences, i)
          | right _ =>
            decodeLoop buf (i + skip + Z.to_nat len) sentences
              (sentence ++ [JS.utf8_decode
                 (JS.subarray buf (i + skip) (i + skip + Z.to_nat len))])
          }
        }
      }
    }.
Proof.
  all: assert (0 < skip)%nat
    by (unfold readPrefix in eq;
        repeat match type of eq with
               | (if ?c then _ else _) = _ => destruct c
               end; inversion eq; lia).
  all: lia.
Qed.

Definition decodePackets (buf : list JS.byte) : list Sentence * list JS.byte :=
  let '(sentences, i) := decodeLoop buf 0 [] [] in
  (sentences, skipn i buf).

(* ===================================================================== *)
(** ** String helpers of the standard library used by the client *)
(* ===================================================================== *)

Module Str.

Definition eqb (a b : JS.str) : bool := bool_decide (a = b).

(** [w.startsWith(p)] *)
Fixpoint startsWith (w p : JS.str) : bool :=
  match p, w with
  | [], _ => true
  | _ :: _, [] => false
  | c :: p', d :: w' => (c =? d) && startsWith w' p'
  end.

(** [w.slice(n)] and [w.slice(a, b)], for indices inside [0, length]. *)
Definition slice_from (w : JS.str) (n : nat) : JS.str := skipn n w.
Definition slice (w : JS.str) (a b : nat) : JS.str := firstn (b - a) (skipn a w).

(** Position of the first [c] in [w], if any. *)
Fixpoint index (c : Z) (w : JS.str) : option nat :=
  match w with
  | [] => None
  | d :: w' => if d =? c then Some O else option_map S (index c w')
  end.

(** [w.indexOf(c, from)] for a one-character pattern: the position of
    the first [c] at or after [from], or -1. *)
Definition indexOf (w : JS.str) (c : Z) (from : nat) : Z :=
  match index c (skipn from w) with
  | Some k => Z.of_nat (from + k)
  | None => -1
  end.

(** [a + b] on strings. *)
Definition cat (a b : JS.str) : JS.str := a ++ b.

End Str.

Infix "+++" := Str.cat (at level 60, right associativity).

(* ===================================================================== *)
(** ** [rosConnect]: the connection and its event handlers *)
(* ===================================================================== *)

(** An [Error] is identified with its message. *)
Definition Error := JS.str.

(** A row object [{key: value, ...}]. *)
Abbreviation Row := (gmap JS.str JS.str).

(** [obj[key] = value] on an object created by [{}]: an own property is
    created or overwritten, except for the key [__proto__], an accessor
    of [Object.prototype] whose setter ignores values that are neither
    objects nor [null]. *)
Definition setProp (obj : Row) (key value : JS.str) : Row :=
  if Str.eqb key (JS.lit "__proto__") then obj else <[key := value]> obj.

(** What a caller of [write] receives. *)
Inductive Settlement :=
| Resolved (rows : list Row)
| Rejected (err : Error).

(** An item of the request queue.  The [resolve] and [reject] callbacks
    of [{ resolve, reject, accumulator }] belong to the promise returned
    by one call of [write]; [caller] names that call. *)
Record Pending := {
  caller : nat;
  accumulator : list Sentence;
}.

(** The promise returned by [rosConnect]. *)
Inductive LoginResult :=
| LoginOk
| LoginFailed (err : Error).

(** The variables closed over by the handlers of one [rosConnect] call,
    with what the handlers have done to the outside so far. *)
Record Conn := {
  buf : list JS.byte;
  loggedIn : bool;
  destroyed : bool;
  queue : list Pending;
  (** calls of [resolve]/[reject] on the promises of [write], oldest first *)
  settled : list (nat * Settlement);
  (** the promise of [rosConnect]: the first [resolve]/[reject] decides *)
  login : option LoginResult;
  (** buffers handed to [sock.write], oldest first *)
  sent : list (list JS.byte);
  (** [sock.destroy()] has been called *)
  sockDestroyed : bool;
  (** number of calls of [api._onClose] *)
  onCloseCalls : nat;
  (** number of calls of [write] so far *)
  writes : nat;
}.

Definition initial : Conn :=
  {| buf := []; loggedIn := false; destroyed := false; queue := [];
     settled := []; login := None; sent := []; sockDestroyed := false;
     onCloseCalls := 0; writes := 0 |}.

(** [resolve(api)] / [reject(err)] on the promise of [rosConnect]. *)
Definition settleLogin (r : LoginResult) (s : Conn) : Conn :=
  match login s with
  | Some _ => s
  | None =>
    {| buf := buf s; loggedIn := loggedIn s; destroyed := destroyed s;
       queue := queue s; settled := settled s; login := Some r;
       sent := sent s; sockDestroyed := sockDestroyed s;
       onCloseCalls := onCloseCalls s; writes := writes s |}
  end.

(** [destroyAll(err)] *)
Definition destroyAll (err : Error) (s : Conn) : Conn :=
  if destroyed s then s
  else
    {| buf := buf s; loggedIn := loggedIn s;
       destroyed := true;
       queue := [];
       settled := settled s
                  ++ map (fun item => (caller item, Rejected err)) (queue s);
       login := login s; sent := sent s;
       sockDestroyed := true;
       onCloseCalls := onCloseCalls s; writes := writes s |}.

(** [words.find((w) => w.startsWith("=message="))?.slice(9) ?? fallback] *)
Definition messageOf (words : list JS.str) (fallback : JS.str) : JS.str :=
  match find (fun w => Str.startsWith w (JS.lit "=message=")) words with
  | Some w => Str.slice_from w 9
  | None => fallback
  end.

(** The body of the [.map] callback that turns a [!re] sentence into a
    plain object. *)
Definition parseRow (s : Sentence) : Row :=
  fold_left
    (fun obj w =>
       let eq := Str.indexOf w 61 1 in
       if eq >? 0
       then setProp obj (Str.slice w 1 (Z.to_nat eq))
                        (Str.slice_from w (Z.to_nat eq + 1))
       else obj)
    (skipn 1 s) ∅.

(** [accumulator.filter((s) => s[0] === "!re").map(...)] *)
Definition parseRows (accumulator : list Sentence) : list Row :=
  map parseRow
    (List.filter (fun s => match s with
                           | t :: _ => Str.eqb t (JS.lit "!re")
                           | [] => false
                           end) accumulator).

Definition isTerminal (type : JS.str) : bool :=
  bool_decide (type ∈ [JS.lit "!done"; JS.lit "!empty"; JS.lit "!trap";
                       JS.lit "!fatal"]).

Definition isFailure (type : JS.str) : bool :=
  Str.eqb type (JS.lit "!trap") || Str.eqb type (JS.lit "!fatal").

(** The body of the [for (const sentence of sentences)] loop of the
    data handler. *)
Definition handleSentence (s : Conn) (sentence : Sentence) : Conn :=
  match sentence with
  | [] => s
  | type :: _ =>
    if negb (loggedIn s) then
      if Str.eqb type (JS.lit "!done") then
        settleLogin LoginOk
          {| buf := buf s; loggedIn := true; destroyed := destroyed s;
             queue := queue s; settled := settled s; login := login s;
             sent := sent s; sockDestroyed := sockDestroyed s;
             onCloseCalls := onCloseCalls s; writes := writes s |}
      else if isFailure type then
        let err := messageOf sentence (JS.lit "Login failed") in
        destroyAll err (settleLogin (LoginFailed err) s)
      else s
    else
      match queue s with
      | [] => s
      | current :: rest =>
        let acc := accumulator current ++ [sentence] in
        if isTerminal type then
          let outcome :=
            if isFailure type
            then Rejected (messageOf (concat acc) (JS.lit "RouterOS error"))
            else Resolved (parseRows acc) in
          {| buf := buf s; loggedIn := loggedIn s; destroyed := destroyed s;
             queue := rest;
             settled := settled s ++ [(caller current, outcome)];
             login := login s; sent := sent s;
             sockDestroyed := sockDestroyed s;
             onCloseCalls := onCloseCalls s; writes := writes s |}
        else
          {| buf := buf s; loggedIn := loggedIn s; destroyed := destroyed s;
             queue := {| caller := caller current; accumulator := acc |} :: rest;
             settled := settled s; login := login s; sent := sent s;
             sockDestroyed := sockDestroyed s;
             onCloseCalls := onCloseCalls s; writes := writes s |}
      end
  end.

(** [sock.on("data", (chunk) => ...)] *)
Definition onData (chunk : list JS.byte) (s : Conn) : Conn :=
  let '(sentences, remaining) := decodePackets (buf s ++ chunk) in
  fold_left handleSentence sentences
    {| buf := remaining; loggedIn := loggedIn s; destroyed := destroyed s;
       queue := queue s; settled := settled s; login := login s;
       sent := sent s; sockDestroyed := sockDestroyed s;
       onCloseCalls := onCloseCalls s; writes := writes s |}.

(** The options of one [rosConnect] call.  [port] is the decimal text of
    the port number, as the template literals render it. *)
Record Options := {
  host : JS.str;
  port : JS.str;
  user : JS.str;
  password : JS.str;
  useTls : bool;
  caFingerprint : option JS.str;
  caCert : option JS.str;
}.

Definition sockWrite (bytes : list JS.byte) (s : Conn) : Conn :=
  {| buf := buf s; loggedIn := loggedIn s; destroyed := destroyed s;
     queue := queue s; settled := settled s; login := login s;
     sent := sent s ++ [bytes]; sockDestroyed := sockDestroyed s;
     onCloseCalls := onCloseCalls s; writes := writes s |}.

(** [sendLogin()] *)
Definition sendLogin (o : Options) (s : Conn) : Conn :=
  sockWrite (encodeSentence [JS.lit "/login";
                             JS.lit "=name=" +++ user o;
                             JS.lit "=password=" +++ password o]) s.

(** [sock.on("timeout", ...)] *)
Definition onTimeout (o : Options) (s : Conn) : Conn :=
  let err := JS.lit "Connection timeout ke " +++ host o +++ JS.lit ":" +++ port o in
  destroyAll err (if negb (loggedIn s) then settleLogin (LoginFailed err) s else s).

(** [sock.on("error", ...)] *)
Definition onError (err : Error) (s : Conn) : Conn :=
  if negb (loggedIn s) then settleLogin (LoginFailed err) s
  else destroyAll err s.

(** [sock.on("close", ...)] *)
Definition onClose (s : Conn) : Conn :=
  let s1 :=
    {| buf := buf s; loggedIn := loggedIn s; destroyed := destroyed s;
       queue := queue s; settled := settled s; login := login s;
       sent := sent s; sockDestroyed := sockDestroyed s;
       onCloseCalls := S (onCloseCalls s); writes := writes s |} in
  match queue s1 with
  | [] => s1
  | _ :: _ => destroyAll (JS.lit "Connection closed unexpectedly") s1
  end.

(** [api.write(words)] *)
Definition write (words : list JS.str) (s : Conn) : Conn :=
  if destroyed s then
    {| buf := buf s; loggedIn := loggedIn s; destroyed := destroyed s;
       queue := queue s;
       settled := settled s
                  ++ [(writes s, Rejected (JS.lit "Connection already closed"))];
       login := login s; sent := sent s; sockDestroyed := sockDestroyed s;
       onCloseCalls := onCloseCalls s; writes := S (writes s) |}
  else
    sockWrite (encodeSentence words)
      {| buf := buf s; loggedIn := loggedIn s; destroyed := destroyed s;
         queue := queue s ++ [{| caller := writes s; accumulator := [] |}];
         settled := settled s; login := login s; sent := sent s;
         sockDestroyed := sockDestroyed s;
         onCloseCalls := onCloseCalls s; writes := S (writes s) |}.

(** [api.close()] *)
Definition close (s : Conn) : Conn := destroyAll (JS.lit "Closed by caller") s.

(** What can happen to a connection: the events of its socket and the
    calls of its [api]. *)
Inductive Event :=
| SockConnect
| SockSecureConnect
| SockData (chunk : list JS.byte)
| SockTimeout
| SockError (err : Error)
| SockClose
| ApiWrite (words : list JS.str)
| ApiClose.

Definition handle (o : Options) (s : Conn) (e : Event) : Conn :=
  match e with
  | SockConnect => if useTls o then s else sendLogin o s
  | SockSecureConnect => if useTls o then sendLogin o s else s
  | SockData chunk => onData chunk s
  | SockTimeout => onTimeout o s
  | SockError err => onError err s
  | SockClose => onClose s
  | ApiWrite words => write words s
  | ApiClose => close s
  end.

Definition run (o : Options) (events : list Event) (s : Conn) : Conn :=
  fold_left (handle o) events s.

(** The sentence sequence the data handler obtains from the chunks of a
    stream, starting with residual [buf]: on every chunk the buffer is
    extended, decoded, and replaced by the remainder. *)
Fixpoint reassemble (buf : list JS.byte) (chunks : list (list JS.byte))
    : list Sentence :=
  match chunks with
  | [] => []
  | chunk :: rest =>
    let '(sentences, remaining) := decodePackets (buf ++ chunk) in
    sentences ++ reassemble remaining rest
  end.

(** The callers of the promises settled so far and of those still queued
    are, in this order, the calls of [write] in the order they were made;
    a destroyed connection has an empty queue. *)
Definition fifo (s : Conn) : Prop :=
  map fst (settled s) ++ map caller (queue s) = seq 0 (writes s)
  /\ (destroyed s = true -> queue s = []).

(* ===================================================================== *)
(** ** The connection pool: [MikrotikService.connect] *)
(* ===================================================================== *)

(** [config.routeros] *)
Record RouterOS := {
  timeout : Z;
  maxRetries : Z;
  retryDelay : Z;
}.

(** A [MikrotikService]: its server entry and its key in the pool. *)
Record Service := {
  srv : Options;
  poolKey : JS.str;
}.

(** The pool maps a key to an api object.  Every call of [rosConnect]
    builds a new api object; it is named by the number of the call. *)
Abbreviation Pool := (gmap JS.str nat).

(** How one [await rosConnect(...)] ends. *)
Inductive Attempt :=
| Connects
| Fails (err : Error).

(** What [connect] does to the outside: calls of [rosConnect] (with the
    attempt number of the call) and of [sleep]. *)
Inductive Action :=
| Dial (attempt : Z)
| Sleep (ms : Z).

(** How a call of [connect] ends; [Waiting] when [rosConnect] has not
    settled. *)
Inductive ConnectResult :=
| Returned (api : nat)
| Thrown (err : Error)
| Waiting.

(** [new Error(`Gagal konek ke router ${host}: ${err.message}`)] *)
Definition connectError (svc : Service) (err : Error) : Error :=
  JS.lit "Gagal konek ke router " +++ host (srv svc) +++ JS.lit ": " +++ err.

(** [connect(attempt)] run to its end by one caller, from a pool [p] and
    with [n] calls of [rosConnect] made before; the calls it makes end as
    [outcomes] says, in order.  The result comes with the pool, the number
    of [rosConnect] calls, and the calls made. *)
Fixpoint connect (cfg : RouterOS) (svc : Service) (outcomes : list Attempt)
    (attempt : Z) (p : Pool) (n : nat)
    : ConnectResult * Pool * nat * list Action :=
  match p !! poolKey svc with
  | Some api => (Returned api, p, n, [])
  | None =>
    match outcomes with
    | [] => (Waiting, p, S n, [Dial attempt])
    | Connects :: _ =>
      (Returned n, <[poolKey svc := n]> p, S n, [Dial attempt])
    | Fails err :: rest =>
      let p' := delete (poolKey svc) p in
      if attempt <? maxRetries cfg then
        let '(r, p'', n', acts) := connect cfg svc rest (attempt + 1) p' (S n) in
        (r, p'', n', Dial attempt :: Sleep (retryDelay cfg) :: acts)
      else (Thrown (connectError svc err), p', S n, [Dial attempt])
    end
  end.

(** Several callers of [connect] on one event loop.  A caller is between
    two [await]s: about to call [connect(attempt)], waiting for the
    [rosConnect] it started (its api object is [dial]), sleeping before a
    retry, or finished. *)
Inductive Task :=
| Calling (attempt : Z)
| Dialing (attempt : Z) (dial : nat)
| Sleeping (attempt : Z)
| Finished (r : ConnectResult).

Record World := {
  pool : Pool;
  tasks : list (Service * Task);
  (** number of [rosConnect] calls started so far *)
  dials : nat;
}.

(** The body of [connect(attempt)] up to its first [await]: the pool is
    looked up and, without an entry, [rosConnect] is called. *)
Definition enter (svc : Service) (attempt : Z) (p : Pool) (n : nat)
    : Task * Pool * nat :=
  match p !! poolKey svc with
  | Some api => (Finished (Returned api), p, n)
  | None => (Dialing attempt n, p, S n)
  end.

(** One caller runs from one [await] to the next.  [outcome] tells how
    the pending [rosConnect] ends, for a caller waiting for one.  A caller
    waking from [sleep] calls [connect(attempt + 1)] in the same turn. *)
Definition stepTask (cfg : RouterOS) (svc : Service) (outcome : Attempt)
    (t : Task) (p : Pool) (n : nat) : Task * Pool * nat :=
  match t with
  | Calling attempt => enter svc attempt p n
  | Dialing attempt dial =>
    match outcome with
    | Connects => (Finished (Returned dial), <[poolKey svc := dial]> p, n)
    | Fails err =>
      let p' := delete (poolKey svc) p in
      if attempt <? maxRetries cfg then (Sleeping attempt, p', n)
      else (Finished (Thrown (connectError svc err)), p', n)
    end
  | Sleeping attempt => enter svc (attempt + 1) p n
  | Finished r => (Finished r, p, n)
  end.

(** The event loop resumes caller [i]. *)
Definition step (cfg : RouterOS) (w : World) (i : nat) (outcome : Attempt)
    : World :=
  match tasks w !! i with
  | None => w
  | Some (svc, t) =>
    let '(t', p', n') := stepTask cfg svc outcome t (pool w) (dials w) in
    {| pool := p'; tasks := <[i := (svc, t')]> (tasks w); dials := n' |}
  end.

Definition steps (cfg : RouterOS) (w : World)
    (schedule : list (nat * Attempt)) : World :=
  fold_left (fun w x => step cfg w (fst x) (snd x)) schedule w.

(** The calls of [rosConnect] in flight for a pool key. *)
Definition outstanding (key : JS.str) (w : World) : nat :=
  length (List.filter
            (fun x => match snd x with
                      | Dialing _ _ => Str.eqb (poolKey (fst x)) key
                      | _ => false
                      end) (tasks w)).

(* ===================================================================== *)
(** ** Secure transport: the fingerprint check of [rosConnect] *)
(* ===================================================================== *)

(** The class [\s] of regular expressions; also what [trim] removes. *)
Definition isWhiteSpace (c : Z) : bool :=
  ((9 <=? c) && (c <=? 13)) || (c =? 0x20) || (c =? 0xA0) || (c =? 0x1680)
  || ((0x2000 <=? c) && (c <=? 0x200A)) || (c =? 0x2028) || (c =? 0x2029)
  || (c =? 0x202F) || (c =? 0x205F) || (c =? 0x3000) || (c =? 0xFEFF).

(** [caFingerprint.replace(/[:\s]/g, "")] *)
Definition stripSeparators (s : JS.str) : JS.str :=
  List.filter (fun c => negb ((c =? 58) || isWhiteSpace c)) s.

(** A value used as a condition: [null], [undefined] and the empty string
    are false. *)
Definition truthy (s : option JS.str) : bool :=
  match s with
  | Some (_ :: _) => true
  | _ => false
  end.

(** [rejectUnauthorized: !!(caCert || caFingerprint)] *)
Definition rejectUnauthorized (o : Options) : bool :=
  truthy (caCert o) || truthy (caFingerprint o).

(** How the socket of a [rosConnect] call comes to be: either the call
    that creates it throws, or the socket exists and emits events once
    the transport is established. *)
Inductive Opening :=
| TlsThrows (e : Error)
| Opens (events : list Event).

Section SecureTransport.

(** [crypto.createHash("sha256").update(der).digest("hex")] *)
Variable sha256_hex : list JS.byte -> JS.str.
(** [String.prototype.toLowerCase] *)
Variable toLowerCase : JS.str -> JS.str.
(** The [TypeError] with which [tls.connect] refuses an option
    [checkServerIdentity] that is not a function. *)
Variable notFunction : Error.

(** The function given as [checkServerIdentity] when a fingerprint is
    configured; [None] is the [undefined] it returns when the certificate
    is accepted. *)
Definition checkServerIdentity (caFingerprint : JS.str) (der : list JS.byte)
    : option Error :=
  let fp := sha256_hex der in
  let want := toLowerCase (stripSeparators caFingerprint) in
  if bool_decide (fp <> want)
  then Some (JS.lit "TLS fingerprint mismatch: got " +++ fp
             +++ JS.lit ", want " +++ want)
  else None.

(** The error of the fingerprint check. *)
Definition mismatchError (fp : JS.str) (der : list JS.byte) : Error :=
  JS.lit "TLS fingerprint mismatch: got " +++ sha256_hex der
  +++ JS.lit ", want " +++ toLowerCase (stripSeparators fp).

(** The socket [rosConnect] creates.  For [net.createConnection] it
    emits ["connect"].  For [tls.connect] this is Node's contract.  The
    options given are laid over the defaults, so the property
    [checkServerIdentity: undefined], which the code passes whenever no
    fingerprint is configured, replaces the default check; [tls.connect]
    then requires the option to be a function and throws before any
    socket is created.  With a fingerprint the socket is created; at the
    end of the handshake the certificate chain is verified
    ([chainError] is the verification error, if any; the CA certificate,
    when one is configured, is taken to be a PEM text the secure context
    accepts); when the chain is accepted the function given as
    [checkServerIdentity] is called on the peer certificate ([der] is
    its [raw] field); an error from either, with [rejectUnauthorized]
    set, destroys the socket with that error (["error"], then
    ["close"]) and ["secureConnect"] is not emitted; in every other case
    ["secureConnect"] is emitted. *)
Definition socketOpens (o : Options) (chainError : option Error)
    (der : list JS.byte) : Opening :=
  if useTls o then
    match caFingerprint o with
    | Some (c :: cs) =>
      let verifyError :=
        match chainError with
        | Some e => Some e
        | None => checkServerIdentity (c :: cs) der
        end in
      match verifyError with
      | Some e => if rejectUnauthorized o then Opens [SockError e; SockClose]
                  else Opens [SockSecureConnect]
      | None => Opens [SockSecureConnect]
      end
    | _ => TlsThrows notFunction
    end
  else Opens [SockConnect].

(** [rosConnect], from the call to the events of the opening socket.
    An exception of [tls.connect] ends the executor of the promise: the
    promise is rejected with it and no handler is ever registered. *)
Definition rosConnect (o : Options) (chainError : option Error)
    (der : list JS.byte) : Conn :=
  match socketOpens o chainError der with
  | TlsThrows e => settleLogin (LoginFailed e) initial
  | Opens events => run o events initial
  end.

End SecureTransport.


(** Lower case on the Basic Latin letters. *)
Definition asciiLower (s : JS.str) : JS.str :=
  map (fun c => if (65 <=? c) && (c <=? 90) then c + 32 else c) s.

(* ===================================================================== *)
(** ** Peers: the private key kept in the comment *)
(* ===================================================================== *)

(** [s.trim()] *)
Fixpoint trimStart (s : JS.str) : JS.str :=
  match s with
  | c :: rest => if isWhiteSpace c then trimStart rest else s
  | [] => []
  end.

Definition trim (s : JS.str) : JS.str := rev (trimStart (rev (trimStart s))).

(** [s.includes(c)] for a one-character pattern *)
Definition includes (s : JS.str) (c : Z) : bool :=
  existsb (fun d => d =? c) s.

(** [s.split(c)] for a one-character separator *)
Fixpoint split (c : Z) (s : JS.str) : list JS.str :=
  match s with
  | [] => [[]]
  | d :: rest =>
    if d =? c then [] :: split c rest
    else match split c rest with
         | g :: gs => (d :: g) :: gs
         | [] => [[d]]
         end
  end.

Definition isDigit (c : Z) : bool := (48 <=? c) && (c <=? 57).

(** [/^\d{1,3}(\.\d{1,3}){3}$/.test(s)]: four groups of one to three
    digits, separated by dots. *)
Definition isIPv4Text (s : JS.str) : bool :=
  match split 46 s with
  | [a; b; c; d] =>
    forallb (fun g => (1 <=? length g)%nat && (length g <=? 3)%nat
                      && forallb isDigit g) [a; b; c; d]
  | _ => false
  end.

#[local] Set Warnings "-register-all".

(** A parsed JSON text. *)
Inductive JSON :=
| JNull
| JBool (b : bool)
| JNumber (text : JS.str)
| JString (s : JS.str)
| JArray (items : list JSON)
| JObject (members : list (JS.str * JSON)).

(** The property [key] of a parsed object; of members with the same key
    the last one counts. *)
Fixpoint member (key : JS.str) (members : list (JS.str * JSON)) : option JSON :=
  match members with
  | [] => None
  | (k, v) :: rest =>
    match member key rest with
    | Some v' => Some v'
    | None => if Str.eqb k key then Some v else None
    end
  end.

Definition hexDigit (n : Z) : Z := if n <? 10 then 48 + n else 87 + n.

Definition hex4 (c : Z) : JS.str :=
  [hexDigit (c / 4096 mod 16); hexDigit (c / 256 mod 16);
   hexDigit (c / 16 mod 16); hexDigit (c mod 16)].

(** [JSON.stringify] of a string, without the enclosing quotes: the
    two-character escapes, [\u00xx] for the other control characters,
    [\udxxx] for a surrogate that is not part of a pair, and every other
    code unit as it is. *)
Definition escapeUnit (c : Z) : JS.str :=
  if c =? 8 then [92; 98]
  else if c =? 9 then [92; 116]
  else if c =? 10 then [92; 110]
  else if c =? 12 then [92; 102]
  else if c =? 13 then [92; 114]
  else if c =? 34 then [92; 34]
  else if c =? 92 then [92; 92]
  else if c <? 32 then 92 :: 117 :: hex4 c
  else [c].

Fixpoint quoteChars (s : JS.str) : JS.str :=
  match s with
  | [] => []
  | c :: rest =>
    if JS.is_high c then
      match rest with
      | d :: rest' =>
        if JS.is_low d then c :: d :: quoteChars rest'
        else (92 :: 117 :: hex4 c) ++ quoteChars rest
      | [] => 92 :: 117 :: hex4 c
      end
    else if JS.is_low c then (92 :: 117 :: hex4 c) ++ quoteChars rest
    else escapeUnit c ++ quoteChars rest
  end.

Definition JSON_quote (s : JS.str) : JS.str := 34 :: quoteChars s ++ [34].

(** [JSON.stringify({ privkey: privateKey, created_at: now })] *)
Definition commentJSON (privateKey now : JS.str) : JS.str :=
  [123] ++ JSON_quote (JS.lit "privkey") ++ [58] ++ JSON_quote privateKey
  ++ [44] ++ JSON_quote (JS.lit "created_at") ++ [58] ++ JSON_quote now
  ++ [125].

(** [addPeer({ name, ipv4, ipv6, publicKey, privateKey })] up to the call
    of [api.write]: the error thrown by the checks, or the sentence
    written.  [now] is [new Date().toISOString()]. *)
Definition addPeer (wgInterface now name ipv4 ipv6 publicKey privateKey : JS.str)
    : Error + list JS.str :=
  if Str.eqb (trim name) [] then inl (JS.lit "Nama peer wajib diisi")
  else if Str.eqb (trim ipv4) [] then inl (JS.lit "IPv4 wajib diisi")
  else if Str.eqb (trim ipv6) [] then inl (JS.lit "IPv6 wajib diisi")
  else if Str.eqb (trim publicKey) [] then inl (JS.lit "Public key wajib diisi")
  else
    let v4 := trim ipv4 in
    let v6 := trim ipv6 in
    if negb (isIPv4Text v4) then inl (JS.lit "IPv4 tidak valid: " +++ v4)
    else if negb (includes v6 58) then inl (JS.lit "IPv6 tidak valid: " +++ v6)
    else
      let comment := commentJSON privateKey now in
      inr [JS.lit "/interface/wireguard/peers/add";
           JS.lit "=interface=" +++ wgInterface;
           JS.lit "=name=" +++ trim name;
           JS.lit "=public-key=" +++ trim publicKey;
           JS.lit "=allowed-address=" +++ v4 +++ JS.lit "/32," +++ v6
             +++ JS.lit "/128";
           JS.lit "=comment=" +++ comment].

Section Peers.

(** [JSON.parse]; [None] when it throws. *)
Variable JSON_parse : JS.str -> option JSON.

(** The [privkey] field of the object [_parsePeer(peer)] returns:
    [JSON.parse(peer.comment || "{}").privkey ?? null], and [null] when
    that throws. *)
Definition _parsePeer_privkey (peer : Row) : JSON :=
  let text :=
    match peer !! JS.lit "comment" with
    | Some (c :: cs) => c :: cs
    | _ => [123; 125]
    end in
  match JSON_parse text with
  | Some (JObject members) =>
    match member (JS.lit "privkey") members with
    | Some v => v
    | None => JNull
    end
  | _ => JNull
  end.


End Peers.

(** Code units of a string. *)
Definition is_str (s : JS.str) : Prop := Forall (fun c => 0 <= c < 65536) s.

(* ===================================================================== *)
(** ** Notions used in the statements *)
(* ===================================================================== *)

(** A code point that is a Unicode scalar value. *)
Definition scalar (cp : Z) : Prop :=
  0 <= cp < 0x110000 /\ ~ (0xD800 <= cp <= 0xDFFF).

(** Words the framing can carry: valid text, at least one byte, and a
    byte length that fits the 32 bits of the longest prefix. *)
Definition wire_word (w : JS.str) : Prop :=
  JS.well_formed w = true /\ w <> [] /\
  Z.of_nat (length (JS.utf8_encode w)) < 2 ^ 32.

(** The byte count of a length prefix, by the table of the framing. *)
Definition prefixWidth (len : Z) : nat :=
  if len <? 0x80 then 1
  else if len <? 0x4000 then 2
  else if len <? 0x200000 then 3
  else if len <? 0x10000000 then 4
  else 5.

(** An attribute word split as the specification words it: drop the
    one-character marker, then cut at the first [=] of what follows. *)
Definition splitAttr (w : JS.str) : option (JS.str * JS.str) :=
  match w with
  | [] => None
  | _ :: body =>
    match Str.index 61 body with
    | Some k => Some (firstn k body, skipn (S k) body)
    | None => None
    end
  end.

(** A row built from the split attribute words of a sentence. *)
Definition rowOfAttrs (s : Sentence) : Row :=
  fold_left (fun obj w => match splitAttr w with
                          | Some (k, v) => setProp obj k v
                          | None => obj
                          end) (tail s) ∅.

(** A sentence tagged [!re]. *)
Definition isRow (s : Sentence) : bool :=
  match s with
  | t :: _ => Str.eqb t (JS.lit "!re")
  | [] => false
  end.

(** A word that is not a [=message=] attribute. *)
Definition notMessage (w : JS.str) : Prop :=
  Str.startsWith w (JS.lit "=message=") = false.

(** The events that call [destroyAll]. *)
Definition teardown (e : Event) : Prop :=
  match e with
  | SockTimeout | SockError _ | SockClose | ApiClose => True
  | _ => False
  end.

(** The calls [connect] makes while its first [n] attempts, numbered from
    [a], fail with retries left: a dial and a sleep for each. *)
Fixpoint retries (cfg : RouterOS) (a : Z) (n : nat) : list Action :=
  match n with
  | O => []
  | S n' => Dial a :: Sleep (retryDelay cfg) :: retries cfg (a + 1) n'
  end.

(** Number of calls of [rosConnect] among the calls made. *)
Definition dialCount (acts : list Action) : nat :=
  length (List.filter (fun x => match x with Dial _ => true | _ => false end) acts).

(** One caller alone on the event loop. *)
Definition lone (svc : Service) (t : Task) (p : Pool) (n : nat) : World :=
  {| pool := p; tasks := [(svc, t)]; dials := n |}.

(* ===================================================================== *)
(** ** Tables decided by computation *)
(* ===================================================================== *)

(** Setting the tag bits of a first byte adds them. *)
Definition or_table (x : Z) : bool :=
  (JS.or x 0x80 =? 0x80 + x)
  && implb (x <? 32) (JS.or x 0xc0 =? 0xc0 + x)
  && implb (x <? 16) (JS.or x 0xe0 =? 0xe0 + x).

(** The tests of the prefix chain on the first byte, and the payload
    bits each branch keeps. *)
Definition tag_table (b0 : Z) : bool :=
  implb (b0 <? 0x80)
     (negb (JS.and b0 0xf0 =? 0xf0) && negb (JS.and b0 0xe0 =? 0xe0)
      && negb (JS.and b0 0xc0 =? 0xc0) && negb (JS.and b0 0x80 =? 0x80))
  && implb ((0x80 <=? b0) && (b0 <? 0xc0))
     (negb (JS.and b0 0xf0 =? 0xf0) && negb (JS.and b0 0xe0 =? 0xe0)
      && negb (JS.and b0 0xc0 =? 0xc0) && (JS.and b0 0x80 =? 0x80)
      && (JS.shl (JS.and b0 0x3f) 8 =? (b0 - 0x80) * 256))
  && implb ((0xc0 <=? b0) && (b0 <? 0xe0))
     (negb (JS.and b0 0xf0 =? 0xf0) && negb (JS.and b0 0xe0 =? 0xe0)
      && (JS.and b0 0xc0 =? 0xc0)
      && (JS.shl (JS.and b0 0x1f) 16 =? (b0 - 0xc0) * 65536))
  && implb ((0xe0 <=? b0) && (b0 <? 0xf0))
     (negb (JS.and b0 0xf0 =? 0xf0) && (JS.and b0 0xe0 =? 0xe0)
      && (JS.and b0 0x0f =? b0 - 0xe0))
  && implb (0xf0 <=? b0) (JS.and b0 0xf0 =? 0xf0)
  && (JS.shl b0 8 =? b0 * 256) && (JS.shl b0 16 =? b0 * 65536).

(** The bytes of a length prefix, in arithmetic form. *)
Definition prefixBytes (len : Z) : list Z :=
  if len <? 0x80 then [len]
  else if len <? 0x4000 then [0x80 + len / 256; len mod 256]
  else if len <? 0x200000 then
    [0xc0 + len / 65536; (len / 256) mod 256; len mod 256]
  else if len <? 0x10000000 then
    [0xe0 + len / 16777216; (len / 65536) mod 256; (len / 256) mod 256; len mod 256]
  else
    [0xf0; (len / 16777216) mod 256; (len / 65536) mod 256;
     (len / 256) mod 256; len mod 256].

(* ===================================================================== *)
(** ** A reader of flat JSON objects *)
(* ===================================================================== *)

(** Value of a hexadecimal digit. *)
Definition hexValue (d : Z) : option Z :=
  if (48 <=? d) && (d <=? 57) then Some (d - 48)
  else if (97 <=? d) && (d <=? 102) then Some (d - 87)
  else if (65 <=? d) && (d <=? 70) then Some (d - 55)
  else None.

(** The character a two-character escape stands for. *)
Definition unescape (e : Z) : option Z :=
  if e =? 34 then Some 34
  else if e =? 92 then Some 92
  else if e =? 47 then Some 47
  else if e =? 98 then Some 8
  else if e =? 102 then Some 12
  else if e =? 110 then Some 10
  else if e =? 114 then Some 13
  else if e =? 116 then Some 9
  else None.

(** A reader of JSON string literals, from after the opening quote to
    the closing one: the text and what follows the literal. *)
Fixpoint readChars (s : JS.str) : option (JS.str * JS.str) :=
  match s with
  | [] => None
  | c :: rest =>
    if c =? 34 then Some ([], rest)
    else if c =? 92 then
      match rest with
      | [] => None
      | e :: rest1 =>
        if e =? 117 then
          match rest1 with
          | h1 :: h2 :: h3 :: h4 :: rest2 =>
            match hexValue h1, hexValue h2, hexValue h3, hexValue h4 with
            | Some a, Some b, Some c', Some d =>
              match readChars rest2 with
              | Some (text, after) =>
                Some (((a * 16 + b) * 16 + c') * 16 + d :: text, after)
              | None => None
              end
            | _, _, _, _ => None
            end
          | _ => None
          end
        else
          match unescape e with
          | Some u =>
            match readChars rest1 with
            | Some (text, after) => Some (u :: text, after)
            | None => None
            end
          | None => None
          end
      end
    else if c <? 32 then None
    else
      match readChars rest with
      | Some (text, after) => Some (c :: text, after)
      | None => None
      end
  end.


(** The text after an expected character. *)
Definition expect (c : Z) (s : JS.str) : option JS.str :=
  match s with
  | d :: rest => if d =? c then Some rest else None
  | [] => None
  end.

(** ["key":"value"] *)
Definition readMember (s : JS.str) : option ((JS.str * JSON) * JS.str) :=
  s1 ← expect 34 s;
  '(k, s2) ← readChars s1;
  s3 ← expect 58 s2;
  s4 ← expect 34 s3;
  '(v, s5) ← readChars s4;
  Some ((k, JString v), s5).

(** A [JSON.parse] for the objects of at most two string members,
    written without white space; every other text is refused. *)
Definition parseFlat (s : JS.str) : option JSON :=
  s1 ← expect 123 s;
  match s1 with
  | [125] => Some (JObject [])
  | _ =>
    '(m1, s2) ← readMember s1;
    match s2 with
    | [125] => Some (JObject [m1])
    | 44 :: s3 =>
      '(m2, s4) ← readMember s3;
      match s4 with
      | [125] => Some (JObject [m1; m2])
      | _ => None
      end
    | _ => None
    end
  end.

(* ===================================================================== *)
(** ** Inputs of the examples *)
(* ===================================================================== *)

(** A plain TCP connection, for the examples. *)
Definition demo : Options :=
  {| host := JS.lit "10.0.0.1"; port := JS.lit "8728"; user := JS.lit "admin";
     password := JS.lit "secret"; useTls := false;
     caFingerprint := None; caCert := None |}.

(** Login, then two requests submitted before any reply. *)
Definition twoWrites : list Event :=
  [SockConnect; SockData (encodeSentence [JS.lit "!done"]);
   ApiWrite [JS.lit "/interface/wireguard/peers/print"];
   ApiWrite [JS.lit "/interface/wireguard/print"]].

Definition afterTwoWrites : Conn := run demo twoWrites initial.

(** The trap reply of the specification. *)
Definition trapReply : Sentence :=
  [JS.lit "!trap"; JS.lit "=message=invalid value"].

(** The data row of the specification, and the object it parses to. *)
Definition alphaRow : Sentence :=
  [JS.lit "!re"; JS.lit "=name=Alpha";
   JS.lit "=allowed-address=10.0.0.2/32,fd00::2/128"].

Definition alphaObject : Row :=
  {[ JS.lit "name" := JS.lit "Alpha";
     JS.lit "allowed-address" := JS.lit "10.0.0.2/32,fd00::2/128" ]}.

(** A service for the first server, and the default retry settings. *)
Definition demoService : Service :=
  {| srv := demo; poolKey := JS.lit "srv_0" |}.

Definition threeAttempts : RouterOS :=
  {| timeout := 15; maxRetries := 3; retryDelay := 1000 |}.

(** Two callers about to call [connect] for the same router, with an
    empty pool. *)
Definition twoCallers : World :=
  {| pool := ∅;
     tasks := [(demoService, Calling 1); (demoService, Calling 1)];
     dials := 0 |}.

(** A caller about to call [connect] for a router whose connection is in
    the pool. *)
Definition pooled : World :=
  {| pool := {[ poolKey demoService := 0%nat ]};
     tasks := [(demoService, Calling 1)];
     dials := 1 |}.

(** A TLS connection with a configured fingerprint. *)
Definition pinned : Options :=
  {| host := JS.lit "10.0.0.1"; port := JS.lit "8729"; user := JS.lit "admin";
     password := JS.lit "secret"; useTls := true;
     caFingerprint := Some (JS.lit "AA:BB cc:DD"); caCert := None |}.

(** A private key as [generateKeypair] encodes it (base64). *)
Definition demoKey : JS.str := JS.lit "kA1+/0cB2dE3fG4hI5jK6lM7nO8pQ9rS0tU1vW2xY=".

(* ===================================================================== *)
(** ** Numbers and their text *)
(* ===================================================================== *)

(** The digits of [n] in [radix], most significant first, in front of
    [acc]; [fuel] bounds their number. *)
Fixpoint digits (fuel : nat) (radix n : Z) (acc : JS.str) : JS.str :=
  match fuel with
  | O => acc
  | S fuel' =>
    let acc' := hexDigit (n mod radix) :: acc in
    if n / radix =? 0 then acc' else digits fuel' radix (n / radix) acc'
  end.

(** [n.toString(radix)], and [String(n)] and [`${n}`] with radix 10, for
    an integer [n] (below 10^21 in absolute value when the radix is 10,
    where JavaScript switches to the exponent notation).  An integer has
    no more digits than bits. *)
Definition Number_toString (n radix : Z) : JS.str :=
  if n <? 0
  then 45 :: digits (S (Z.to_nat (Z.log2 (- n)))) radix (- n) []
  else digits (S (Z.to_nat (Z.log2 n))) radix n [].

(** The value of a character as a digit: [0-9], [a-z], [A-Z]. *)
Definition digitValue (c : Z) : option Z :=
  if (48 <=? c) && (c <=? 57) then Some (c - 48)
  else if (97 <=? c) && (c <=? 122) then Some (c - 87)
  else if (65 <=? c) && (c <=? 90) then Some (c - 55)
  else None.

(** The values of the longest prefix of [s] made of digits of [radix]. *)
Fixpoint takeDigits (radix : Z) (s : JS.str) : list Z :=
  match s with
  | [] => []
  | c :: rest =>
    match digitValue c with
    | Some d => if d <? radix then d :: takeDigits radix rest else []
    | None => []
    end
  end.

(** [parseInt(string, radix)]; the argument [None] is [undefined], the
    radix 0 is an absent radix, and the result [None] is [NaN].  The
    result is the integer the digits denote; JavaScript rounds it to the
    nearest double, which is the same number below 2^53 and never a
    number below 2^53 above it. *)
Definition parseInt (string : option JS.str) (radix : Z) : option Z :=
  let inputString :=
    match string with
    | Some s => s
    | None => JS.lit "undefined"
    end in
  let S0 := trimStart inputString in
  let '(sign, S1) :=
    match S0 with
    | c :: rest =>
      if c =? 45 then (-1, rest) else if c =? 43 then (1, rest) else (1, S0)
    | [] => (1, S0)
    end in
  let R := JS.toInt32 radix in
  if negb (R =? 0) && ((R <? 2) || (36 <? R)) then None
  else
    let stripPrefix := (R =? 0) || (R =? 16) in
    let R1 := if R =? 0 then 10 else R in
    let '(R2, S2) :=
      match S1 with
      | z :: x :: rest =>
        if stripPrefix && (z =? 48) && ((x =? 120) || (x =? 88)) then (16, rest)
        else (R1, S1)
      | _ => (R1, S1)
      end in
    match takeDigits R2 S2 with
    | [] => None
    | ds => Some (sign * fold_left (fun a d => a * R2 + d) ds 0)
    end.

(** Position of the last [c] in [w], if any: [w.lastIndexOf(c)] for a
    one-character pattern, [None] for -1. *)
Fixpoint lastIndexOf (w : JS.str) (c : Z) : option nat :=
  match w with
  | [] => None
  | d :: w' =>
    match lastIndexOf w' c with
    | Some k => Some (S k)
    | None => if d =? c then Some O else None
    end
  end.

(** A string of digits of the radix. *)
Definition digitString (radix : Z) (s : JS.str) : Prop :=
  Forall (fun c => exists d, digitValue c = Some d /\ 0 <= d < radix) s.

(** The number a string of digits denotes. *)
Definition digitsNumber (radix : Z) (s : JS.str) : Z :=
  fold_left (fun a c => a * radix + default 0 (digitValue c)) s 0.

(* ===================================================================== *)
(** ** [generator.js]: free addresses and taken addresses *)
(* ===================================================================== *)

(** A peer as [_parsePeer] returns it: the reply row ([...peer]) and the
    five properties set on top of it. *)
Module Peer.
Record t := {
  raw : Row;
  name : JS.str;
  privkey : JSON;
  ipv4 : JS.str;
  ipv6 : JS.str;
  enabled : bool;
}.
End Peer.

(** [ip.trim().split("/")[0]] *)
Definition withoutPrefixLength (ip : JS.str) : JS.str :=
  hd [] (split 47 (trim ip)).

(** [parseLastOctetV4(ip)]; [None] is [null]. *)
Definition parseLastOctetV4 (ip : JS.str) : option Z :=
  if Str.eqb ip [] || Str.eqb ip (JS.lit "-") then None
  else
    let clean := withoutPrefixLength ip in
    let parts := split 46 clean in
    parseInt (nth_error parts 3) 10.

(** [parseLastSegmentV6(ip)]; [None] is [null]. *)
Definition parseLastSegmentV6 (ip : JS.str) : option Z :=
  if Str.eqb ip [] || Str.eqb ip (JS.lit "-") then None
  else
    let clean := withoutPrefixLength ip in
    match lastIndexOf clean 58 with
    | None => None
    | Some idx => parseInt (Some (Str.slice_from clean (idx + 1))) 16
    end.

(** The body of the first loop of [findNextFreeIP], on the sets
    [usedV4] and [usedV6]. *)
Definition addUsed (used : gset Z * gset Z) (peer : Peer.t) : gset Z * gset Z :=
  let '(usedV4, usedV6) := used in
  let v4 := parseLastOctetV4 (Peer.ipv4 peer) in
  let v6 := parseLastSegmentV6 (Peer.ipv6 peer) in
  (match v4 with Some v => usedV4 ∪ {[v]} | None => usedV4 end,
   match v6 with Some v => usedV6 ∪ {[v]} | None => usedV6 end).

Definition usedHosts (peers : list Peer.t) : gset Z * gset Z :=
  fold_left addUsed peers (∅, ∅).

(** The second loop of [findNextFreeIP], with [n] hosts left to try from
    [host] on: the first host in neither set. *)
Fixpoint firstFree (n : nat) (host : Z) (usedV4 usedV6 : gset Z) : option Z :=
  match n with
  | O => None
  | S n' =>
    if bool_decide (host ∉ usedV4) && bool_decide (host ∉ usedV6)
    then Some host
    else firstFree n' (host + 1) usedV4 usedV6
  end.

(** The host [findNextFreeIP] settles on: [for (let host = 2; host <= 253;
    host++)]. *)
Definition freeHost (peers : list Peer.t) : option Z :=
  let '(usedV4, usedV6) := usedHosts peers in
  firstFree 252 2 usedV4 usedV6.

(** [findNextFreeIP(peers, ipv4Prefix, ipv6Prefix)]: the pair
    [{ ipv4, ipv6 }], or the error thrown. *)
Definition findNextFreeIP (peers : list Peer.t) (ipv4Prefix ipv6Prefix : JS.str)
    : Error + (JS.str * JS.str) :=
  match freeHost peers with
  | Some host =>
    inr (ipv4Prefix +++ Number_toString host 10,
         ipv6Prefix +++ Number_toString host 16)
  | None =>
    inl (JS.lit "Tidak ada IP kosong tersisa (host 2" +++ [0x2013]
         +++ JS.lit "253 semua terpakai)")
  end.

(** The result of [isIPTaken]: [{ taken: false }] or
    [{ taken: true, which, ip }]. *)
Inductive Taken :=
| NotTaken
| TakenBy (which ip : JS.str).

Section Generator.

(** [String.prototype.toLowerCase] *)
Variable toLowerCase : JS.str -> JS.str.

(** [norm] of [isIPTaken] *)
Definition norm (ip : JS.str) : JS.str :=
  toLowerCase (withoutPrefixLength ip).

(** [isIPTaken(peers, ipv4, ipv6)] *)
Fixpoint isIPTaken (peers : list Peer.t) (ipv4 ipv6 : JS.str) : Taken :=
  match peers with
  | [] => NotTaken
  | peer :: rest =>
    if Str.eqb (norm (Peer.ipv4 peer)) (norm ipv4)
    then TakenBy (JS.lit "IPv4") ipv4
    else if Str.eqb (norm (Peer.ipv6 peer)) (norm ipv6)
    then TakenBy (JS.lit "IPv6") ipv6
    else isIPTaken rest ipv4 ipv6
  end.

End Generator.

(** A peer uses host [k]: the last octet of its IPv4 address or the last
    segment of its IPv6 address is [k]. *)
Definition usesHost (k : Z) (peer : Peer.t) : Prop :=
  parseLastOctetV4 (Peer.ipv4 peer) = Some k
  \/ parseLastSegmentV6 (Peer.ipv6 peer) = Some k.

(** An IPv4 prefix of the shape ["a.b.c."]: three dots, the last one at
    the end, no slash, no white space in front. *)
Definition dottedPrefix (p : JS.str) : Prop :=
  (exists a b c, split 46 p = [a; b; c; []])
  /\ includes p 47 = false /\ trimStart p = p.

(** An IPv6 prefix that ends with a colon, without a slash and without
    white space in front. *)
Definition colonPrefix (p : JS.str) : Prop :=
  (exists p', p = p' ++ [58]) /\ includes p 47 = false /\ trimStart p = p.

(** [y] appended to the last piece of a split. *)
Fixpoint appLast (l : list JS.str) (y : JS.str) : list JS.str :=
  match l with
  | [] => [y]
  | [g] => [g ++ y]
  | g :: gs => g :: appLast gs y
  end.

(* ===================================================================== *)
(** ** [generator.js]: peer names *)
(* ===================================================================== *)

Definition ADJECTIVES : list JS.str :=
  map JS.lit
    ["Swift"; "Clever"; "Mighty"; "Noble"; "Brave"; "Silent"; "Golden";
     "Storm"; "Lunar"; "Solar"; "Cyber"; "Neon"; "Frost"; "Blaze"; "Echo";
     "Shadow"; "Mystic"; "Royal"; "Cosmic"; "Arctic"]%string.

Definition NOUNS : list JS.str :=
  map JS.lit
    ["Phoenix"; "Dragon"; "Tiger"; "Eagle"; "Wolf"; "Falcon"; "Raven";
     "Lion"; "Bear"; "Hawk"; "Lynx"; "Puma"; "Cobra"; "Viper"; "Panther";
     "Jaguar"; "Orca"; "Shark"; "Rhino"; "Bison"]%string.

(** What one turn of the loop of [generateName] draws: the values of
    [Math.floor(Math.random() * ADJECTIVES.length)],
    [Math.floor(Math.random() * NOUNS.length)] and
    [Math.floor(Math.random() * 90)]. *)
Record Draw := {
  adjective : nat;
  noun : nat;
  number : Z;
}.

(** [`${adj}-${noun}-${num}`]; an index outside an array reads
    [undefined]. *)
Definition candidate (d : Draw) : JS.str :=
  nth (adjective d) ADJECTIVES (JS.lit "undefined") +++ JS.lit "-"
  +++ nth (noun d) NOUNS (JS.lit "undefined") +++ JS.lit "-"
  +++ Number_toString (number d + 10) 10.

Section GenerateName.

(** [String.prototype.toLowerCase] *)
Variable toLowerCase : JS.str -> JS.str.

(** The loop of [generateName] with [n] attempts left, at [attempt]. *)
Fixpoint tryNames (n attempt : nat) (existing : list JS.str)
    (draws : nat -> Draw) (now : Z) : JS.str :=
  match n with
  | O => JS.lit "Peer-" +++ Number_toString now 10
  | S n' =>
    let name := candidate (draws attempt) in
    if bool_decide (toLowerCase name ∈ existing)
    then tryNames n' (S attempt) existing draws now
    else name
  end.

(** [generateName(existingNames)]; [draws] gives the random numbers of
    every attempt and [now] is [Date.now()]. *)
Definition generateName (existingNames : list JS.str) (draws : nat -> Draw)
    (now : Z) : JS.str :=
  let existing := map (fun n => trim (toLowerCase n)) existingNames in
  tryNames 500 0 existing draws now.

End GenerateName.

(* ===================================================================== *)
(** ** [config.js]: the servers of the environment *)
(* ===================================================================== *)

(** The module [config.js]. *)
Module Config.

(** [process.env] *)
Abbreviation Env := (gmap JS.str JS.str).

(** An entry of [config.servers]; [None] is [null]. *)
Record Server := {
  id : Z;
  name : JS.str;
  host : JS.str;
  user : JS.str;
  password : JS.str;
  port : Z;
  tls : bool;
  caFingerprint : option JS.str;
  caCert : option JS.str;
  wgInterface : JS.str;
  wgPort : Z;
  ipv4Prefix : JS.str;
  ipv6Prefix : JS.str;
}.

(** [process.env[key]?.trim() || null] *)
Definition trimmed (env : Env) (key : JS.str) : option JS.str :=
  match env !! key with
  | Some v =>
    match trim v with
    | [] => None
    | c :: cs => Some (c :: cs)
    end
  | None => None
  end.

(** [parseInt(x) || d] *)
Definition intOr (x : option JS.str) (d : Z) : Z :=
  match parseInt x 0 with
  | Some n => if n =? 0 then d else n
  | None => d
  end.

(** [`S${index}`] followed by the name of a variable *)
Definition key (index : Z) (suffix : string) : JS.str :=
  JS.lit "S" +++ Number_toString index 10 +++ JS.lit suffix.

(** [buildServer(index)]; [None] is [null]. *)
Definition buildServer (env : Env) (index : Z) : option Server :=
  match trimmed env (key index "_HOST") with
  | None => None
  | Some host =>
    match trimmed env (key index "_USER"), trimmed env (key index "_PASSWORD") with
    | Some user, Some password =>
      let tlsEnv := env !! key index "_TLS" in
      let port := intOr (env !! key index "_PORT") 8729 in
      let useTls :=
        match tlsEnv with
        | Some v => Str.eqb v (JS.lit "true")
        | None => port =? 8729
        end in
      Some {| id := index;
              name := default (JS.lit "Router-" +++ Number_toString index 10)
                        (trimmed env (key index "_NAME"));
              host := host; user := user; password := password;
              port := port; tls := useTls;
              caFingerprint := trimmed env (key index "_TLS_FINGERPRINT");
              caCert := trimmed env (key index "_TLS_CA");
              wgInterface := default (JS.lit "wireguard1")
                               (trimmed env (key index "_WG_INTERFACE"));
              wgPort := intOr (env !! key index "_WG_PORT") 51820;
              ipv4Prefix := default (JS.lit "10.10." +++ Number_toString index 10
                                     +++ JS.lit ".")
                              (trimmed env (key index "_IPV4_PREFIX"));
              ipv6Prefix := default (JS.lit "fd00:10:" +++ Number_toString index 10
                                     +++ JS.lit "::")
                              (trimmed env (key index "_IPV6_PREFIX")) |}
    | _, _ => None
    end
  end.

(** The scan [for (let i = 0; ; i++)] from index [i], with [fuel] turns
    left; [None] when they do not reach the [break]. *)
Fixpoint scan (fuel : nat) (env : Env) (i : Z) : option (list Server) :=
  match fuel with
  | O => None
  | S fuel' =>
    match trimmed env (key i "_HOST") with
    | None => Some []
    | Some _ =>
      match scan fuel' env (i + 1) with
      | Some rest =>
        Some (match buildServer env i with
              | Some srv => srv :: rest
              | None => rest
              end)
      | None => None
      end
    end
  end.

(** [servers]: the scan from 0.  The environment has [size env]
    variables, so one of the first [size env + 1] indices has no host.
    (With no server in the list the module then ends the process.) *)
Definition servers (env : Env) : option (list Server) :=
  scan (S (size env)) env 0.

End Config.

(** The servers built for the indices below [n]. *)
Definition builtBelow (env : Config.Env) (n : nat) : list Config.Server :=
  omap (Config.buildServer env) (map Z.of_nat (seq 0 n)).

(* ===================================================================== *)
(** ** [MikrotikService]: peers, cache and requests *)
(* ===================================================================== *)

(** [addrs.find((a) => a.includes(c))?.split("/")[0] ?? "-"] for a
    one-character pattern *)
Definition addressWith (c : Z) (addrs : list JS.str) : JS.str :=
  match find (fun a => includes a c) addrs with
  | Some a => hd [] (split 47 a)
  | None => JS.lit "-"
  end.

(** [(peer["allowed-address"] || "").split(",").map((s) => s.trim())
    .filter(Boolean)] *)
Definition addressList (peer : Row) : list JS.str :=
  List.filter (fun s => negb (Str.eqb s []))
    (map trim (split 44 (default [] (peer !! JS.lit "allowed-address")))).

Section WireGuardPeers.

(** [JSON.parse]; [None] when it throws. *)
Variable JSON_parse : JS.str -> option JSON.

(** [_parsePeer(peer)] *)
Definition _parsePeer (peer : Row) : Peer.t :=
  let name :=
    match peer !! JS.lit "name" with
    | Some (c :: cs) => c :: cs
    | _ => JS.lit "Unknown"
    end in
  let privkey := _parsePeer_privkey JSON_parse peer in
  let addrs := addressList peer in
  let ipv4 := addressWith 46 addrs in
  let ipv6 := addressWith 58 addrs in
  let enabled :=
    negb (bool_decide (peer !! JS.lit "disabled" = Some (JS.lit "true"))) in
  {| Peer.raw := peer; Peer.name := name; Peer.privkey := privkey;
     Peer.ipv4 := ipv4; Peer.ipv6 := ipv6; Peer.enabled := enabled |}.

End WireGuardPeers.

(** How an [async] method ends for its caller: the value it resolves
    with, the error it throws, or neither when a promise it awaits does
    not settle. *)
Inductive Result (A : Type) :=
| Value (a : A)
| Throws (err : Error)
| Unsettled.
Arguments Value {A} a.
Arguments Throws {A} err.
Arguments Unsettled {A}.

(** The class [MikrotikService] with the module variables [pool] and
    [cache] it works on. *)
Module MikrotikService.

(** [const CACHE_TTL = 5_000] *)
Definition CACHE_TTL : Z := 5000.

(** An instance: [this.srv] (the fields [connect] passes on and
    [wgInterface]), [this.poolKey] and [this.cacheKey]. *)
Record t := {
  base : Service;
  wgInterface : JS.str;
  cacheKey : JS.str;
}.

(** [new MikrotikService(serverId)], for a number [serverId]: the
    instance, or the error thrown. *)
Definition new (servers : list Config.Server) (serverId : Z) : Error + t :=
  match find (fun s => Config.id s =? serverId) servers with
  | None =>
    inl (JS.lit "Server ID " +++ Number_toString serverId 10
         +++ JS.lit " tidak ditemukan")
  | Some srv =>
    inr {| base :=
             {| srv :=
                  {| host := Config.host srv;
                     port := Number_toString (Config.port srv) 10;
                     user := Config.user srv;
                     password := Config.password srv;
                     useTls := Config.tls srv;
                     caFingerprint := Config.caFingerprint srv;
                     caCert := Config.caCert srv |};
                poolKey := JS.lit "srv_" +++ Number_toString (Config.id srv) 10 |};
           wgInterface := Config.wgInterface srv;
           cacheKey := JS.lit "peers_" +++ Number_toString (Config.id srv) 10 |}
  end.

(** An entry of [cache]: [{ data, ts }]. *)
Record Entry := {
  data : list Peer.t;
  ts : Z;
}.

(** [pool] and [cache], with what the methods have done to the outside:
    the number of [rosConnect] calls, and the calls of [api.write] and of
    [api.close] with the api object they were made on. *)
Record State := {
  pool : Pool;
  cache : gmap JS.str Entry;
  dials : nat;
  written : list (nat * list JS.str);
  closed : list nat;
}.

Definition empty : State :=
  {| pool := ∅; cache := ∅; dials := 0; written := []; closed := [] |}.

(** [disconnect()] *)
Definition disconnect (me : t) (st : State) : State :=
  match pool st !! poolKey (base me) with
  | Some api =>
    {| pool := delete (poolKey (base me)) (pool st); cache := cache st;
       dials := dials st; written := written st;
       closed := closed st ++ [api] |}
  | None => st
  end.

(** The hook [api._onClose] that [connect] sets on the api object it
    stores, called when the socket of [api] closes. *)
Definition _onClose (me : t) (api : nat) (st : State) : State :=
  if bool_decide (pool st !! poolKey (base me) = Some api)
  then {| pool := delete (poolKey (base me)) (pool st); cache := cache st;
          dials := dials st; written := written st; closed := closed st |}
  else st.

(** [invalidateCache()] *)
Definition invalidateCache (me : t) (st : State) : State :=
  {| pool := pool st; cache := delete (cacheKey me) (cache st);
     dials := dials st; written := written st; closed := closed st |}.

(** [const api = await this.connect(); await api.write(words)], the two
    steps every request method makes.  The calls of [rosConnect] end as
    [outcomes] says and the promise of [api.write] settles as [reply]
    says ([None]: it does not). *)
Definition request (cfg : RouterOS) (me : t) (words : list JS.str)
    (outcomes : list Attempt) (reply : option Settlement) (st : State)
    : Result (list Row) * State :=
  let '(r, p, n, _) := connect cfg (base me) outcomes 1 (pool st) (dials st) in
  match r with
  | Returned api =>
    let st' := {| pool := p; cache := cache st; dials := n;
                  written := written st ++ [(api, words)];
                  closed := closed st |} in
    match reply with
    | Some (Resolved rows) => (Value rows, st')
    | Some (Rejected err) => (Throws err, st')
    | None => (Unsettled, st')
    end
  | Thrown err =>
    (Throws err,
     {| pool := p; cache := cache st; dials := n; written := written st;
        closed := closed st |})
  | Waiting =>
    (Unsettled,
     {| pool := p; cache := cache st; dials := n; written := written st;
        closed := closed st |})
  end.

Section Methods.

Variable JSON_parse : JS.str -> option JSON.

(** [getPeers(forceRefresh)]; [now] is [Date.now()] at the cache test
    and [now'] when the result is stored. *)
Definition getPeers (cfg : RouterOS) (me : t) (forceRefresh : bool) (now : Z)
    (outcomes : list Attempt) (reply : option Settlement) (now' : Z)
    (st : State) : Result (list Peer.t) * State :=
  let fresh :=
    match cache st !! cacheKey me with
    | Some hit =>
      if negb forceRefresh && (now - ts hit <? CACHE_TTL)
      then Some (data hit) else None
    | None => None
    end in
  match fresh with
  | Some peers => (Value peers, st)
  | None =>
    match request cfg me
            [JS.lit "/interface/wireguard/peers/print";
             JS.lit "?interface=" +++ wgInterface me] outcomes reply st with
    | (Value peers, st') =>
      let result := map (_parsePeer JSON_parse) peers in
      (Value result,
       {| pool := pool st';
          cache := <[cacheKey me := {| data := result; ts := now' |}]> (cache st');
          dials := dials st'; written := written st'; closed := closed st' |})
    | (Throws err, st') => (Throws err, st')
    | (Unsettled, st') => (Unsettled, st')
    end
  end.

End Methods.

(** [getServerPublicKey()]; the value [None] is [undefined]. *)
Definition getServerPublicKey (cfg : RouterOS) (me : t)
    (outcomes : list Attempt) (reply : option Settlement) (st : State)
    : Result (option JS.str) * State :=
  match request cfg me
          [JS.lit "/interface/wireguard/print";
           JS.lit "?name=" +++ wgInterface me] outcomes reply st with
  | (Value [], st') =>
    (Throws (JS.lit "Interface '" +++ wgInterface me
             +++ JS.lit "' tidak ditemukan di router"), st')
  | (Value (first :: _), st') => (Value (first !! JS.lit "public-key"), st')
  | (Throws err, st') => (Throws err, st')
  | (Unsettled, st') => (Unsettled, st')
  end.

(** A request that changes the router, then [this.invalidateCache()]. *)
Definition change (cfg : RouterOS) (me : t) (words : list JS.str)
    (outcomes : list Attempt) (reply : option Settlement) (st : State)
    : Result unit * State :=
  match request cfg me words outcomes reply st with
  | (Value _, st') => (Value tt, invalidateCache me st')
  | (Throws err, st') => (Throws err, st')
  | (Unsettled, st') => (Unsettled, st')
  end.

(** [addPeer({ name, ipv4, ipv6, publicKey, privateKey })]; [now] is
    [new Date().toISOString()]. *)
Definition addPeer (cfg : RouterOS) (me : t)
    (now name ipv4 ipv6 publicKey privateKey : JS.str)
    (outcomes : list Attempt) (reply : option Settlement) (st : State)
    : Result unit * State :=
  match addPeer (wgInterface me) now name ipv4 ipv6 publicKey privateKey with
  | inl err => (Throws err, st)
  | inr words => change cfg me words outcomes reply st
  end.

(** [togglePeer(id, shouldDisable)] *)
Definition togglePeer (cfg : RouterOS) (me : t) (id : JS.str)
    (shouldDisable : bool)
    (outcomes : list Attempt) (reply : option Settlement) (st : State)
    : Result unit * State :=
  if Str.eqb id [] then (Throws (JS.lit "Peer ID tidak boleh kosong"), st)
  else
    change cfg me
      [JS.lit "/interface/wireguard/peers/set";
       JS.lit "=.id=" +++ id;
       JS.lit "=disabled=" +++ (if shouldDisable then JS.lit "yes" else JS.lit "no")]
      outcomes reply st.

(** [removePeer(id)] *)
Definition removePeer (cfg : RouterOS) (me : t) (id : JS.str)
    (outcomes : list Attempt) (reply : option Settlement) (st : State)
    : Result unit * State :=
  if Str.eqb id [] then (Throws (JS.lit "Peer ID tidak boleh kosong"), st)
  else
    change cfg me
      [JS.lit "/interface/wireguard/peers/remove"; JS.lit "=.id=" +++ id]
      outcomes reply st.

End MikrotikService.

(** [parts.join(sep)] *)
Fixpoint join (sep : JS.str) (parts : list JS.str) : JS.str :=
  match parts with
  | [] => []
  | [p] => p
  | p :: rest => p +++ sep +++ join sep rest
  end.

(** [resolveServer(raw)] of [server.js]: the server id, or the error
    thrown with its [status]. *)
Definition resolveServer (servers : list Config.Server) (raw : JS.str)
    : (Z * Error) + Z :=
  let id := parseInt (Some raw) 10 in
  let srv :=
    match id with
    | Some n => find (fun s => Config.id s =? n) servers
    | None => None
    end in
  match srv, id with
  | Some _, Some n => inr n
  | _, _ =>
    let available :=
      join (JS.lit ", ")
        (map (fun s => Number_toString (Config.id s) 10) servers) in
    inl (404, JS.lit "Server ID " +++ raw
              +++ JS.lit " tidak ditemukan. Server tersedia: " +++ available)
  end.

(** The sentence [getPeers] writes. *)
Definition printPeers (me : MikrotikService.t) : list JS.str :=
  [JS.lit "/interface/wireguard/peers/print";
   JS.lit "?interface=" +++ MikrotikService.wgInterface me].

(** What a request that changes the router leaves of the cache: without
    the entry of this server when it succeeded, as it was otherwise. *)
Definition cacheAfter (me : MikrotikService.t) (r : Result unit)
    (st st' : MikrotikService.State) : Prop :=
  match r with
  | Value _ =>
    MikrotikService.cache st'
    = delete (MikrotikService.cacheKey me) (MikrotikService.cache st)
  | _ => MikrotikService.cache st' = MikrotikService.cache st
  end.

(* ===================================================================== *)
(** ** Notions used in the statements on the codec and the connection *)
(* ===================================================================== *)

(** The payload bits the prefix chain keeps of a first byte are not
    negative. *)
Definition mask_table (b0 : Z) : bool :=
  (0 <=? JS.and b0 0x0f) && (0 <=? JS.shl (JS.and b0 0x1f) 16)
  && (0 <=? JS.shl (JS.and b0 0x3f) 8).

(** The byte count a first byte announces for its length prefix. *)
Definition tagWidth (b0 : Z) : nat :=
  if 0xf0 <=? b0 then 5
  else if 0xe0 <=? b0 then 4
  else if 0xc0 <=? b0 then 3
  else if 0x80 <=? b0 then 2
  else 1.

(** The reply to one request: sentences that are not terminal, then a
    terminal one; none is empty. *)
Definition isReply (g : list Sentence) : Prop :=
  exists rows type ws,
    g = rows ++ [type :: ws]
    /\ isTerminal type = true
    /\ Forall (fun r => match r with
                        | t :: _ => isTerminal t = false
                        | [] => False
                        end) rows.

(** How the data handler settles a request from the sentences
    accumulated for it, the last one being terminal. *)
Definition outcomeOf (acc : list Sentence) : Settlement :=
  match last acc with
  | Some (type :: _) =>
    if isFailure type
    then Rejected (messageOf (concat acc) (JS.lit "RouterOS error"))
    else Resolved (parseRows acc)
  | _ => Resolved (parseRows acc)
  end.

(** The attribute word [=key=value]. *)
Definition attributeWord (kv : JS.str * JS.str) : JS.str :=
  61 :: fst kv ++ 61 :: snd kv.

(** A key an attribute word can carry to a row: no [=] in it, and not
    [__proto__]. *)
Definition plainKey (k : JS.str) : Prop :=
  includes k 61 = false /\ k <> JS.lit "__proto__".

(** The sentence [sendLogin] writes. *)
Definition loginSentence (o : Options) : list JS.byte :=
  encodeSentence [JS.lit "/login"; JS.lit "=name=" +++ user o;
                  JS.lit "=password=" +++ password o].

(** A call of the [api] object. *)
Definition isCall (e : Event) : bool :=
  match e with
  | ApiWrite _ | ApiClose => true
  | _ => false
  end.

(** The promise of [rosConnect] has been resolved. *)
Definition resolved (s : Conn) : bool :=
  match login s with
  | Some LoginOk => true
  | _ => false
  end.

(** The runs a client can produce.  [api] leaves [rosConnect] through
    [resolve(api)] and nowhere else, so [write] and [close] are called
    only once the promise has been resolved; socket events come at any
    time. *)
Fixpoint clientRun (o : Options) (s : Conn) (events : list Event) : bool :=
  match events with
  | [] => true
  | e :: es =>
    (negb (isCall e) || resolved s) && clientRun o (handle o s e) es
  end.

(** What holds of a connection along the runs of a client. *)
Definition connInv (o : Options) (s : Conn) : Prop :=
  (loggedIn s = false ->
   queue s = [] /\ settled s = [] /\ writes s = 0%nat
   /\ Forall (fun bytes => bytes = loginSentence o) (sent s))
  /\ (login s = None -> destroyed s = false)
  /\ (loggedIn s = true -> login s <> None)
  /\ (login s = Some LoginOk -> loggedIn s = true).

(* ===================================================================== *)
(** ** Inputs of the further examples *)
(* ===================================================================== *)

(** A buffer with one complete sentence and the start of a word. *)
Definition partialBuffer : list JS.byte := [1; 97; 0; 2; 98].

(** A logged-in connection with two requests queued, and the reply to
    the first: one row, then [!done]. *)
Definition alphaReply : list Sentence := [alphaRow; [JS.lit "!done"]].

(** A logged-in connection with nothing queued. *)
Definition idle : Conn :=
  run demo [SockConnect; SockData (encodeSentence [JS.lit "!done"])] initial.

(** The attributes of an interface row; the key ends with [=]. *)
Definition interfaceRow : list (JS.str * JS.str) :=
  [(JS.lit "name", JS.lit "wireguard1");
   (JS.lit "public-key", JS.lit "hQ7yq0eAB3q1eQ2w8nq3J9Zy0j3Yk2m8o5r1t6u9xk8=")].

(** TLS with neither a fingerprint nor a CA certificate. *)
Definition unverified : Options :=
  {| host := JS.lit "10.0.0.1"; port := JS.lit "8729"; user := JS.lit "admin";
     password := JS.lit "secret"; useTls := true;
     caFingerprint := None; caCert := None |}.

(** The default prefixes of the first server. *)
Definition prefix4 : JS.str := JS.lit "10.10.0.".
Definition prefix6 : JS.str := JS.lit "fd00:10:0::".

(** An environment with two servers, and the variables of a third
    behind a gap. *)
Definition twoRouters : Config.Env :=
  {[ JS.lit "S0_HOST" := JS.lit "10.0.0.1";
     JS.lit "S0_USER" := JS.lit "admin";
     JS.lit "S0_PASSWORD" := JS.lit "secret";
     JS.lit "S1_HOST" := JS.lit "10.0.1.1";
     JS.lit "S1_USER" := JS.lit "admin";
     JS.lit "S1_PASSWORD" := JS.lit "secret";
     JS.lit "S1_PORT" := JS.lit "8728";
     JS.lit "S3_HOST" := JS.lit "10.0.3.1" ]}.

Definition twoServers : list Config.Server := builtBelow twoRouters 2.

(** The service of the first server, with its connection in the pool
    and a cache entry stored at time 1000. *)
Definition firstService : MikrotikService.t :=
  {| MikrotikService.base := demoService;
     MikrotikService.wgInterface := JS.lit "wireguard1";
     MikrotikService.cacheKey := JS.lit "peers_0" |}.

Definition connected : MikrotikService.State :=
  {| MikrotikService.pool := {[ JS.lit "srv_0" := 0%nat ]};
     MikrotikService.cache :=
       {[ JS.lit "peers_0" := {| MikrotikService.data := [];
                                 MikrotikService.ts := 1000 |} ]};
     MikrotikService.dials := 1;
     MikrotikService.written := [];
     MikrotikService.closed := [] |}.

(** A row as the router replies it for a peer added with the two
    addresses. *)
Definition addedRow : Row :=
  {[ JS.lit "allowed-address" := JS.lit "10.0.0.2/32,fd00::2/128" ]}.

(* ===================================================================== *)
(** * Properties *)
(* ===================================================================== *)

(** The decoder on a complete sentence followed by the start of a word. *)
Example decode_ex1 :
  decodePackets [1; 97; 0; 2; 98] = ([[JS.lit "a"]], [2; 98]).
Proof. vm_compute. reflexivity. Qed.

(** One turn of the inner loop of [decodePackets]. *)
Lemma decodeLoop_step buf i sentences sentence :
  decodeLoop buf i sentences sentence =
  if (length buf <=? i)%nat then (sentences, i)
  else match readPrefix buf i with
       | Incomplete => (sentences, i)
       | Prefix len skip =>
         if len =? 0 then decodeLoop buf (i + skip) (sentences ++ [sentence]) []
         else if Z.of_nat (length buf) <? Z.of_nat (i + skip) + len
              then (sentences, i)
              else decodeLoop buf (i + skip + Z.to_nat len) sentences
                     (sentence ++ [JS.utf8_decode
                        (JS.subarray buf (i + skip) (i + skip + Z.to_nat len))])
       end.
Proof.
  rewrite decodeLoop_equation_1.
  destruct (le_lt_dec (length buf) i) as [Hle|Hlt];
    destruct (Nat.leb_spec (length buf) i); try lia.
  - reflexivity.
  - simp decodeLoop. unfold inspect.
    match goal with
    | |- _ = match _ with Incomplete => ?a | Prefix len skip => @?b len skip end =>
      enough (forall p (e : readPrefix buf i = p),
                 decodeLoop_unfold_clause_1_clause_2 buf i (exist _ p e) Hlt
                   sentences sentence
                 = match p with Incomplete => a | Prefix len skip => b len skip end)
        as HH by apply (HH _ eq_refl)
    end.
    intros [|len skip] e; simp decodeLoop; [reflexivity |].
    destruct (Z.eq_dec len 0) as [->|Hne]; simp decodeLoop; [reflexivity |].
    destruct (Z.eqb_spec len 0); [contradiction |].
    destruct (Z_lt_dec _ _), (Z.ltb_spec (Z.of_nat (length buf))
                                (Z.of_nat (i + skip) + len));
      simp decodeLoop; try reflexivity; lia.
Qed.

(* ===================================================================== *)
(** ** Arithmetic of the JavaScript bit operators *)
(* ===================================================================== *)

(** A property of all numbers below [n], decided by running over them. *)
Lemma below_check (n : nat) (P : Z -> bool) :
  forallb P (map Z.of_nat (seq 0 n)) = true ->
  forall x, 0 <= x < Z.of_nat n -> P x = true.
Proof.
  intros H x Hx. rewrite forallb_forall in H. apply H.
  apply in_map_iff. exists (Z.to_nat x). split; [lia |].
  apply in_seq. lia.
Qed.

(** ToInt32 is the identity on the 32-bit signed range. *)
Lemma toInt32_small x : - 2 ^ 31 <= x < 2 ^ 31 -> JS.toInt32 x = x.
Proof.
  intros H. unfold JS.toInt32.
  rewrite Z.mod_small by lia. lia.
Qed.

Lemma toInt32_range x : - 2 ^ 31 <= JS.toInt32 x < 2 ^ 31.
Proof.
  unfold JS.toInt32.
  pose proof (Z.mod_pos_bound (x + 2 ^ 31) (2 ^ 32) ltac:(lia)). lia.
Qed.

(** [(len >> k) & (2^n - 1)] extracts [n] bits of an unsigned 32-bit
    [len], also when ToInt32 makes it negative. *)
Lemma and_shr_mask len k n :
  0 <= len < 2 ^ 32 -> 0 <= k -> 0 < n < 32 -> k + n <= 32 ->
  JS.and (JS.shr len k) (2 ^ n - 1) = (len / 2 ^ k) mod 2 ^ n.
Proof.
  intros Hlen Hk Hn Hkn. unfold JS.and, JS.shr.
  assert (Hpk : 0 < 2 ^ k) by (apply Z.pow_pos_nonneg; lia).
  assert (Hpn : 0 < 2 ^ n) by (apply Z.pow_pos_nonneg; lia).
  assert (Hm : 2 ^ n <= 2 ^ 31).
  { apply Z.pow_le_mono_r; lia. }
  rewrite (toInt32_small (2 ^ n - 1)) by lia.
  rewrite Z.shiftr_div_pow2 by lia.
  pose proof (toInt32_range len) as Hr.
  assert (Hq : - 2 ^ 31 <= JS.toInt32 len / 2 ^ k < 2 ^ 31).
  { clear Hm Hpn. remember (2 ^ k) as p eqn:Hp in *. clear Hp. split.
    - apply Z.div_le_lower_bound; [lia |]. nia.
    - apply Z.div_lt_upper_bound; [lia |]. nia. }
  rewrite toInt32_small by exact Hq.
  replace (2 ^ n - 1) with (Z.ones n) by (rewrite Z.ones_equiv; lia).
  rewrite Z.land_ones by lia.
  destruct (Z_lt_dec len (2 ^ 31)) as [Hs|Hs].
  - rewrite toInt32_small by lia. reflexivity.
  - assert (E : JS.toInt32 len = len + (- 2 ^ (32 - k)) * 2 ^ k).
    { unfold JS.toInt32.
      replace ((- 2 ^ (32 - k)) * 2 ^ k) with (- (2 ^ (32 - k) * 2 ^ k)) by lia.
      rewrite <- Z.pow_add_r by lia.
      replace (32 - k + k) with 32 by lia.
      replace (len + 2 ^ 31) with (len - 2 ^ 31 + 1 * 2 ^ 32) by lia.
      rewrite Z.mod_add by lia. rewrite Z.mod_small by lia. lia. }
    rewrite E. rewrite Z.div_add by lia.
    replace (- 2 ^ (32 - k)) with ((- 2 ^ (32 - k - n)) * 2 ^ n).
    + rewrite Z.mod_add by lia. reflexivity.
    + replace ((- 2 ^ (32 - k - n)) * 2 ^ n) with (- (2 ^ (32 - k - n) * 2 ^ n)) by lia.
      rewrite <- Z.pow_add_r by lia. f_equal. f_equal. lia.
Qed.

(** [len & (2^n - 1)] keeps the low [n] bits. *)
Lemma and_mask len n :
  0 <= len < 2 ^ 32 -> 0 < n < 32 ->
  JS.and len (2 ^ n - 1) = len mod 2 ^ n.
Proof.
  intros Hlen Hn.
  pose proof (and_shr_mask len 0 n Hlen ltac:(lia) ltac:(lia) ltac:(lia)) as H.
  unfold JS.shr in H. rewrite Z.shiftr_0_r in H.
  unfold JS.and in *.
  rewrite (toInt32_small (JS.toInt32 len)) in H by apply toInt32_range.
  rewrite H. rewrite Z.pow_0_r, Z.div_1_r. reflexivity.
Qed.


Lemma or_tag x :
  0 <= x < 64 ->
  JS.or x 0x80 = 0x80 + x /\
  (x < 32 -> JS.or x 0xc0 = 0xc0 + x) /\
  (x < 16 -> JS.or x 0xe0 = 0xe0 + x).
Proof.
  intros Hx.
  pose proof (below_check 64 or_table ltac:(vm_compute; reflexivity) x Hx) as H.
  unfold or_table in H.
  apply andb_true_iff in H as [H H3]. apply andb_true_iff in H as [H1 H2].
  apply Z.eqb_eq in H1.
  split; [exact H1 |]. split; intros Hlt.
  - destruct (Z.ltb_spec x 32); [| lia]. apply Z.eqb_eq. exact H2.
  - destruct (Z.ltb_spec x 16); [| lia]. apply Z.eqb_eq. exact H3.
Qed.


Lemma tag_table_ok b0 : JS.is_byte b0 -> tag_table b0 = true.
Proof.
  intros Hb. apply (below_check 256); [vm_compute; reflexivity | exact Hb].
Qed.

Ltac tag_facts b0 Hb :=
  let H := fresh "Htag" in
  pose proof (tag_table_ok b0 Hb) as H; unfold tag_table in H;
  repeat match type of H with
    | context [(?a <? ?b)] => destruct (Z.ltb_spec a b); [| exfalso; lia]
    | context [(?a <? ?b)] => destruct (Z.ltb_spec a b); [exfalso; lia |]
    | context [(?a <=? ?b)] => destruct (Z.leb_spec a b); [| exfalso; lia]
    | context [(?a <=? ?b)] => destruct (Z.leb_spec a b); [exfalso; lia |]
    end;
  cbn [implb andb] in H;
  repeat match goal with
    | H : (_ && _)%bool = true |- _ => apply andb_true_iff in H; destruct H
    | H : negb _ = true |- _ => apply negb_true_iff in H
    | H : (_ =? _) = true |- _ => apply Z.eqb_eq in H
    end.


(** The encoder computes the bytes of the table, for lengths of at most
    32 bits. *)
Lemma encodeLength_bytes len :
  0 <= len < 2 ^ 32 -> encodeLength len = prefixBytes len.
Proof.
  intros Hlen. unfold encodeLength, prefixBytes, JS.Buffer_from.
  pose proof (and_mask len 8 Hlen ltac:(lia)) as E0.
  pose proof (and_shr_mask len 8 8 Hlen ltac:(lia) ltac:(lia) ltac:(lia)) as E1.
  pose proof (and_shr_mask len 16 8 Hlen ltac:(lia) ltac:(lia) ltac:(lia)) as E2.
  pose proof (and_shr_mask len 24 8 Hlen ltac:(lia) ltac:(lia) ltac:(lia)) as E3.
  pose proof (and_shr_mask len 8 6 Hlen ltac:(lia) ltac:(lia) ltac:(lia)) as F1.
  pose proof (and_shr_mask len 16 5 Hlen ltac:(lia) ltac:(lia) ltac:(lia)) as F2.
  pose proof (and_shr_mask len 24 4 Hlen ltac:(lia) ltac:(lia) ltac:(lia)) as F3.
  change (2 ^ 8 - 1) with 0xff in *. change (2 ^ 6 - 1) with 0x3f in *.
  change (2 ^ 5 - 1) with 0x1f in *. change (2 ^ 4 - 1) with 0x0f in *.
  change (2 ^ 8) with 256 in *. change (2 ^ 16) with 65536 in *.
  change (2 ^ 24) with 16777216 in *. change (2 ^ 6) with 64 in *.
  change (2 ^ 5) with 32 in *. change (2 ^ 4) with 16 in *.
  rewrite E0, E1, E2, E3, F1, F2, F3.
  destruct (Z.ltb_spec len 0x80); [cbn [map]; f_equal; apply Z.mod_small; lia |].
  destruct (Z.ltb_spec len 0x4000).
  { destruct (or_tag ((len / 256) mod 64)) as [-> _];
      [apply Z.mod_pos_bound; lia |].
    cbn [map]. rewrite Z.mod_mod by lia.
    rewrite (Z.mod_small (len / 256) 64)
      by (split; [apply Z.div_pos; lia | apply Z.div_lt_upper_bound; lia]).
    rewrite (Z.mod_small (128 + _) 256); [reflexivity |].
    assert (0 <= len / 256 < 64)
      by (split; [apply Z.div_pos; lia | apply Z.div_lt_upper_bound; lia]).
    lia. }
  destruct (Z.ltb_spec len 0x200000).
  { assert (Hq : 0 <= len / 65536 < 32)
      by (split; [apply Z.div_pos; lia | apply Z.div_lt_upper_bound; lia]).
    rewrite (Z.mod_small (len / 65536) 32) by lia.
    destruct (or_tag (len / 65536) ltac:(lia)) as (_ & Hor & _).
    rewrite Hor by lia.
    cbn [map]. rewrite !Z.mod_mod by lia.
    rewrite (Z.mod_small (192 + _) 256) by lia. reflexivity. }
  destruct (Z.ltb_spec len 0x10000000).
  { assert (Hq : 0 <= len / 16777216 < 16)
      by (split; [apply Z.div_pos; lia | apply Z.div_lt_upper_bound; lia]).
    rewrite (Z.mod_small (len / 16777216) 16) by lia.
    destruct (or_tag (len / 16777216) ltac:(lia)) as (_ & _ & Hor).
    rewrite Hor by lia.
    cbn [map]. rewrite !Z.mod_mod by lia.
    rewrite (Z.mod_small (224 + _) 256) by lia. reflexivity. }
  cbn [map]. rewrite !Z.mod_mod by lia. reflexivity.
Qed.

Lemma at_app pre l k : JS.at_ (pre ++ l) (length pre + k) = nth k l 0.
Proof. unfold JS.at_. rewrite app_nth2_plus. reflexivity. Qed.

Lemma at_app0 pre l : JS.at_ (pre ++ l) (length pre) = nth 0 l 0.
Proof. rewrite <- (at_app pre l 0). f_equal. lia. Qed.

Lemma div_bounds a b q : 0 < b -> 0 <= a < b * q -> 0 <= a / b < q.
Proof.
  intros Hb Ha. split; [apply Z.div_pos; lia | apply Z.div_lt_upper_bound; lia].
Qed.

(** A length is the big-endian number of its bytes. *)
Lemma bytes_of_len len :
  len = len / 256 * 256 + len mod 256 /\
  len = len / 65536 * 65536 + (len / 256) mod 256 * 256 + len mod 256 /\
  len = len / 16777216 * 16777216 + (len / 65536) mod 256 * 65536
        + (len / 256) mod 256 * 256 + len mod 256.
Proof.
  pose proof (Z.div_mod len 256 ltac:(lia)) as E0.
  pose proof (Z.div_mod (len / 256) 256 ltac:(lia)) as E1.
  pose proof (Z.div_mod (len / 256 / 256) 256 ltac:(lia)) as E2.
  rewrite !Z.div_div in * by lia.
  change (256 * 256) with 65536 in *. change (65536 * 256) with 16777216 in *.
  revert E0 E1 E2.
  generalize (len / 16777216) ((len / 65536) mod 256) (len / 65536)
             ((len / 256) mod 256) (len / 256) (len mod 256).
  intros. lia.
Qed.

Lemma shl_byte b :
  JS.is_byte b -> JS.shl b 8 = b * 256 /\ JS.shl b 16 = b * 65536.
Proof. intros Hb. tag_facts b Hb. split; assumption. Qed.

Lemma tag_1 b :
  0 <= b < 0x80 ->
  (JS.and b 0xf0 =? 0xf0) = false /\ (JS.and b 0xe0 =? 0xe0) = false /\
  (JS.and b 0xc0 =? 0xc0) = false /\ (JS.and b 0x80 =? 0x80) = false.
Proof.
  intros H. assert (Hb : JS.is_byte b) by (unfold JS.is_byte; lia).
  tag_facts b Hb. repeat split; assumption.
Qed.

Lemma tag_2 b :
  0x80 <= b < 0xc0 ->
  (JS.and b 0xf0 =? 0xf0) = false /\ (JS.and b 0xe0 =? 0xe0) = false /\
  (JS.and b 0xc0 =? 0xc0) = false /\ (JS.and b 0x80 =? 0x80) = true /\
  JS.shl (JS.and b 0x3f) 8 = (b - 0x80) * 256.
Proof.
  intros H. assert (Hb : JS.is_byte b) by (unfold JS.is_byte; lia).
  tag_facts b Hb. repeat split; try assumption. apply Z.eqb_eq. assumption.
Qed.

Lemma tag_3 b :
  0xc0 <= b < 0xe0 ->
  (JS.and b 0xf0 =? 0xf0) = false /\ (JS.and b 0xe0 =? 0xe0) = false /\
  (JS.and b 0xc0 =? 0xc0) = true /\
  JS.shl (JS.and b 0x1f) 16 = (b - 0xc0) * 65536.
Proof.
  intros H. assert (Hb : JS.is_byte b) by (unfold JS.is_byte; lia).
  tag_facts b Hb. repeat split; try assumption. apply Z.eqb_eq. assumption.
Qed.

Lemma tag_4 b :
  0xe0 <= b < 0xf0 ->
  (JS.and b 0xf0 =? 0xf0) = false /\ (JS.and b 0xe0 =? 0xe0) = true /\
  JS.and b 0x0f = b - 0xe0.
Proof.
  intros H. assert (Hb : JS.is_byte b) by (unfold JS.is_byte; lia).
  tag_facts b Hb. repeat split; try assumption. apply Z.eqb_eq. assumption.
Qed.

Lemma tag_5 b : 0xf0 <= b < 0x100 -> (JS.and b 0xf0 =? 0xf0) = true.
Proof.
  intros H. assert (Hb : JS.is_byte b) by (unfold JS.is_byte; lia).
  tag_facts b Hb. apply Z.eqb_eq. assumption.
Qed.

Lemma ltb_room (n k m : nat) : (k <= m)%nat -> (n + m <? n + k)%nat = false.
Proof. intros H. apply Nat.ltb_ge. lia. Qed.

Lemma readPrefix_1 pre b0 post :
  0 <= b0 < 0x80 ->
  readPrefix (pre ++ b0 :: post) (length pre) = Prefix b0 1.
Proof.
  intros H0. unfold readPrefix. rewrite !at_app0, ?at_app, length_app.
  cbn [nth length].
  destruct (tag_1 b0 H0) as (-> & -> & -> & ->). reflexivity.
Qed.

Lemma readPrefix_2 pre b0 b1 post :
  0x80 <= b0 < 0xc0 ->
  readPrefix (pre ++ b0 :: b1 :: post) (length pre)
  = Prefix ((b0 - 0x80) * 256 + b1) 2.
Proof.
  intros H0. unfold readPrefix. rewrite !at_app0, ?at_app, length_app.
  cbn [nth length].
  destruct (tag_2 b0 H0) as (-> & -> & -> & -> & ->). cbv iota.
  rewrite ltb_room by lia. reflexivity.
Qed.

Lemma readPrefix_3 pre b0 b1 b2 post :
  0xc0 <= b0 < 0xe0 -> JS.is_byte b1 ->
  readPrefix (pre ++ b0 :: b1 :: b2 :: post) (length pre)
  = Prefix ((b0 - 0xc0) * 65536 + b1 * 256 + b2) 3.
Proof.
  intros H0 H1. unfold readPrefix. rewrite !at_app0, ?at_app, length_app.
  cbn [nth length].
  destruct (tag_3 b0 H0) as (-> & -> & -> & ->). cbv iota.
  rewrite ltb_room by lia.
  destruct (shl_byte b1 H1) as [-> _]. reflexivity.
Qed.

Lemma readPrefix_4 pre b0 b1 b2 b3 post :
  0xe0 <= b0 < 0xf0 -> JS.is_byte b1 -> JS.is_byte b2 ->
  readPrefix (pre ++ b0 :: b1 :: b2 :: b3 :: post) (length pre)
  = Prefix ((b0 - 0xe0) * 16777216 + b1 * 65536 + b2 * 256 + b3) 4.
Proof.
  intros H0 H1 H2. unfold readPrefix. rewrite !at_app0, ?at_app, length_app.
  cbn [nth length].
  destruct (tag_4 b0 H0) as (-> & -> & ->). cbv iota.
  rewrite ltb_room by lia.
  destruct (shl_byte b1 H1) as [_ ->]. destruct (shl_byte b2 H2) as [-> _].
  reflexivity.
Qed.

Lemma readPrefix_5 pre b0 b1 b2 b3 b4 post :
  0xf0 <= b0 < 0x100 -> JS.is_byte b2 -> JS.is_byte b3 ->
  readPrefix (pre ++ b0 :: b1 :: b2 :: b3 :: b4 :: post) (length pre)
  = Prefix (b1 * 16777216 + b2 * 65536 + b3 * 256 + b4) 5.
Proof.
  intros H0 H2 H3. unfold readPrefix. rewrite !at_app0, ?at_app, length_app.
  cbn [nth length].
  rewrite (tag_5 b0 H0). cbv iota. rewrite ltb_room by lia.
  destruct (shl_byte b2 H2) as [_ ->]. destruct (shl_byte b3 H3) as [-> _].
  reflexivity.
Qed.

(** The prefix block of the decoder reads back the length and the byte
    count of an encoded prefix, wherever it stands in the buffer. *)
Lemma readPrefix_prefixBytes pre len post :
  0 <= len < 2 ^ 32 ->
  readPrefix (pre ++ prefixBytes len ++ post) (length pre)
  = Prefix len (length (prefixBytes len)).
Proof.
  intros Hlen. unfold prefixBytes.
  pose proof (Z.mod_pos_bound len 256 ltac:(lia)) as M0.
  pose proof (Z.mod_pos_bound (len / 256) 256 ltac:(lia)) as M1.
  pose proof (Z.mod_pos_bound (len / 65536) 256 ltac:(lia)) as M2.
  destruct (bytes_of_len len) as (B2 & B3 & B4).
  destruct (Z.ltb_spec len 0x80); [apply readPrefix_1; lia |].
  destruct (Z.ltb_spec len 0x4000).
  { pose proof (div_bounds len 256 64 ltac:(lia) ltac:(lia)) as Q.
    cbn [app length]. rewrite readPrefix_2 by (clear - Q; lia).
    f_equal. clear - B2. lia. }
  destruct (Z.ltb_spec len 0x200000).
  { pose proof (div_bounds len 65536 32 ltac:(lia) ltac:(lia)) as Q.
    cbn [app length]. rewrite readPrefix_3 by (assumption || (clear - Q; lia)).
    f_equal. clear - B3. lia. }
  destruct (Z.ltb_spec len 0x10000000).
  { pose proof (div_bounds len 16777216 16 ltac:(lia) ltac:(lia)) as Q.
    cbn [app length]. rewrite readPrefix_4 by (assumption || (clear - Q; lia)).
    f_equal. clear - B4. lia. }
  pose proof (div_bounds len 16777216 256 ltac:(lia) ltac:(lia)) as Q.
  cbn [app length]. rewrite readPrefix_5 by (assumption || lia).
  rewrite (Z.mod_small (len / 16777216) 256) by exact Q.
  f_equal. clear - B4. lia.
Qed.

(* ===================================================================== *)
(** ** UTF-8 round trip *)
(* ===================================================================== *)

Ltac zcmp :=
  repeat match goal with
         | |- context [(?a <=? ?b)] =>
           destruct (Z.leb_spec a b); try (exfalso; lia)
         | |- context [(?a <? ?b)] =>
           destruct (Z.ltb_spec a b); try (exfalso; lia)
         | |- context [(?a =? ?b)] =>
           destruct (Z.eqb_spec a b); try (exfalso; lia)
         end.


Lemma decode_1 cp more :
  0 <= cp < 0x80 ->
  JS.utf8_decode_from JS.Idle (cp :: more)
  = cp :: JS.utf8_decode_from JS.Idle more.
Proof.
  intros H. cbn [JS.utf8_decode_from JS.dstep]. unfold JS.lead.
  zcmp. reflexivity.
Qed.

Lemma decode_2 q r more :
  2 <= q < 32 -> 0 <= r < 64 ->
  JS.utf8_decode_from JS.Idle (0xC0 + q :: 0x80 + r :: more)
  = JS.units (q * 64 + r) ++ JS.utf8_decode_from JS.Idle more.
Proof.
  intros Hq Hr. cbn [JS.utf8_decode_from JS.dstep]. unfold JS.lead.
  zcmp. cbn [andb app JS.utf8_decode_from JS.dstep].
  zcmp. cbn [andb app].
  replace ((192 + q) mod 32) with q by (clear - Hq; Z.div_mod_to_equations; lia).
  replace ((128 + r) mod 64) with r by (clear - Hr; Z.div_mod_to_equations; lia).
  reflexivity.
Qed.

Lemma decode_3 a b c more :
  0 <= a < 16 -> 0 <= b < 64 -> 0 <= c < 64 ->
  (a = 0 -> 32 <= b) -> (a = 13 -> b < 32) ->
  JS.utf8_decode_from JS.Idle (0xE0 + a :: 0x80 + b :: 0x80 + c :: more)
  = JS.units ((a * 64 + b) * 64 + c) ++ JS.utf8_decode_from JS.Idle more.
Proof.
  intros Ha Hb Hc H0 H13. cbn [JS.utf8_decode_from JS.dstep]. unfold JS.lead.
  zcmp; cbn [andb app JS.utf8_decode_from JS.dstep];
    zcmp; cbn [andb app JS.utf8_decode_from JS.dstep];
    zcmp; cbn [andb app];
    replace ((224 + a) mod 16) with a by (clear - Ha; Z.div_mod_to_equations; lia);
    replace ((128 + b) mod 64) with b by (clear - Hb; Z.div_mod_to_equations; lia);
    replace ((128 + c) mod 64) with c by (clear - Hc; Z.div_mod_to_equations; lia);
    reflexivity.
Qed.

Lemma decode_4 a b c d more :
  0 <= a < 5 -> 0 <= b < 64 -> 0 <= c < 64 -> 0 <= d < 64 ->
  (a = 0 -> 16 <= b) -> (a = 4 -> b < 16) ->
  JS.utf8_decode_from JS.Idle
    (0xF0 + a :: 0x80 + b :: 0x80 + c :: 0x80 + d :: more)
  = JS.units (((a * 64 + b) * 64 + c) * 64 + d)
    ++ JS.utf8_decode_from JS.Idle more.
Proof.
  intros Ha Hb Hc Hd H0 H4. cbn [JS.utf8_decode_from JS.dstep]. unfold JS.lead.
  zcmp; cbn [andb app JS.utf8_decode_from JS.dstep];
    zcmp; cbn [andb app JS.utf8_decode_from JS.dstep];
    zcmp; cbn [andb app JS.utf8_decode_from JS.dstep];
    zcmp; cbn [andb app];
    replace ((240 + a) mod 8) with a by (clear - Ha; Z.div_mod_to_equations; lia);
    replace ((128 + b) mod 64) with b by (clear - Hb; Z.div_mod_to_equations; lia);
    replace ((128 + c) mod 64) with c by (clear - Hc; Z.div_mod_to_equations; lia);
    replace ((128 + d) mod 64) with d by (clear - Hd; Z.div_mod_to_equations; lia);
    reflexivity.
Qed.

(** The decoder reads back one encoded scalar value. *)
Lemma decode_bytes cp more :
  scalar cp ->
  JS.utf8_decode_from JS.Idle (JS.utf8_bytes cp ++ more)
  = JS.units cp ++ JS.utf8_decode_from JS.Idle more.
Proof.
  intros [Hr Hs]. unfold JS.utf8_bytes.
  pose proof (Z.div_mod cp 64 ltac:(lia)) as E0.
  pose proof (Z.mod_pos_bound cp 64 ltac:(lia)) as M0.
  pose proof (Z.div_mod (cp / 64) 64 ltac:(lia)) as E1.
  pose proof (Z.mod_pos_bound (cp / 64) 64 ltac:(lia)) as M1.
  pose proof (Z.div_mod (cp / 64 / 64) 64 ltac:(lia)) as E2.
  pose proof (Z.mod_pos_bound (cp / 64 / 64) 64 ltac:(lia)) as M2.
  rewrite !Z.div_div in * by lia.
  change (64 * 64) with 4096 in *. change (4096 * 64) with 262144 in *.
  destruct (Z.ltb_spec cp 0x80).
  { cbn [app]. rewrite decode_1 by lia. unfold JS.units.
    destruct (Z.ltb_spec cp 0x10000); [reflexivity | lia]. }
  destruct (Z.ltb_spec cp 0x800).
  { cbn [app]. rewrite decode_2 by (clear - E0 M0 H H0; lia).
    do 2 f_equal. clear - E0. lia. }
  destruct (Z.ltb_spec cp 0x10000).
  { cbn [app]. rewrite decode_3; [do 2 f_equal | ..];
      clear - E0 E1 M0 M1 H0 H1 Hs; lia. }
  cbn [app]. rewrite decode_4; [do 2 f_equal | ..];
    clear - E0 E1 E2 M0 M1 M2 H1 Hr; lia.
Qed.

Lemma units_bmp u : 0 <= u < 0x10000 -> JS.units u = [u].
Proof.
  intros H. unfold JS.units. destruct (Z.ltb_spec u 0x10000); [reflexivity | lia].
Qed.

Lemma units_pair u v :
  JS.is_high u = true -> JS.is_low v = true ->
  scalar (0x10000 + (u - 0xD800) * 0x400 + (v - 0xDC00)) /\
  JS.units (0x10000 + (u - 0xD800) * 0x400 + (v - 0xDC00)) = [u; v].
Proof.
  unfold JS.is_high, JS.is_low, scalar. intros Hu Hv.
  apply andb_true_iff in Hu as [Hu1 Hu2]. apply andb_true_iff in Hv as [Hv1 Hv2].
  apply Z.leb_le in Hu1, Hu2, Hv1, Hv2.
  split; [lia |]. unfold JS.units.
  destruct (Z.ltb_spec (0x10000 + (u - 0xD800) * 0x400 + (v - 0xDC00)) 0x10000);
    [lia |].
  f_equal; [| f_equal]; Z.div_mod_to_equations; lia.
Qed.

(** Decoding the encoding of valid text gives the text back; what
    follows is decoded from the initial state. *)
Lemma utf8_roundtrip_app s : forall more,
  JS.well_formed s = true ->
  JS.utf8_decode_from JS.Idle (JS.utf8_encode s ++ more)
  = s ++ JS.utf8_decode_from JS.Idle more.
Proof.
  remember (length s) as n eqn:Hn.
  revert s Hn. induction n as [n IH] using lt_wf_ind.
  intros [|u rest] Hn more Hwf; [reflexivity |].
  cbn [JS.utf8_encode JS.well_formed] in *.
  destruct (JS.is_high u) eqn:Hhigh.
  - destruct rest as [|v rest']; [discriminate |].
    apply andb_true_iff in Hwf as [Hlow Hwf]. rewrite Hlow.
    destruct (units_pair u v Hhigh Hlow) as [Hsc Hun].
    rewrite <- app_assoc, decode_bytes by exact Hsc.
    rewrite Hun. cbn [app]. do 2 f_equal.
    apply (IH (length rest')); [cbn [length] in Hn; lia | reflexivity | exact Hwf].
  - apply andb_true_iff in Hwf as [Hwf Hrest].
    apply andb_true_iff in Hwf as [Hwf Hlow].
    apply andb_true_iff in Hwf as [H0 H1].
    apply Z.leb_le in H0. apply Z.ltb_lt in H1.
    apply negb_true_iff in Hlow. rewrite Hlow.
    assert (Hsc : scalar u).
    { unfold scalar, JS.is_high, JS.is_low in *. split; [lia |]. intros Hsur.
      destruct (Z.leb_spec 0xD800 u), (Z.leb_spec u 0xDBFF),
               (Z.leb_spec 0xDC00 u), (Z.leb_spec u 0xDFFF);
        cbn in Hhigh, Hlow; try discriminate; lia. }
    rewrite <- app_assoc, decode_bytes by exact Hsc.
    rewrite units_bmp by lia.
    cbn [app]. f_equal.
    apply (IH (length rest)); [cbn [length] in Hn; lia | reflexivity | exact Hrest].
Qed.

Lemma utf8_roundtrip s :
  JS.well_formed s = true -> JS.utf8_decode (JS.utf8_encode s) = s.
Proof.
  intros H. unfold JS.utf8_decode.
  rewrite <- (app_nil_r (JS.utf8_encode s)), utf8_roundtrip_app by exact H.
  cbn. apply app_nil_r.
Qed.


Lemma utf8_bytes_nonempty cp : JS.utf8_bytes cp <> [].
Proof.
  unfold JS.utf8_bytes.
  destruct (cp <? 0x80), (cp <? 0x800), (cp <? 0x10000); discriminate.
Qed.

Lemma utf8_encode_nonempty w : w <> [] -> JS.utf8_encode w <> [].
Proof.
  destruct w as [|u rest]; [contradiction |]. intros _.
  cbn [JS.utf8_encode].
  destruct (JS.is_high u).
  - destruct rest as [|v rest']; [discriminate |].
    destruct (JS.is_low v); [| discriminate].
    intros H. apply app_eq_nil in H as [H _]. exact (utf8_bytes_nonempty _ H).
  - destruct (JS.is_low u); [discriminate |].
    intros H. apply app_eq_nil in H as [H _]. exact (utf8_bytes_nonempty _ H).
Qed.

Lemma subarray_app pre mid post :
  JS.subarray (pre ++ mid ++ post) (length pre) (length pre + length mid) = mid.
Proof.
  unfold JS.subarray.
  replace (length pre + length mid - length pre)%nat with (length mid) by lia.
  rewrite drop_app_length, take_app_length. reflexivity.
Qed.

(** The inner loop consumes one encoded word and appends it to the
    current sentence. *)
Lemma decodeLoop_word pre w post sentences sentence :
  wire_word w ->
  decodeLoop (pre ++ encodeWord w ++ post) (length pre) sentences sentence
  = decodeLoop (pre ++ encodeWord w ++ post)
      (length pre + length (encodeWord w)) sentences (sentence ++ [w]).
Proof.
  intros (Hwf & Hne & Hlen).
  rewrite decodeLoop_step. unfold encodeWord.
  pose proof (utf8_encode_nonempty w Hne) as Hb.
  assert (Hpos : (0 < length (JS.utf8_encode w))%nat)
    by (destruct (JS.utf8_encode w); [contradiction | cbn; lia]).
  rewrite encodeLength_bytes by lia.
  rewrite <- !app_assoc.
  rewrite readPrefix_prefixBytes by lia.
  rewrite Nat2Z.id, <- (length_app pre), (app_assoc pre), subarray_app.
  rewrite utf8_roundtrip by exact Hwf.
  rewrite <- (app_assoc pre), !length_app.
  generalize (length (prefixBytes (Z.of_nat (length (JS.utf8_encode w))))).
  intros k.
  match goal with
  | |- context [(?a <=? ?b)%nat] => destruct (Nat.leb_spec a b); [lia |]
  end.
  match goal with
  | |- context [?a =? ?b] => destruct (Z.eqb_spec a b); [lia |]
  end.
  match goal with
  | |- context [?a <? ?b] => destruct (Z.ltb_spec a b); [lia |]
  end.
  f_equal. lia.
Qed.

(** The inner loop consumes a terminator and closes the sentence. *)
Lemma decodeLoop_nul pre post sentences sentence :
  decodeLoop (pre ++ 0 :: post) (length pre) sentences sentence
  = decodeLoop (pre ++ 0 :: post) (length pre + 1) (sentences ++ [sentence]) [].
Proof.
  rewrite decodeLoop_step, readPrefix_1 by lia.
  rewrite length_app. cbn [length].
  match goal with
  | |- context [(?a <=? ?b)%nat] => destruct (Nat.leb_spec a b); [lia |]
  end.
  reflexivity.
Qed.

Lemma encodeSentence_cons w ws :
  encodeSentence (w :: ws) = encodeWord w ++ encodeSentence ws.
Proof. unfold encodeSentence. cbn [map app concat]. reflexivity. Qed.

Lemma encodeSentence_nil : encodeSentence [] = [0].
Proof. reflexivity. Qed.

Lemma decodeLoop_sentence ws : forall pre post sentences sentence,
  Forall wire_word ws ->
  decodeLoop (pre ++ encodeSentence ws ++ post) (length pre) sentences sentence
  = decodeLoop (pre ++ encodeSentence ws ++ post)
      (length pre + length (encodeSentence ws))
      (sentences ++ [sentence ++ ws]) [].
Proof.
  induction ws as [|w ws IH]; intros pre post sentences sentence Hws.
  - rewrite encodeSentence_nil, app_nil_r. cbn [app length].
    apply decodeLoop_nul.
  - inversion Hws as [|? ? Hw Hws']; subst.
    rewrite encodeSentence_cons, <- app_assoc.
    rewrite decodeLoop_word by exact Hw.
    rewrite <- length_app, (app_assoc pre).
    rewrite IH by exact Hws'.
    rewrite <- (app_assoc sentence). cbn [app].
    f_equal. rewrite !length_app. lia.
Qed.

Lemma decodeLoop_sentences ss : forall pre post sentences,
  Forall (Forall wire_word) ss ->
  decodeLoop (pre ++ concat (map encodeSentence ss) ++ post) (length pre)
    sentences []
  = decodeLoop (pre ++ concat (map encodeSentence ss) ++ post)
      (length pre + length (concat (map encodeSentence ss)))
      (sentences ++ ss) [].
Proof.
  induction ss as [|s ss IH]; intros pre post sentences Hss.
  - cbn [map concat app length]. rewrite app_nil_r. f_equal. lia.
  - inversion Hss as [|? ? Hs Hss']; subst.
    cbn [map concat]. rewrite <- app_assoc.
    rewrite decodeLoop_sentence by exact Hs.
    rewrite <- length_app, (app_assoc pre).
    rewrite IH by exact Hss'.
    rewrite <- (app_assoc sentences). cbn [app].
    f_equal. rewrite !length_app. lia.
Qed.

Lemma decodeLoop_end buf sentences sentence :
  decodeLoop buf (length buf) sentences sentence = (sentences, length buf).
Proof.
  rewrite decodeLoop_step. rewrite Nat.leb_refl. reflexivity.
Qed.

(** Whole sentences in one buffer decode to themselves, with no
    remainder. *)
Lemma decodePackets_sentences ss :
  Forall (Forall wire_word) ss ->
  decodePackets (concat (map encodeSentence ss)) = (ss, []).
Proof.
  intros Hss. unfold decodePackets.
  pose proof (decodeLoop_sentences ss [] [] [] Hss) as H.
  cbn [app length] in H. rewrite app_nil_r in H. rewrite H.
  cbn [Nat.add]. rewrite decodeLoop_end.
  rewrite drop_all. reflexivity.
Qed.

(* ===================================================================== *)
(** ** The request queue is first in, first out *)
(* ===================================================================== *)

Ltac fields :=
  cbn [buf loggedIn destroyed queue settled login sent sockDestroyed
       onCloseCalls writes sockWrite caller accumulator] in *.

Lemma fifo_initial : fifo initial.
Proof. split; [reflexivity | discriminate]. Qed.

Lemma fifo_ext s s' :
  settled s' = settled s -> queue s' = queue s -> writes s' = writes s ->
  destroyed s' = destroyed s -> fifo s -> fifo s'.
Proof. unfold fifo. intros -> -> -> ->. tauto. Qed.

Lemma fifo_settleLogin r s : fifo s -> fifo (settleLogin r s).
Proof. unfold settleLogin. destruct (login s); intros H; exact H. Qed.

Lemma fifo_destroyAll err s : fifo s -> fifo (destroyAll err s).
Proof.
  unfold destroyAll. destruct (destroyed s) eqn:Hd; [tauto |].
  intros [H _]. split; cbn; [| reflexivity].
  rewrite map_app, map_map. cbn. rewrite app_nil_r.
  rewrite <- H. f_equal. 
Qed.

(** Every handler keeps the queue invariant. *)
Lemma fifo_handleSentence s sentence : fifo s -> fifo (handleSentence s sentence).
Proof.
  intros Hs. unfold handleSentence.
  destruct sentence as [|type ws]; [exact Hs |].
  destruct (loggedIn s); cbn [negb].
  - destruct (queue s) as [|current rest] eqn:Hq; [exact Hs |].
    destruct Hs as [H Hd]. rewrite Hq in H, Hd.
    destruct (isTerminal type); split; cbn.
    + rewrite map_app, <- app_assoc. exact H.
    + intros Hx. specialize (Hd Hx). discriminate.
    + exact H.
    + intros Hx. specialize (Hd Hx). discriminate.
  - destruct (Str.eqb type (JS.lit "!done")).
    + apply fifo_settleLogin. exact Hs.
    + destruct (isFailure type); [| exact Hs].
      apply fifo_destroyAll, fifo_settleLogin, Hs.
Qed.

Lemma fifo_fold sentences : forall s,
  fifo s -> fifo (fold_left handleSentence sentences s).
Proof.
  induction sentences as [|x xs IH]; intros s Hs; [exact Hs |].
  cbn. apply IH, fifo_handleSentence, Hs.
Qed.

Lemma fifo_onData chunk s : fifo s -> fifo (onData chunk s).
Proof.
  intros Hs. unfold onData.
  destruct (decodePackets (buf s ++ chunk)) as [sentences remaining].
  apply fifo_fold. exact Hs.
Qed.

Lemma fifo_write words s : fifo s -> fifo (write words s).
Proof.
  intros [H Hd]. unfold write. destruct (destroyed s) eqn:E; split; fields.
  - rewrite (Hd eq_refl) in *. cbn [map app] in *. rewrite app_nil_r in *.
    rewrite map_app, H, seq_S. reflexivity.
  - intros _. apply Hd. reflexivity.
  - rewrite map_app, app_assoc, H, seq_S. reflexivity.
  - discriminate.
Qed.

Lemma fifo_handle o s e : fifo s -> fifo (handle o s e).
Proof.
  intros Hs. destruct e; cbn.
  - destruct (useTls o); exact Hs.
  - destruct (useTls o); exact Hs.
  - apply fifo_onData, Hs.
  - unfold onTimeout. apply fifo_destroyAll.
    destruct (negb (loggedIn s)); [apply fifo_settleLogin |]; exact Hs.
  - unfold onError. destruct (negb (loggedIn s));
      [apply fifo_settleLogin | apply fifo_destroyAll]; exact Hs.
  - unfold onClose. cbn.
    destruct (queue s) eqn:Hq.
    + destruct Hs as [H Hd]. split; cbn; [rewrite Hq in *; exact H | reflexivity].
    + apply fifo_destroyAll. revert Hs. apply fifo_ext; auto.
  - apply fifo_write, Hs.
  - apply fifo_destroyAll, Hs.
Qed.

Lemma fifo_run o events : forall s, fifo s -> fifo (run o events s).
Proof.
  induction events as [|e es IH]; intros s Hs; [exact Hs |].
  cbn. apply IH, fifo_handle, Hs.
Qed.

(** Under the queue invariant the [k]-th promise settled belongs to the
    [k]-th call of [write], and the queue holds the calls that follow. *)
Lemma fifo_positions s :
  fifo s ->
  map fst (settled s) = seq 0 (length (settled s))
  /\ map caller (queue s) = seq (length (settled s)) (length (queue s)).
Proof.
  intros [H _].
  assert (Hlen : (length (settled s) + length (queue s))%nat = writes s).
  { apply (f_equal (@length nat)) in H.
    rewrite length_app, !length_map, length_seq in H. exact H. }
  rewrite <- Hlen, seq_app in H. cbn [Nat.add] in H.
  apply app_inj_1 in H; [exact H |].
  rewrite length_map, length_seq. reflexivity.
Qed.

(* ===================================================================== *)
(** ** The codec round trip and the reassembler *)
(* ===================================================================== *)

Lemma prefixBytes_width len : length (prefixBytes len) = prefixWidth len.
Proof.
  unfold prefixBytes, prefixWidth.
  destruct (len <? 0x80), (len <? 0x4000), (len <? 0x200000),
           (len <? 0x10000000); reflexivity.
Qed.

Lemma decodeLoop_zero buf i skip sentences sentence :
  (i < length buf)%nat -> readPrefix buf i = Prefix 0 skip ->
  decodeLoop buf i sentences sentence
  = decodeLoop buf (i + skip) (sentences ++ [sentence]) [].
Proof.
  intros Hi Hp. rewrite decodeLoop_step, Hp.
  destruct (Nat.leb_spec (length buf) i); [lia | reflexivity].
Qed.

Lemma decodePackets_sentence S :
  Forall wire_word S -> decodePackets (encodeSentence S) = ([S], []).
Proof.
  intros HS.
  assert (HSS : Forall (Forall wire_word) [S])
    by (constructor; [exact HS | constructor]).
  pose proof (decodePackets_sentences [S] HSS) as H.
  cbn [map concat] in H. rewrite app_nil_r in H. exact H.
Qed.

(** C3, as stated, fails: the empty string is valid UTF-8, its encoding
    is the terminator byte, and the sentence [[""]] decodes to two empty
    sentences.  The length prefix has 32 bits of payload and the bit
    operators of the encoder work on 32 bits: the length 2^32 is encoded
    as the length 0. *)
Lemma C3_round_trip_counterexample :
  ~ (forall S : Sentence,
       Forall (fun w => JS.well_formed w = true) S ->
       decodePackets (encodeSentence S) = ([S], []))
  /\ ~ (forall L,
          0x10000000 <= L ->
          readPrefix (encodeLength L) 0 = Prefix L (length (encodeLength L))).
Proof.
  split; intros H.
  - specialize (H [[]] ltac:(repeat constructor)).
    vm_compute in H. discriminate H.
  - specialize (H (2 ^ 32) ltac:(lia)).
    vm_compute in H. discriminate H.
Qed.

(** C3 (amended): a sentence whose words are non-empty valid UTF-8 strings
    of fewer than 2^32 bytes decodes to itself with nothing left over; a
    length below 2^32 is read back from its prefix, whose byte count is
    that of the table (1, 1, 2, 2, 3, 3, 4, 4, 5 at the boundaries); and
    a prefix of length zero always closes the current sentence without
    adding a word. *)
Theorem C3_codec_round_trip :
  (forall S : Sentence,
      Forall wire_word S -> decodePackets (encodeSentence S) = ([S], []))
  /\ (forall L post,
        0 <= L < 2 ^ 32 ->
        readPrefix (encodeLength L ++ post) 0
        = Prefix L (length (encodeLength L))
        /\ length (encodeLength L) = prefixWidth L)
  /\ map (fun L => length (encodeLength L))
         [0; 0x7F; 0x80; 0x3FFF; 0x4000; 0x1FFFFF; 0x200000; 0xFFFFFFF;
          0x10000000; 0xFFFFFFFF]
     = [1; 1; 2; 2; 3; 3; 4; 4; 5; 5]%nat
  /\ (forall buf i skip sentences sentence,
        (i < length buf)%nat -> readPrefix buf i = Prefix 0 skip ->
        decodeLoop buf i sentences sentence
        = decodeLoop buf (i + skip) (sentences ++ [sentence]) []).
Proof.
  split; [exact decodePackets_sentence |].
  split; [| split; [reflexivity | exact decodeLoop_zero]].
  intros L post HL. rewrite encodeLength_bytes by exact HL.
  split; [| apply prefixBytes_width].
  exact (readPrefix_prefixBytes [] L post HL).
Qed.

Lemma wire_word_login : wire_word (JS.lit "/login").
Proof.
  split; [reflexivity |]. split; [discriminate |]. vm_compute. reflexivity.
Qed.

Lemma C3_codec_round_trip_witness :
  decodePackets (encodeSentence [JS.lit "/login"]) = ([[JS.lit "/login"]], [])
  /\ readPrefix (encodeLength 0x4000 ++ []) 0
     = Prefix 0x4000 (length (encodeLength 0x4000))
  /\ decodeLoop [0] 0 [] [JS.lit "!done"]
     = decodeLoop [0] (0 + 1) ([] ++ [[JS.lit "!done"]]) [].
Proof.
  destruct C3_codec_round_trip as (H1 & H2 & _ & H3).
  split; [| split].
  - apply H1. constructor; [exact wire_word_login | constructor].
  - apply H2. lia.
  - apply H3; [cbn; lia | reflexivity].
Defined.

(** A chunk that ends after complete words of an unfinished sentence is
    consumed whole: no sentence, no remainder. *)
Lemma decodeLoop_words ws : forall pre post sentences sentence,
  Forall wire_word ws ->
  decodeLoop (pre ++ concat (map encodeWord ws) ++ post) (length pre)
    sentences sentence
  = decodeLoop (pre ++ concat (map encodeWord ws) ++ post)
      (length pre + length (concat (map encodeWord ws)))
      sentences (sentence ++ ws).
Proof.
  induction ws as [|w ws IH]; intros pre post sentences sentence Hws.
  - cbn [map concat app length]. rewrite app_nil_r. f_equal. lia.
  - inversion Hws as [|? ? Hw Hws']; subst.
    cbn [map concat]. rewrite <- app_assoc.
    rewrite decodeLoop_word by exact Hw.
    rewrite <- length_app, (app_assoc pre).
    rewrite IH by exact Hws'.
    rewrite <- (app_assoc sentence). cbn [app].
    f_equal. rewrite !length_app. lia.
Qed.

Lemma decodePackets_words_dropped ws :
  Forall wire_word ws ->
  decodePackets (concat (map encodeWord ws)) = ([], []).
Proof.
  intros Hws. unfold decodePackets.
  pose proof (decodeLoop_words ws [] [] [] [] Hws) as H.
  cbn [app length] in H. rewrite app_nil_r in H. rewrite H.
  cbn [Nat.add]. rewrite decodeLoop_end, drop_all. reflexivity.
Qed.

(** The defect of the reassembler in general: a sentence with at least
    one word, delivered with its terminator in a chunk of its own, is
    lost. *)
Lemma reassemble_terminator_apart ws :
  Forall wire_word ws ->
  reassemble [] [encodeSentence ws] = [ws]
  /\ reassemble [] [concat (map encodeWord ws); [0]] = [[]].
Proof.
  intros Hws. split.
  - cbn [reassemble app]. rewrite decodePackets_sentence by exact Hws.
    reflexivity.
  - cbn [reassemble app]. rewrite decodePackets_words_dropped by exact Hws.
    reflexivity.
Qed.

(** C1: the code loses data when a chunk ends inside a sentence after a
    complete word.  The reply [["!done"]] delivered in one chunk is
    decoded; delivered with its terminator byte in a second chunk, the
    word is consumed and dropped with the first chunk and an empty
    sentence is produced by the second. *)
Theorem C1_split_chunk_loses_words :
  let bytes := encodeSentence [JS.lit "!done"] in
  bytes = [5; 33; 100; 111; 110; 101; 0]
  /\ reassemble [] [bytes] = [[JS.lit "!done"]]
  /\ decodePackets (firstn 6 bytes) = ([], [])
  /\ reassemble [] [firstn 6 bytes; skipn 6 bytes] = [[]].
Proof. vm_compute. repeat split; reflexivity. Qed.

(* ===================================================================== *)
(** ** The request correlator *)
(* ===================================================================== *)

Lemma Str_eqb_eq a b : Str.eqb a b = true <-> a = b.
Proof. unfold Str.eqb. apply bool_decide_eq_true. Qed.

Lemma isFailure_spec type :
  isFailure type = true <-> type = JS.lit "!trap" \/ type = JS.lit "!fatal".
Proof.
  unfold isFailure. rewrite orb_true_iff, !Str_eqb_eq. reflexivity.
Qed.

Lemma isTerminal_spec type :
  isTerminal type = true <->
  type = JS.lit "!done" \/ type = JS.lit "!empty" \/
  type = JS.lit "!trap" \/ type = JS.lit "!fatal".
Proof.
  unfold isTerminal. rewrite bool_decide_eq_true.
  rewrite !elem_of_cons, elem_of_nil. tauto.
Qed.

Lemma parseRow_attr obj w :
  (let eq := Str.indexOf w 61 1 in
   if eq >? 0
   then setProp obj (Str.slice w 1 (Z.to_nat eq))
                    (Str.slice_from w (Z.to_nat eq + 1))
   else obj)
  = match splitAttr w with
    | Some (k, v) => setProp obj k v
    | None => obj
    end.
Proof.
  cbv zeta. unfold Str.indexOf, splitAttr, Str.slice, Str.slice_from.
  destruct w as [|m body]; [reflexivity |].
  change (skipn 1 (m :: body)) with body.
  destruct (Str.index 61 body) as [k|]; [| reflexivity].
  destruct (Z.gtb_spec (Z.of_nat (1 + k)) 0); [| lia].
  rewrite Nat2Z.id. f_equal.
  - f_equal. lia.
  - replace (1 + k + 1)%nat with (S (S k)) by lia. reflexivity.
Qed.

(** The index arithmetic of the row parser computes the split of the
    specification. *)
Lemma parseRow_rowOfAttrs s : parseRow s = rowOfAttrs s.
Proof.
  unfold parseRow, rowOfAttrs.
  replace (skipn 1 s) with (tail s) by (destruct s; reflexivity).
  generalize (∅ : Row). induction (tail s) as [|w ws IH]; intros obj.
  - reflexivity.
  - cbn [fold_left]. rewrite parseRow_attr. apply IH.
Qed.

Lemma settleLogin_buf r s : buf (settleLogin r s) = buf s.
Proof. unfold settleLogin. destruct (login s); reflexivity. Qed.

Lemma destroyAll_buf err s : buf (destroyAll err s) = buf s.
Proof. unfold destroyAll. destruct (destroyed s); reflexivity. Qed.

Lemma handleSentence_buf s sentence : buf (handleSentence s sentence) = buf s.
Proof.
  unfold handleSentence. destruct sentence as [|type ws]; [reflexivity |].
  destruct (negb (loggedIn s)).
  - destruct (Str.eqb type (JS.lit "!done"));
      [rewrite settleLogin_buf; reflexivity |].
    destruct (isFailure type); [| reflexivity].
    rewrite destroyAll_buf. apply settleLogin_buf.
  - destruct (queue s); [reflexivity |].
    destruct (isTerminal type); reflexivity.
Qed.

Lemma fold_handleSentence_buf sentences : forall s,
  buf (fold_left handleSentence sentences s) = buf s.
Proof.
  induction sentences as [|x xs IH]; intros s; [reflexivity |].
  cbn [fold_left]. rewrite IH. apply handleSentence_buf.
Qed.

(** A chunk made of whole sentences, arriving on an empty buffer, is
    handled sentence by sentence. *)
Lemma onData_sentences ss s :
  buf s = [] -> Forall (Forall wire_word) ss ->
  onData (concat (map encodeSentence ss)) s = fold_left handleSentence ss s.
Proof.
  intros Hb Hss. unfold onData. rewrite Hb. cbn [app].
  rewrite decodePackets_sentences by exact Hss.
  f_equal. destruct s. cbn in Hb. subst. reflexivity.
Qed.

Lemma onData_batching ss1 ss2 s :
  buf s = [] -> Forall (Forall wire_word) ss1 -> Forall (Forall wire_word) ss2 ->
  onData (concat (map encodeSentence ss2)) (onData (concat (map encodeSentence ss1)) s)
  = onData (concat (map encodeSentence (ss1 ++ ss2))) s.
Proof.
  intros Hb H1 H2.
  rewrite (onData_sentences ss1 s Hb H1).
  rewrite onData_sentences;
    [| rewrite fold_handleSentence_buf; exact Hb | exact H2].
  rewrite onData_sentences; [| exact Hb | apply Forall_app; split; assumption].
  symmetry. apply fold_left_app.
Qed.

(** What the data handler does with a sentence while requests are queued
    on a logged-in connection: the sentence goes to the head of the queue,
    and a terminal sentence removes and settles that head. *)
Lemma handleSentence_head s current rest type ws :
  loggedIn s = true -> queue s = current :: rest ->
  let sentence := type :: ws in
  let acc := accumulator current ++ [sentence] in
  handleSentence s sentence =
  if isTerminal type then
    {| buf := buf s; loggedIn := true; destroyed := destroyed s;
       queue := rest;
       settled := settled s ++
         [(caller current,
           if isFailure type
           then Rejected (messageOf (concat acc) (JS.lit "RouterOS error"))
           else Resolved (parseRows acc))];
       login := login s; sent := sent s; sockDestroyed := sockDestroyed s;
       onCloseCalls := onCloseCalls s; writes := writes s |}
  else
    {| buf := buf s; loggedIn := true; destroyed := destroyed s;
       queue := {| caller := caller current; accumulator := acc |} :: rest;
       settled := settled s; login := login s; sent := sent s;
       sockDestroyed := sockDestroyed s;
       onCloseCalls := onCloseCalls s; writes := writes s |}.
Proof.
  intros Hl Hq. cbv zeta. unfold handleSentence. rewrite Hl, Hq. cbn [negb].
  destruct (isTerminal type); reflexivity.
Qed.

(** C2: on every connection, after any sequence of socket events and
    [write]/[close] calls (so for any number of writes and any chunking
    of the inbound bytes), the callers settled so far followed by the
    callers still queued are the writes in submission order, the [k]-th
    response delivered being that of the [k]-th write; an inbound
    sentence always goes to the oldest queued request, which a terminal
    sentence removes and settles while the rest of the queue is left as it
    is; and two batches of whole reply sentences have the effect of the
    single batch that carries them all. *)
Theorem C2_fifo_order :
  (forall o events,
      let s := run o events initial in
      map fst (settled s) ++ map caller (queue s) = seq 0 (writes s)
      /\ map fst (settled s) = seq 0 (length (settled s)))
  /\ (forall s current rest type ws,
        loggedIn s = true -> queue s = current :: rest ->
        let s' := handleSentence s (type :: ws) in
        if isTerminal type
        then queue s' = rest
             /\ exists outcome,
                 settled s' = settled s ++ [(caller current, outcome)]
        else queue s'
             = {| caller := caller current;
                  accumulator := accumulator current ++ [type :: ws] |} :: rest
             /\ settled s' = settled s)
  /\ (forall s ss1 ss2,
        buf s = [] ->
        Forall (Forall wire_word) ss1 -> Forall (Forall wire_word) ss2 ->
        onData (concat (map encodeSentence ss2))
          (onData (concat (map encodeSentence ss1)) s)
        = onData (concat (map encodeSentence (ss1 ++ ss2))) s).
Proof.
  split; [| split].
  - intros o events s. split.
    + exact (proj1 (fifo_run o events initial fifo_initial)).
    + exact (proj1 (fifo_positions _ (fifo_run o events initial fifo_initial))).
  - intros s current rest type ws Hl Hq. cbv zeta.
    rewrite (handleSentence_head s current rest type ws Hl Hq).
    destruct (isTerminal type); fields; split; try reflexivity.
    eexists. reflexivity.
  - exact (fun s ss1 ss2 => onData_batching ss1 ss2 s).
Qed.

Lemma wire_words_check ws :
  forallb (fun w => JS.well_formed w
                    && negb (Nat.eqb (length w) 0)
                    && (Z.of_nat (length (JS.utf8_encode w)) <? 2 ^ 32)) ws = true ->
  Forall wire_word ws.
Proof.
  intros H. rewrite forallb_forall in H. apply List.Forall_forall.
  intros w Hw. specialize (H w Hw).
  apply andb_true_iff in H as [H H3]. apply andb_true_iff in H as [H1 H2].
  split; [exact H1 |]. split; [| apply Z.ltb_lt; exact H3].
  intros ->. discriminate H2.
Qed.

Lemma C2_fifo_order_witness :
  (map fst (settled afterTwoWrites) ++ map caller (queue afterTwoWrites)
   = seq 0 (writes afterTwoWrites))
  /\ (queue (handleSentence afterTwoWrites [JS.lit "!done"])
      = [{| caller := 1; accumulator := [] |}])
  /\ (onData (concat (map encodeSentence [[JS.lit "!done"]]))
        (onData (concat (map encodeSentence [[JS.lit "!re"; JS.lit "=name=Alpha"]]))
           afterTwoWrites)
      = onData (concat (map encodeSentence
                  ([[JS.lit "!re"; JS.lit "=name=Alpha"]] ++ [[JS.lit "!done"]])))
          afterTwoWrites).
Proof.
  destruct C2_fifo_order as (H1 & H2 & H3).
  split; [| split].
  - exact (proj1 (H1 demo twoWrites)).
  - pose proof (H2 afterTwoWrites {| caller := 0; accumulator := [] |}
                  [{| caller := 1; accumulator := [] |}] (JS.lit "!done") []
                  eq_refl eq_refl) as H.
    cbv zeta in H.
    change (isTerminal (JS.lit "!done")) with true in H. exact (proj1 H).
  - apply H3; [reflexivity | |];
      (constructor; [| constructor]); apply wire_words_check; reflexivity.
Defined.

Lemma messageOf_first pre w post fallback :
  Forall notMessage pre -> Str.startsWith w (JS.lit "=message=") = true ->
  messageOf (pre ++ w :: post) fallback = Str.slice_from w 9.
Proof.
  intros Hpre Hw. unfold messageOf.
  induction Hpre as [|v pre Hv _ IH]; cbn [app find].
  - rewrite Hw. reflexivity.
  - unfold notMessage in Hv. rewrite Hv. exact IH.
Qed.

Lemma messageOf_none words fallback :
  Forall notMessage words -> messageOf words fallback = fallback.
Proof.
  intros H. unfold messageOf.
  induction H as [|v ws Hv _ IH]; cbn [find]; [reflexivity |].
  unfold notMessage in Hv. rewrite Hv. exact IH.
Qed.

Lemma isFailure_isTerminal type : isFailure type = true -> isTerminal type = true.
Proof. rewrite isFailure_spec, isTerminal_spec. tauto. Qed.

Lemma concat_snoc2 {A} (acc : list (list A)) a b :
  concat (acc ++ [[a; b]]) = (concat acc ++ [a]) ++ [b].
Proof.
  rewrite concat_app. cbn [concat app]. rewrite <- app_assoc. reflexivity.
Qed.

(** C6: a [!trap] or [!fatal] sentence arriving while requests are queued
    rejects exactly the head request, with the text after [=message=] of
    the first such word accumulated for it (or "RouterOS error" when there
    is none); the rest of the queue and the connection flags are left as
    they are.  The reply [["!trap", "=message=invalid value"]] rejects with
    "invalid value" and the next request is still answered. *)
Theorem C6_trap_rejects_head_only :
  (forall s current rest type ws,
      loggedIn s = true -> queue s = current :: rest ->
      type = JS.lit "!trap" \/ type = JS.lit "!fatal" ->
      let sentence := type :: ws in
      let s' := handleSentence s sentence in
      settled s'
      = settled s ++
          [(caller current,
            Rejected (messageOf (concat (accumulator current ++ [sentence]))
                        (JS.lit "RouterOS error")))]
      /\ queue s' = rest
      /\ destroyed s' = destroyed s /\ sockDestroyed s' = sockDestroyed s
      /\ loggedIn s' = true)
  /\ (forall pre w post fallback,
        Forall notMessage pre ->
        Str.startsWith w (JS.lit "=message=") = true ->
        messageOf (pre ++ w :: post) fallback = Str.slice_from w 9)
  /\ (forall words fallback,
        Forall notMessage words -> messageOf words fallback = fallback)
  /\ (forall s current rest,
        loggedIn s = true -> queue s = current :: rest ->
        Forall notMessage (concat (accumulator current)) ->
        let s' := handleSentence s trapReply in
        settled s' = settled s ++ [(caller current, Rejected (JS.lit "invalid value"))]
        /\ queue s' = rest /\ destroyed s' = destroyed s)
  /\ (let s := run demo [SockConnect; SockData (encodeSentence [JS.lit "!done"]);
                         ApiWrite [JS.lit "/a"]; ApiWrite [JS.lit "/b"];
                         SockData (encodeSentence trapReply);
                         SockData (encodeSentence [JS.lit "!done"])] initial in
      settled s = [(0%nat, Rejected (JS.lit "invalid value")); (1%nat, Resolved [])]
      /\ destroyed s = false).
Proof.
  split; [| split; [exact messageOf_first | split; [exact messageOf_none | split]]].
  - intros s current rest type ws Hl Hq Hf. cbv zeta.
    apply isFailure_spec in Hf.
    rewrite (handleSentence_head s current rest type ws Hl Hq).
    rewrite (isFailure_isTerminal type Hf), Hf. fields. repeat split.
  - intros s current rest Hl Hq Hacc. cbv zeta. unfold trapReply.
    rewrite (handleSentence_head s current rest _ _ Hl Hq).
    change (isTerminal (JS.lit "!trap")) with true.
    change (isFailure (JS.lit "!trap")) with true. fields.
    repeat split. do 3 f_equal.
    rewrite concat_snoc2.
    rewrite (messageOf_first (concat (accumulator current) ++ [JS.lit "!trap"]));
      [reflexivity | | reflexivity].
    apply Forall_app. split; [exact Hacc |].
    constructor; [reflexivity | constructor].
  - vm_compute. split; reflexivity.
Qed.

Lemma C6_trap_rejects_head_only_witness :
  settled (handleSentence afterTwoWrites trapReply)
  = settled afterTwoWrites ++ [(0%nat, Rejected (JS.lit "invalid value"))]
  /\ queue (handleSentence afterTwoWrites trapReply)
     = [{| caller := 1; accumulator := [] |}]
  /\ destroyed (handleSentence afterTwoWrites trapReply)
     = destroyed afterTwoWrites.
Proof.
  destruct C6_trap_rejects_head_only as (_ & _ & _ & H & _).
  apply (H afterTwoWrites {| caller := 0; accumulator := [] |}
           [{| caller := 1; accumulator := [] |}]); [reflexivity .. |].
  constructor.
Defined.

(** C7: a [!done] or [!empty] sentence arriving while requests are queued
    resolves the head request with the rows parsed from the sentences
    accumulated for it: the sentences tagged [!re], in order, each turned
    into an object by splitting every word after the tag, without its
    first character, at the first [=] that follows.  The example sentence
    of the specification parses to the example object. *)
Theorem C7_rows_parsed_on_completion :
  (forall s current rest type ws,
      loggedIn s = true -> queue s = current :: rest ->
      type = JS.lit "!done" \/ type = JS.lit "!empty" ->
      let sentence := type :: ws in
      let s' := handleSentence s sentence in
      settled s'
      = settled s ++
          [(caller current, Resolved (parseRows (accumulator current ++ [sentence])))]
      /\ queue s' = rest)
  /\ (forall accumulator,
        parseRows accumulator = map rowOfAttrs (List.filter isRow accumulator))
  /\ parseRow alphaRow = alphaObject
  /\ (let s := run demo [SockConnect; SockData (encodeSentence [JS.lit "!done"]);
                         ApiWrite [JS.lit "/interface/wireguard/peers/print"];
                         SockData (encodeSentence alphaRow
                                   ++ encodeSentence [JS.lit "!done"])] initial in
      settled s = [(0%nat, Resolved [alphaObject])]).
Proof.
  split; [| split; [| split]].
  - intros s current rest type ws Hl Hq Ht. cbv zeta.
    rewrite (handleSentence_head s current rest type ws Hl Hq).
    destruct Ht as [-> | ->]; split; reflexivity.
  - intros acc. unfold parseRows. fold isRow.
    apply map_ext. exact parseRow_rowOfAttrs.
  - vm_compute. reflexivity.
  - vm_compute. reflexivity.
Qed.

Lemma C7_rows_parsed_on_completion_witness :
  settled (handleSentence afterTwoWrites [JS.lit "!done"])
  = settled afterTwoWrites ++ [(0%nat, Resolved (parseRows ([] ++ [[JS.lit "!done"]])))]
  /\ queue (handleSentence afterTwoWrites [JS.lit "!done"])
     = [{| caller := 1; accumulator := [] |}].
Proof.
  destruct C7_rows_parsed_on_completion as (H & _).
  apply (H afterTwoWrites {| caller := 0; accumulator := [] |}
           [{| caller := 1; accumulator := [] |}] (JS.lit "!done") []);
    [reflexivity | reflexivity | left; reflexivity].
Defined.

Lemma destroyAll_idem err err' s :
  destroyAll err' (destroyAll err s) = destroyAll err s.
Proof.
  unfold destroyAll. destruct (destroyed s) eqn:E; [rewrite E |]; reflexivity.
Qed.

Lemma destroyAll_destroyed err s : destroyed s = true -> destroyAll err s = s.
Proof. unfold destroyAll. intros ->. reflexivity. Qed.

Lemma settleLogin_settled r s : settled (settleLogin r s) = settled s.
Proof. unfold settleLogin. destruct (login s); reflexivity. Qed.

Lemma settleLogin_destroyed r s : destroyed (settleLogin r s) = destroyed s.
Proof. unfold settleLogin. destruct (login s); reflexivity. Qed.

Lemma teardown_once o s e :
  teardown e -> destroyed s = true -> settled (handle o s e) = settled s.
Proof.
  intros He Hd. destruct e; try contradiction; cbn [handle].
  - unfold onTimeout. rewrite destroyAll_destroyed.
    + destruct (negb (loggedIn s)); [apply settleLogin_settled | reflexivity].
    + destruct (negb (loggedIn s)); [rewrite settleLogin_destroyed |]; exact Hd.
  - unfold onError. destruct (negb (loggedIn s));
      [apply settleLogin_settled | rewrite destroyAll_destroyed by exact Hd; reflexivity].
  - unfold onClose. cbv zeta. fields.
    destruct (queue s); [reflexivity |].
    rewrite destroyAll_destroyed by exact Hd. reflexivity.
  - unfold close. rewrite destroyAll_destroyed by exact Hd. reflexivity.
Qed.

(** On a live, logged-in connection with requests queued, each of the
    events that call [destroyAll] rejects all of them, in order, with one
    error, and leaves the queue empty and the connection destroyed. *)
Lemma teardown_rejects_all o s e :
  teardown e -> loggedIn s = true -> destroyed s = false -> queue s <> [] ->
  exists err,
    settled (handle o s e)
    = settled s ++ map (fun item => (caller item, Rejected err)) (queue s)
    /\ queue (handle o s e) = [] /\ destroyed (handle o s e) = true.
Proof.
  intros He Hl Hd Hq. destruct e; try contradiction; cbn [handle].
  - unfold onTimeout. rewrite Hl. cbn [negb]. unfold destroyAll. rewrite Hd.
    eexists. repeat split.
  - unfold onError. rewrite Hl. cbn [negb]. unfold destroyAll. rewrite Hd.
    eexists. repeat split.
  - unfold onClose. cbv zeta. fields.
    destruct (queue s) as [|x xs] eqn:E; [contradiction |].
    unfold destroyAll. fields. rewrite Hd. fields.
    eexists. repeat split.
  - unfold close, destroyAll. rewrite Hd. eexists. repeat split.
Qed.

(** C10: over any sequence of events and calls no request is settled
    twice, and the request at the head of the queue has not been settled;
    [destroyAll] on a live connection rejects every queued request once,
    in order, empties the queue and sets the flag, and so does each of
    the events that call it (timeout, error, close, caller close) on a
    logged-in connection with requests queued; after that another
    [destroyAll], and every such event, settles nothing;
    and [write] on a destroyed connection is rejected at once, with
    nothing queued and nothing sent. *)
Theorem C10_settled_at_most_once :
  (forall o events, NoDup (map fst (settled (run o events initial))))
  /\ (forall o events current rest,
        queue (run o events initial) = current :: rest ->
        ~ In (caller current) (map fst (settled (run o events initial)))
        /\ ~ In (caller current) (map caller rest))
  /\ (forall s err,
        destroyed s = false ->
        settled (destroyAll err s)
        = settled s ++ map (fun item => (caller item, Rejected err)) (queue s)
        /\ queue (destroyAll err s) = []
        /\ destroyed (destroyAll err s) = true)
  /\ (forall s err err', destroyAll err' (destroyAll err s) = destroyAll err s)
  /\ (forall o s e,
        teardown e -> loggedIn s = true -> destroyed s = false ->
        queue s <> [] ->
        exists err,
          settled (handle o s e)
          = settled s ++ map (fun item => (caller item, Rejected err)) (queue s)
          /\ queue (handle o s e) = [] /\ destroyed (handle o s e) = true)
  /\ (forall o s e,
        teardown e -> destroyed s = true -> settled (handle o s e) = settled s)
  /\ (forall s words,
        destroyed s = true ->
        queue (write words s) = queue s
        /\ sent (write words s) = sent s
        /\ settled (write words s)
           = settled s ++ [(writes s, Rejected (JS.lit "Connection already closed"))]).
Proof.
  assert (Hnd : forall o events,
             NoDup (map fst (settled (run o events initial))
                    ++ map caller (queue (run o events initial)))).
  { intros o events.
    rewrite (proj1 (fifo_run o events initial fifo_initial)). apply NoDup_seq. }
  split; [| split; [| split; [| split; [| split; [| split]]]]].
  - intros o events. specialize (Hnd o events).
    apply NoDup_app in Hnd. tauto.
  - intros o events current rest H. specialize (Hnd o events).
    rewrite H in Hnd. cbn [map] in Hnd.
    apply NoDup_app in Hnd as (_ & Hx & Hq). split; intros Hin.
    + apply (Hx (caller current)); [apply list_elem_of_In; exact Hin | left].
    + apply NoDup_cons in Hq as [Hq _]. apply Hq, list_elem_of_In, Hin.
  - intros s err H. unfold destroyAll. rewrite H. repeat split.
  - intros s err err'. apply destroyAll_idem.
  - intros o s e. apply teardown_rejects_all.
  - intros o s e. apply teardown_once.
  - intros s words H. unfold write. rewrite H. repeat split.
Qed.

Lemma C10_settled_at_most_once_witness :
  (~ In 0%nat (map fst (settled afterTwoWrites)))
  /\ settled (destroyAll (JS.lit "Closed by caller") afterTwoWrites)
     = [(0%nat, Rejected (JS.lit "Closed by caller"));
        (1%nat, Rejected (JS.lit "Closed by caller"))]
  /\ settled (handle demo (close afterTwoWrites) SockClose)
     = settled (close afterTwoWrites)
  /\ queue (write [JS.lit "/x"] (close afterTwoWrites)) = [].
Proof.
  destruct C10_settled_at_most_once as (_ & H2 & H3 & _ & _ & H5 & H6).
  split; [| split; [| split]].
  - exact (proj1 (H2 demo twoWrites {| caller := 0; accumulator := [] |}
                    [{| caller := 1; accumulator := [] |}] eq_refl)).
  - exact (proj1 (H3 afterTwoWrites (JS.lit "Closed by caller") eq_refl)).
  - apply H5; [exact I | reflexivity].
  - exact (proj1 (H6 (close afterTwoWrites) [JS.lit "/x"] eq_refl)).
Defined.

(* ===================================================================== *)
(** ** The connection pool *)
(* ===================================================================== *)

Lemma connect_retries cfg svc errs : forall a (p : Pool) n rest,
  p !! poolKey svc = None ->
  a + Z.of_nat (length errs) <= maxRetries cfg ->
  connect cfg svc (map Fails errs ++ rest) a p n
  = let '(r, p', n', acts) :=
        connect cfg svc rest (a + Z.of_nat (length errs)) p (length errs + n) in
    (r, p', n', retries cfg a (length errs) ++ acts).
Proof.
  induction errs as [|e errs IH]; intros a p n rest Hp Ha.
  - cbn [map app length retries Nat.add]. rewrite Z.add_0_r.
    destruct (connect cfg svc rest a p n) as [[[r p'] n'] acts]. reflexivity.
  - cbn [map app length retries connect]. rewrite Hp.
    cbn [length] in Ha.
    destruct (Z.ltb_spec a (maxRetries cfg)); [| lia].
    rewrite delete_id by exact Hp.
    rewrite IH by (try exact Hp; lia).
    replace (a + 1 + Z.of_nat (length errs))
      with (a + Z.of_nat (S (length errs))) by lia.
    replace (length errs + S n)%nat with (S (length errs) + n)%nat by lia.
    destruct (connect cfg svc rest (a + Z.of_nat (S (length errs))) p
                (S (length errs) + n)) as [[[r p'] n'] acts].
    reflexivity.
Qed.

Lemma dialCount_retries cfg a n acts :
  dialCount (retries cfg a n ++ acts) = (n + dialCount acts)%nat.
Proof.
  revert a. induction n as [|n IH]; intros a; [reflexivity |].
  cbn [retries app]. unfold dialCount in *. cbn [List.filter length].
  rewrite IH. reflexivity.
Qed.

(** Whatever the outcomes, [connect(attempt)] calls [rosConnect] at most
    [maxRetries - attempt + 1] times, and at most once when that is less
    than one. *)
Lemma connect_dial_bound cfg svc outcomes : forall a (p : Pool) n,
  Z.of_nat (dialCount (snd (connect cfg svc outcomes a p n)))
  <= Z.max 1 (maxRetries cfg - a + 1).
Proof.
  induction outcomes as [|o rest IH]; intros a p n; cbn [connect].
  - destruct (p !! poolKey svc); cbn; lia.
  - destruct (p !! poolKey svc); [cbn; lia |].
    destruct o as [|err]; [cbn; lia |].
    destruct (Z.ltb_spec a (maxRetries cfg)); [| cbn; lia].
    specialize (IH (a + 1) (delete (poolKey svc) p) (S n)).
    destruct (connect cfg svc rest (a + 1) (delete (poolKey svc) p) (S n))
      as [[[r p'] n'] acts].
    cbn [snd] in *. unfold dialCount in *. cbn [List.filter length]. lia.
Qed.

(** C4, as stated, fails: with [maxRetries = 3] a third failure is final;
    the success a fourth attempt would have had is never asked for. *)
Lemma C4_fourth_attempt_counterexample :
  connect threeAttempts demoService
    [Fails (JS.lit "timeout"); Fails (JS.lit "timeout");
     Fails (JS.lit "timeout"); Connects] 1 ∅ 0
  = (Thrown (JS.lit "Gagal konek ke router 10.0.0.1: timeout"), ∅, 3%nat,
     [Dial 1; Sleep 1000; Dial 2; Sleep 1000; Dial 3]).
Proof. vm_compute. reflexivity. Qed.

(** C4 (amended): [connect] makes at most [maxRetries] attempts in all
    (one when [maxRetries] is less than one), with a sleep of [retryDelay]
    between two attempts.  When fewer than
    [maxRetries] attempts fail and the next succeeds, the connection is
    returned and stored in the pool; when [maxRetries] attempts fail, the
    last error is thrown wrapped with the router's host and the pool has no
    entry for the router.  With [maxRetries = 3]: two failures and a
    success give a connection, three failures give the error. *)
Theorem C4_bounded_retry :
  (forall cfg svc outcomes (p : Pool) n,
      Z.of_nat (dialCount (snd (connect cfg svc outcomes 1 p n)))
      <= Z.max 1 (maxRetries cfg))
  /\ (forall cfg svc (p : Pool) n errs rest,
      p !! poolKey svc = None ->
      Z.of_nat (length errs) < maxRetries cfg ->
      let api := (length errs + n)%nat in
      exists p',
        connect cfg svc (map Fails errs ++ Connects :: rest) 1 p n
        = (Returned api, p', S api,
           retries cfg 1 (length errs) ++ [Dial (1 + Z.of_nat (length errs))])
        /\ p' !! poolKey svc = Some api)
  /\ (forall cfg svc (p : Pool) n errs err rest,
        p !! poolKey svc = None ->
        Z.of_nat (length errs) + 1 = maxRetries cfg ->
        exists p' n' acts,
          connect cfg svc (map Fails (errs ++ [err]) ++ rest) 1 p n
          = (Thrown (connectError svc err), p', n', acts)
          /\ p' !! poolKey svc = None
          /\ acts = retries cfg 1 (length errs) ++ [Dial (maxRetries cfg)]
          /\ Z.of_nat (dialCount acts) = maxRetries cfg)
  /\ (forall e1 e2 rest,
        connect threeAttempts demoService
          (Fails e1 :: Fails e2 :: Connects :: rest) 1 ∅ 0
        = (Returned 2, {[ poolKey demoService := 2%nat ]}, 3%nat,
           [Dial 1; Sleep 1000; Dial 2; Sleep 1000; Dial 3]))
  /\ (forall e1 e2 e3 rest,
        connect threeAttempts demoService
          (Fails e1 :: Fails e2 :: Fails e3 :: rest) 1 ∅ 0
        = (Thrown (connectError demoService e3), ∅, 3%nat,
           [Dial 1; Sleep 1000; Dial 2; Sleep 1000; Dial 3])).
Proof.
  split; [| split; [| split; [| split]]].
  - intros cfg svc outcomes p n.
    pose proof (connect_dial_bound cfg svc outcomes 1 p n) as H.
    replace (maxRetries cfg - 1 + 1) with (maxRetries cfg) in H by lia.
    exact H.
  - intros cfg svc p n errs rest Hp Hn api.
    exists (<[poolKey svc := api]> p).
    rewrite connect_retries by (try exact Hp; lia).
    cbn [connect]. rewrite Hp. split; [reflexivity |].
    apply lookup_insert_eq.
  - intros cfg svc p n errs err rest Hp Hn.
    exists p, (S (length errs + n)),
      (retries cfg 1 (length errs) ++ [Dial (maxRetries cfg)]).
    rewrite map_app, <- app_assoc.
    rewrite connect_retries by (try exact Hp; lia).
    cbn [map app connect].
    destruct (Z.ltb_spec (1 + Z.of_nat (length errs)) (maxRetries cfg)); [lia |].
    rewrite (delete_id p) by exact Hp.
    replace (1 + Z.of_nat (length errs)) with (maxRetries cfg) by lia.
    split; [rewrite Hp; reflexivity |].
    split; [exact Hp |]. split; [reflexivity |].
    rewrite dialCount_retries. cbn. lia.
  - intros e1 e2 rest. reflexivity.
  - intros e1 e2 e3 rest. reflexivity.
Qed.

Lemma C4_bounded_retry_witness :
  exists p',
    connect threeAttempts demoService
      (map Fails [JS.lit "timeout"] ++ Connects :: []) 1 ∅ 0
    = (Returned (length [JS.lit "timeout"] + 0),
       p', S (length [JS.lit "timeout"] + 0),
       retries threeAttempts 1 (length [JS.lit "timeout"])
       ++ [Dial (1 + Z.of_nat (length [JS.lit "timeout"]))])
    /\ p' !! poolKey demoService = Some (length [JS.lit "timeout"] + 0)%nat.
Proof.
  apply (proj1 (proj2 C4_bounded_retry) threeAttempts demoService ∅ 0%nat
           [JS.lit "timeout"] []); [reflexivity | cbn; lia].
Defined.

(** C5, as stated, fails: two callers that ask for the same router before
    either login has completed both find the pool empty and both start a
    transport and login; when both succeed, each caller holds a live
    connection of its own and the pool keeps the later one. *)
Lemma C5_concurrent_connect_counterexample :
  let w := steps threeAttempts twoCallers [(0%nat, Connects); (1%nat, Connects)] in
  let w' := steps threeAttempts w [(0%nat, Connects); (1%nat, Connects)] in
  tasks w = [(demoService, Dialing 1 0); (demoService, Dialing 1 1)]
  /\ outstanding (poolKey demoService) w = 2%nat
  /\ tasks w' = [(demoService, Finished (Returned 0));
                 (demoService, Finished (Returned 1))]
  /\ pool w' = {[ poolKey demoService := 1%nat ]}.
Proof. vm_compute. repeat split; reflexivity. Qed.

(** A caller about to run the body of [connect]. *)
Lemma step_dials cfg w i ok :
  dials (step cfg w i ok) <> dials w ->
  exists svc attempt,
    (tasks w !! i = Some (svc, Calling attempt)
     \/ tasks w !! i = Some (svc, Sleeping attempt))
    /\ pool w !! poolKey svc = None.
Proof.
  unfold step. destruct (tasks w !! i) as [[svc t]|] eqn:Ht; [| congruence].
  destruct t as [a | a d | a | r]; cbn [stepTask]; unfold enter.
  - destruct (pool w !! poolKey svc) eqn:Hp; cbn [dials]; [congruence |].
    intros _. exists svc, a. split; [left; reflexivity | exact Hp].
  - destruct ok; [| destruct (a <? maxRetries cfg)]; cbn [dials]; congruence.
  - destruct (pool w !! poolKey svc) eqn:Hp; cbn [dials]; [congruence |].
    intros _. exists svc, a. split; [right; reflexivity | exact Hp].
  - cbn [dials]. congruence.
Qed.

(** C5 (amended): the pool holds at most one connection per router id,
    entered when its login has completed, and [connect] starts a transport
    and login only when it finds no pool entry for its router: a caller
    that finds an entry returns it and starts nothing, and every start of
    an attempt happens with the entry absent.  There is no gate for
    attempts in flight: a caller that finds no entry starts its own
    attempt whatever the other callers are doing, and a successful attempt
    puts its connection in the pool in place of any other. *)
Theorem C5_pool_gate :
  (forall cfg w i svc attempt api ok,
      tasks w !! i = Some (svc, Calling attempt) ->
      pool w !! poolKey svc = Some api ->
      let w' := step cfg w i ok in
      tasks w' !! i = Some (svc, Finished (Returned api))
      /\ dials w' = dials w /\ pool w' = pool w)
  /\ (forall cfg w i ok,
        dials (step cfg w i ok) <> dials w ->
        exists svc attempt,
          (tasks w !! i = Some (svc, Calling attempt)
           \/ tasks w !! i = Some (svc, Sleeping attempt))
          /\ pool w !! poolKey svc = None)
  /\ (forall cfg w i svc attempt ok,
        tasks w !! i = Some (svc, Calling attempt) ->
        pool w !! poolKey svc = None ->
        let w' := step cfg w i ok in
        tasks w' !! i = Some (svc, Dialing attempt (dials w))
        /\ dials w' = S (dials w))
  /\ (forall cfg w i svc attempt dial,
        tasks w !! i = Some (svc, Dialing attempt dial) ->
        pool (step cfg w i Connects) !! poolKey svc = Some dial)
  /\ (forall cfg svc outcomes attempt (p : Pool) n api,
        p !! poolKey svc = Some api ->
        connect cfg svc outcomes attempt p n = (Returned api, p, n, [])).
Proof.
  split; [| split; [exact step_dials | split; [| split]]].
  - intros cfg w i svc a api ok Ht Hp. cbv zeta. unfold step.
    rewrite Ht. cbn [stepTask]. unfold enter. rewrite Hp. cbn [tasks dials pool].
    split; [| split; reflexivity].
    apply list_lookup_insert_eq. apply lookup_lt_Some in Ht. exact Ht.
  - intros cfg w i svc a ok Ht Hp. cbv zeta. unfold step.
    rewrite Ht. cbn [stepTask]. unfold enter. rewrite Hp. cbn [tasks dials pool].
    split; [| reflexivity].
    apply list_lookup_insert_eq. apply lookup_lt_Some in Ht. exact Ht.
  - intros cfg w i svc a d Ht. unfold step.
    rewrite Ht. cbn [stepTask pool]. apply lookup_insert_eq.
  - intros cfg svc outcomes a p n api Hp.
    destruct outcomes; cbn [connect]; rewrite Hp; reflexivity.
Qed.

Lemma C5_pool_gate_witness :
  tasks (step threeAttempts pooled 0 Connects) !! 0%nat
  = Some (demoService, Finished (Returned 0))
  /\ dials (step threeAttempts pooled 0 Connects) = dials pooled
  /\ pool (step threeAttempts pooled 0 Connects) = pool pooled.
Proof.
  apply (proj1 C5_pool_gate threeAttempts pooled 0%nat demoService 1 0%nat Connects);
    reflexivity.
Defined.

Lemma step_lone cfg svc t p n outcome :
  step cfg (lone svc t p n) 0 outcome
  = let '(t', p', n') := stepTask cfg svc outcome t p n in lone svc t' p' n'.
Proof.
  unfold step, lone. cbn [tasks pool dials lookup list_lookup].
  destruct (stepTask cfg svc outcome t p n) as [[t' p'] n']. reflexivity.
Qed.

(** [connect] is what a caller alone on the event loop does. *)
Lemma connect_lone_caller cfg svc outcomes : forall a (p : Pool) n r p' n' acts,
  connect cfg svc outcomes a p n = (r, p', n', acts) ->
  r <> Waiting ->
  exists schedule,
    steps cfg (lone svc (Calling a) p n) ((0%nat, Connects) :: schedule)
    = lone svc (Finished r) p' n'.
Proof.
  induction outcomes as [|o rest IH]; intros a p n r p' n' acts Hc Hr;
    cbn [connect] in Hc.
  - destruct (p !! poolKey svc) as [api|] eqn:Hp; [| congruence].
    injection Hc as <- <- <- <-.
    exists []. cbn [steps fold_left fst snd].
    rewrite step_lone. cbn [stepTask]. unfold enter. rewrite Hp. reflexivity.
  - destruct (p !! poolKey svc) as [api|] eqn:Hp.
    { injection Hc as <- <- <- <-.
      exists []. cbn [steps fold_left fst snd].
      rewrite step_lone. cbn [stepTask]. unfold enter. rewrite Hp.
      reflexivity. }
    destruct o as [|err].
    { injection Hc as <- <- <- <-.
      exists [(0%nat, Connects)].
      cbn [steps fold_left fst snd].
      rewrite step_lone. cbn [stepTask]. unfold enter. rewrite Hp.
      rewrite step_lone. reflexivity. }
    destruct (a <? maxRetries cfg) eqn:Ha.
    + destruct (connect cfg svc rest (a + 1) (delete (poolKey svc) p) (S n))
        as [[[r1 p1] n1] acts1] eqn:Hrec.
      injection Hc as <- <- <- <-.
      destruct (IH _ _ _ _ _ _ _ Hrec Hr) as [schedule Hs].
      exists ((0%nat, Fails err) :: (0%nat, Connects) :: schedule).
      cbn [steps fold_left fst snd] in *.
      rewrite step_lone. cbn [stepTask]. unfold enter at 1. rewrite Hp.
      rewrite step_lone. cbn [stepTask]. rewrite Ha.
      rewrite step_lone in *. cbn [stepTask] in *. exact Hs.
    + injection Hc as <- <- <- <-.
      exists [(0%nat, Fails err)].
      cbn [steps fold_left fst snd].
      rewrite step_lone. cbn [stepTask]. unfold enter. rewrite Hp.
      rewrite step_lone. cbn [stepTask]. rewrite Ha. reflexivity.
Qed.

(* ===================================================================== *)
(** ** Fingerprint pinning *)
(* ===================================================================== *)














Section FingerprintPinning.

Variable sha256_hex : list JS.byte -> JS.str.
Variable toLowerCase : JS.str -> JS.str.
Variable notFunction : Error.


Lemma socketOpens_pinned o fp der chainError :
  useTls o = true -> caFingerprint o = Some fp -> fp <> [] ->
  socketOpens sha256_hex toLowerCase notFunction o chainError der
  = match chainError with
    | Some e => Opens [SockError e; SockClose]
    | None =>
      if bool_decide (sha256_hex der <> toLowerCase (stripSeparators fp))
      then Opens [SockError (mismatchError sha256_hex toLowerCase fp der); SockClose]
      else Opens [SockSecureConnect]
    end.
Proof.
  intros Htls Hfp Hne. unfold socketOpens, rejectUnauthorized.
  rewrite Htls, Hfp. destruct fp as [|c cs]; [contradiction |].
  cbn [truthy]. rewrite orb_true_r.
  destruct chainError as [e|]; [reflexivity |].
  unfold checkServerIdentity, mismatchError. cbv zeta.
  destruct (bool_decide (sha256_hex der
                         <> toLowerCase (stripSeparators (c :: cs))));
    reflexivity.
Qed.


End FingerprintPinning.




Example normalise_example :
  asciiLower (stripSeparators (JS.lit "AA:BB cc:DD")) = JS.lit "aabbccdd".
Proof. reflexivity. Qed.

(* ===================================================================== *)
(** ** The private key in the comment *)
(* ===================================================================== *)

Example parseFlat_ex :
  parseFlat (commentJSON (JS.lit "kA1+/=") (JS.lit "2026-01-01T00:00:00.000Z"))
  = Some (JObject [(JS.lit "privkey", JString (JS.lit "kA1+/="));
                   (JS.lit "created_at", JString (JS.lit "2026-01-01T00:00:00.000Z"))]).
Proof. vm_compute. reflexivity. Qed.







Lemma is_str_lit s : is_str (JS.lit s).
Proof.
  unfold is_str, JS.lit. apply Forall_map, List.Forall_forall.
  intros c _.
  pose proof (Ascii.N_ascii_bounded c) as H. lia.
Qed.












(* ===================================================================== *)
(** ** The decoder on arbitrary buffers *)
(* ===================================================================== *)

Lemma mask_table_ok b0 : JS.is_byte b0 -> mask_table b0 = true.
Proof.
  intros Hb. apply (below_check 256); [vm_compute; reflexivity | exact Hb].
Qed.

Lemma at_byte buf i : Forall JS.is_byte buf -> JS.is_byte (JS.at_ buf i).
Proof.
  intros H. unfold JS.at_. revert i.
  induction H as [|b buf Hb H IH]; intros [|i]; cbn [nth];
    try (unfold JS.is_byte; lia); auto.
Qed.

(** On a buffer of bytes the prefix block reads a length that is not
    negative, over as many bytes as the first byte announces; it leaves
    the loop exactly when the buffer ends before them. *)
Lemma readPrefix_bytes buf i :
  Forall JS.is_byte buf ->
  match readPrefix buf i with
  | Incomplete => (length buf < i + tagWidth (JS.at_ buf i))%nat
  | Prefix len skip =>
    0 <= len /\ skip = tagWidth (JS.at_ buf i)
    /\ (skip = 1%nat \/ (i + skip <= length buf)%nat)
  end.
Proof.
  intros Hbuf. unfold readPrefix, tagWidth.
  pose proof (at_byte buf i Hbuf) as H0.
  pose proof (at_byte buf (i + 1) Hbuf) as H1.
  pose proof (at_byte buf (i + 2) Hbuf) as H2.
  pose proof (at_byte buf (i + 3) Hbuf) as H3.
  pose proof (at_byte buf (i + 4) Hbuf) as H4.
  revert H0 H1 H2 H3 H4.
  generalize (JS.at_ buf i) (JS.at_ buf (i + 1)) (JS.at_ buf (i + 2))
             (JS.at_ buf (i + 3)) (JS.at_ buf (i + 4)).
  intros b0 b1 b2 b3 b4 H0 H1 H2 H3 H4.
  pose proof (mask_table_ok b0 H0) as M. unfold mask_table in M.
  apply andb_true_iff in M as [M M3]. apply andb_true_iff in M as [M1 M2].
  apply Z.leb_le in M1, M2, M3.
  destruct (shl_byte b1 H1) as [S1a S1b]. destruct (shl_byte b2 H2) as [S2a S2b].
  destruct (shl_byte b3 H3) as [S3a S3b].
  unfold JS.is_byte in *.
  destruct (Z.leb_spec 0xf0 b0).
  { rewrite (tag_5 b0) by lia.
    destruct (Nat.ltb_spec (length buf) (i + 5)); [lia |].
    rewrite S2b, S3a. split; [nia | split; [reflexivity | right; lia]]. }
  destruct (Z.leb_spec 0xe0 b0).
  { destruct (tag_4 b0 ltac:(lia)) as (-> & -> & E).
    destruct (Nat.ltb_spec (length buf) (i + 4)); [lia |].
    rewrite S1b, S2a. split; [nia | split; [reflexivity | right; lia]]. }
  destruct (Z.leb_spec 0xc0 b0).
  { destruct (tag_3 b0 ltac:(lia)) as (-> & -> & -> & E).
    destruct (Nat.ltb_spec (length buf) (i + 3)); [lia |].
    rewrite S1a. split; [nia | split; [reflexivity | right; lia]]. }
  destruct (Z.leb_spec 0x80 b0).
  { destruct (tag_2 b0 ltac:(lia)) as (-> & -> & -> & -> & E).
    destruct (Nat.ltb_spec (length buf) (i + 2)); [lia |].
    split; [nia | split; [reflexivity | right; lia]]. }
  destruct (tag_1 b0 ltac:(lia)) as (-> & -> & -> & ->).
  split; [lia | split; [reflexivity | left; reflexivity]].
Qed.

(** The UTF-8 decoder gives at least one code unit for at least one
    byte, whatever the bytes are. *)
Lemma utf8_decode_from_nonempty bs : forall st,
  st <> JS.Idle \/ bs <> [] -> JS.utf8_decode_from st bs <> [].
Proof.
  induction bs as [|b bs IH]; intros st H.
  - destruct st; [destruct H; contradiction | discriminate].
  - cbn [JS.utf8_decode_from].
    destruct (JS.dstep st b) as [out st'] eqn:E.
    destruct out as [|u out]; [| discriminate].
    cbn [app]. apply IH. left. intros ->.
    destruct st as [|cp n lo hi]; cbn [JS.dstep] in E.
    + unfold JS.lead in E.
      repeat match type of E with
             | (if ?c then _ else _) = _ => destruct c
             end; discriminate E.
    + destruct ((lo <=? b) && (b <=? hi)).
      * destruct n as [|[|n]]; try discriminate E;
          unfold JS.units in E; destruct (_ <? _) in E; discriminate E.
      * destruct (JS.lead b); discriminate E.
Qed.

Lemma decodeLoop_words_nonempty buf : Forall JS.is_byte buf ->
  forall k i sentences sentence,
    (length buf - i <= k)%nat ->
    Forall (Forall (fun w : JS.str => w <> [])) sentences ->
    Forall (fun w : JS.str => w <> []) sentence ->
    Forall (Forall (fun w : JS.str => w <> []))
      (fst (decodeLoop buf i sentences sentence)).
Proof.
  intros Hbuf. induction k as [|k IH]; intros i sentences sentence Hk Hss Hs;
    rewrite decodeLoop_step.
  - destruct (Nat.leb_spec (length buf) i); [exact Hss | lia].
  - destruct (Nat.leb_spec (length buf) i); [exact Hss |].
    pose proof (readPrefix_bytes buf i Hbuf) as HP.
    destruct (readPrefix buf i) as [|len skip]; [exact Hss |].
    destruct HP as (Hlen & Hskip & _).
    assert (0 < skip)%nat
      by (rewrite Hskip; unfold tagWidth;
          repeat match goal with |- context [if ?c then _ else _] => destruct c end;
          lia).
    destruct (Z.eqb_spec len 0).
    + apply IH; [lia | | constructor].
      apply Forall_app. split; [exact Hss | constructor; [exact Hs | constructor]].
    + destruct (Z.ltb_spec (Z.of_nat (length buf)) (Z.of_nat (i + skip) + len));
        [exact Hss |].
      apply IH; [lia | exact Hss |].
      apply Forall_app. split; [exact Hs |]. constructor; [| constructor].
      apply utf8_decode_from_nonempty. right.
      intros E. apply (f_equal (@length Z)) in E.
      unfold JS.subarray in E. rewrite length_take, length_drop in E.
      cbn [length] in E. lia.
Qed.

(** X1: On every buffer of bytes, no sentence [decodePackets] returns
    holds an empty word: a prefix of length zero ends the sentence, and a
    word of at least one byte decodes to at least one code unit, valid
    UTF-8 or not. *)
Theorem X1_decodePackets_no_empty_word buf :
  Forall JS.is_byte buf ->
  Forall (Forall (fun w : JS.str => w <> [])) (fst (decodePackets buf)).
Proof.
  intros Hbuf. unfold decodePackets.
  pose proof (decodeLoop_words_nonempty buf Hbuf (length buf) 0 [] []
                ltac:(lia) ltac:(constructor) ltac:(constructor)) as H.
  destruct (decodeLoop buf 0 [] []) as [ss i]. exact H.
Qed.

(** A first byte that announces more prefix bytes than the buffer holds
    leaves the loop. *)
Lemma readPrefix_short pre b0 tl :
  JS.is_byte b0 -> (S (length tl) < tagWidth b0)%nat ->
  readPrefix (pre ++ b0 :: tl) (length pre) = Incomplete.
Proof.
  intros H0 Hlen. unfold readPrefix. rewrite at_app0, length_app.
  cbn [nth length]. unfold tagWidth, JS.is_byte in *.
  destruct (Z.leb_spec 0xf0 b0).
  { rewrite (tag_5 b0) by lia.
    destruct (Nat.ltb_spec (length pre + S (length tl)) (length pre + 5));
      [reflexivity | lia]. }
  destruct (Z.leb_spec 0xe0 b0).
  { destruct (tag_4 b0 ltac:(lia)) as (-> & -> & E).
    destruct (Nat.ltb_spec (length pre + S (length tl)) (length pre + 4));
      [reflexivity | lia]. }
  destruct (Z.leb_spec 0xc0 b0).
  { destruct (tag_3 b0 ltac:(lia)) as (-> & -> & -> & E).
    destruct (Nat.ltb_spec (length pre + S (length tl)) (length pre + 3));
      [reflexivity | lia]. }
  destruct (Z.leb_spec 0x80 b0).
  { destruct (tag_2 b0 ltac:(lia)) as (-> & -> & -> & -> & E).
    destruct (Nat.ltb_spec (length pre + S (length tl)) (length pre + 2));
      [reflexivity | lia]. }
  lia.
Qed.

(** The first byte of an encoded prefix announces the byte count of the
    prefix. *)
Lemma prefixBytes_head len :
  0 <= len < 2 ^ 32 ->
  exists b0 tl, prefixBytes len = b0 :: tl /\ JS.is_byte b0
                /\ tagWidth b0 = length (prefixBytes len).
Proof.
  intros H. unfold prefixBytes, tagWidth, JS.is_byte.
  destruct (Z.ltb_spec len 0x80).
  { eexists _, _. split; [reflexivity |]. split; [lia |].
    repeat match goal with |- context [?a <=? ?b] => destruct (Z.leb_spec a b); try lia end.
    reflexivity. }
  destruct (Z.ltb_spec len 0x4000).
  { pose proof (div_bounds len 256 64 ltac:(lia) ltac:(lia)).
    eexists _, _. split; [reflexivity |]. split; [lia |].
    repeat match goal with |- context [?a <=? ?b] => destruct (Z.leb_spec a b); try lia end.
    reflexivity. }
  destruct (Z.ltb_spec len 0x200000).
  { pose proof (div_bounds len 65536 32 ltac:(lia) ltac:(lia)).
    eexists _, _. split; [reflexivity |]. split; [lia |].
    repeat match goal with |- context [?a <=? ?b] => destruct (Z.leb_spec a b); try lia end.
    reflexivity. }
  destruct (Z.ltb_spec len 0x10000000).
  { pose proof (div_bounds len 16777216 16 ltac:(lia) ltac:(lia)).
    eexists _, _. split; [reflexivity |]. split; [lia |].
    repeat match goal with |- context [?a <=? ?b] => destruct (Z.leb_spec a b); try lia end.
    reflexivity. }
  eexists _, _. split; [reflexivity |]. split; [lia |]. reflexivity.
Qed.

(** A buffer that ends inside a word: the loop leaves at the start of
    that word. *)
Lemma decodeLoop_partial_word pre w p q sentences sentence :
  wire_word w -> encodeWord w = p ++ q -> q <> [] ->
  decodeLoop (pre ++ p) (length pre) sentences sentence
  = (sentences, length pre).
Proof.
  intros (Hwf & Hne & Hlen) E Hq.
  rewrite decodeLoop_step.
  destruct p as [|b p'].
  { rewrite app_nil_r, Nat.leb_refl. reflexivity. }
  rewrite length_app. cbn [length].
  destruct (Nat.leb_spec (length pre + S (length p')) (length pre)); [lia |].
  unfold encodeWord in E. cbv zeta in E.
  pose proof (utf8_encode_nonempty w Hne) as Hb.
  assert (Hpos : (0 < length (JS.utf8_encode w))%nat)
    by (destruct (JS.utf8_encode w); [contradiction | cbn; lia]).
  rewrite encodeLength_bytes in E by lia.
  destruct (prefixBytes_head (Z.of_nat (length (JS.utf8_encode w))) ltac:(lia))
    as (b0 & tl & Ehd & Hb0 & Hw).
  symmetry in E. apply app_eq_app in E.
  destruct E as (l & [(E1 & E2) | (E1 & E2)]).
  - (* the body is cut *)
    rewrite E1.
    rewrite readPrefix_prefixBytes by lia.
    destruct (Z.eqb_spec (Z.of_nat (length (JS.utf8_encode w))) 0); [lia |].
    assert (Hl : (length l < length (JS.utf8_encode w))%nat).
    { rewrite E2, length_app. destruct q; [contradiction | cbn [length]; lia]. }
    assert (Hp : length (b :: p')
                 = (length (prefixBytes (Z.of_nat (length (JS.utf8_encode w))))
                    + length l)%nat)
      by (rewrite E1, length_app; reflexivity).
    cbn [length] in Hp.
    destruct (Z.ltb_spec (Z.of_nat (length pre + S (length p')))
                (Z.of_nat (length pre
                   + length (prefixBytes (Z.of_nat (length (JS.utf8_encode w)))))
                 + Z.of_nat (length (JS.utf8_encode w)))); [reflexivity | lia].
  - (* the prefix is cut *)
    destruct l as [|x l].
    + (* the whole prefix, no body *)
      rewrite app_nil_r in E1. cbn [app] in E2. subst q.
      rewrite <- E1.
      pose proof (readPrefix_prefixBytes pre
                    (Z.of_nat (length (JS.utf8_encode w))) [] ltac:(lia)) as R.
      rewrite app_nil_r in R. rewrite R.
      destruct (Z.eqb_spec (Z.of_nat (length (JS.utf8_encode w))) 0); [lia |].
      assert (Hp : length (b :: p')
                   = length (prefixBytes (Z.of_nat (length (JS.utf8_encode w)))))
        by (rewrite E1; reflexivity).
      cbn [length] in Hp.
      destruct (Z.ltb_spec (Z.of_nat (length pre + S (length p')))
                  (Z.of_nat (length pre
                     + length (prefixBytes (Z.of_nat (length (JS.utf8_encode w)))))
                   + Z.of_nat (length (JS.utf8_encode w)))); [reflexivity | lia].
    + rewrite Ehd in E1. cbn [app] in E1. injection E1 as <- E1.
      rewrite readPrefix_short; [reflexivity | exact Hb0 |].
      rewrite Hw, Ehd. cbn [length]. rewrite E1, length_app. cbn [length]. lia.
Qed.

Lemma decodePackets_partial ss w p q :
  Forall (Forall wire_word) ss -> wire_word w ->
  encodeWord w = p ++ q -> q <> [] ->
  decodePackets (concat (map encodeSentence ss) ++ p) = (ss, p).
Proof.
  intros Hss Hw E Hq. unfold decodePackets.
  pose proof (decodeLoop_sentences ss [] p [] Hss) as H.
  cbn [app length Nat.add] in H. rewrite H.
  rewrite (decodeLoop_partial_word _ w p q) by assumption.
  rewrite drop_app_length. reflexivity.
Qed.

Lemma reassemble_partial buf chunk rest ss w p q :
  Forall (Forall wire_word) ss -> wire_word w ->
  encodeWord w = p ++ q -> q <> [] ->
  buf ++ chunk = concat (map encodeSentence ss) ++ p ->
  reassemble buf (chunk :: rest) = ss ++ reassemble p rest.
Proof.
  intros Hss Hw E Hq Hb. cbn [reassemble]. rewrite Hb.
  rewrite (decodePackets_partial ss w p q) by assumption. reflexivity.
Qed.

(** X2: A buffer that holds complete sentences and then ends inside the
    first word of the next one (inside its length prefix or its body, or
    right at the sentence boundary) loses nothing: [decodePackets] returns
    the complete sentences and exactly the unfinished bytes as remainder,
    so that the reassembler goes on from them with the next chunk; cut
    there, two chunks give the sentences of the whole stream. *)
Theorem X2_carry_over_inside_first_word :
  (forall ss w p q,
      Forall (Forall wire_word) ss -> wire_word w ->
      encodeWord w = p ++ q -> q <> [] ->
      decodePackets (concat (map encodeSentence ss) ++ p) = (ss, p))
  /\ (forall buf chunk rest ss w p q,
        Forall (Forall wire_word) ss -> wire_word w ->
        encodeWord w = p ++ q -> q <> [] ->
        buf ++ chunk = concat (map encodeSentence ss) ++ p ->
        reassemble buf (chunk :: rest) = ss ++ reassemble p rest)
  /\ (forall ss1 ss2 w ws p q,
        Forall (Forall wire_word) ss1 -> Forall (Forall wire_word) ss2 ->
        wire_word w -> Forall wire_word ws ->
        encodeWord w = p ++ q -> q <> [] ->
        reassemble []
          [concat (map encodeSentence ss1) ++ p;
           q ++ encodeSentence ws ++ concat (map encodeSentence ss2)]
        = ss1 ++ (w :: ws) :: ss2).
Proof.
  split; [exact decodePackets_partial |].
  split; [exact reassemble_partial |].
  intros ss1 ss2 w ws p q H1 H2 Hw Hws E Hq.
  rewrite (reassemble_partial [] _ _ ss1 w p q) by (assumption || reflexivity).
  f_equal. cbn [reassemble].
  replace (p ++ q ++ encodeSentence ws ++ concat (map encodeSentence ss2))
    with (concat (map encodeSentence ((w :: ws) :: ss2))).
  - rewrite decodePackets_sentences; [rewrite app_nil_r; reflexivity |].
    constructor; [constructor; assumption | assumption].
  - cbn [map concat]. rewrite encodeSentence_cons, E, <- !app_assoc. reflexivity.
Qed.

Lemma at_shift pre l k : JS.at_ (pre ++ l) (length pre + k) = JS.at_ l k.
Proof. apply at_app. Qed.

(** The prefix block reads relative to the cursor. *)
Lemma readPrefix_shift pre rest i :
  readPrefix (pre ++ rest) (length pre + i) = readPrefix rest i.
Proof.
  unfold readPrefix.
  rewrite <- !Nat.add_assoc, !at_shift, length_app.
  repeat match goal with
  | |- context [(length pre + ?a <? length pre + ?b)%nat] =>
    replace (length pre + a <? length pre + b)%nat with (a <? b)%nat
      by (destruct (Nat.ltb_spec a b), (Nat.ltb_spec (length pre + a) (length pre + b));
          try reflexivity; lia)
  end.
  reflexivity.
Qed.

Lemma subarray_shift pre rest a b :
  JS.subarray (pre ++ rest) (length pre + a) (length pre + b)
  = JS.subarray rest a b.
Proof.
  unfold JS.subarray.
  replace (length pre + b - (length pre + a))%nat with (b - a)%nat by lia.
  rewrite drop_app_add. reflexivity.
Qed.

(** The loops of the decoder on what follows a consumed part of the
    buffer run as on a buffer of its own. *)
Lemma decodeLoop_shift pre rest done : forall k i sentences sentence,
  (length rest - i <= k)%nat ->
  decodeLoop (pre ++ rest) (length pre + i) (done ++ sentences) sentence
  = (done ++ fst (decodeLoop rest i sentences sentence),
     (length pre + snd (decodeLoop rest i sentences sentence))%nat).
Proof.
  induction k as [|k IH]; intros i sentences sentence Hk;
    rewrite (decodeLoop_step (pre ++ rest)), (decodeLoop_step rest);
    rewrite readPrefix_shift, length_app;
    destruct (Nat.leb_spec (length rest) i);
    destruct (Nat.leb_spec (length pre + length rest) (length pre + i));
    try lia; try reflexivity.
  destruct (readPrefix rest i) as [|len skip] eqn:EP; [reflexivity |].
  assert (0 < skip)%nat.
  { unfold readPrefix in EP.
    repeat match type of EP with
           | (if ?c then _ else _) = _ => destruct c
           end; inversion EP; lia. }
  destruct (Z.eqb_spec len 0).
  - rewrite <- Nat.add_assoc, <- app_assoc. apply IH. lia.
  - replace (Z.of_nat (length pre + length rest) <? Z.of_nat (length pre + i + skip) + len)
      with (Z.of_nat (length rest) <? Z.of_nat (i + skip) + len)
      by (destruct (Z.ltb_spec (Z.of_nat (length rest)) (Z.of_nat (i + skip) + len)),
            (Z.ltb_spec (Z.of_nat (length pre + length rest))
               (Z.of_nat (length pre + i + skip) + len));
          try reflexivity; lia).
    destruct (Z.ltb_spec (Z.of_nat (length rest)) (Z.of_nat (i + skip) + len));
      [reflexivity |].
    rewrite <- !Nat.add_assoc, subarray_shift.
    rewrite (Nat.add_assoc i). apply IH. lia.
Qed.

(** X3: Decoding is compositional on complete sentences: whatever bytes
    follow them in the buffer, [decodePackets] returns the complete
    sentences followed by what it returns for those bytes alone, with the
    remainder it leaves of those bytes alone. *)
Theorem X3_decodePackets_after_sentences ss rest :
  Forall (Forall wire_word) ss ->
  decodePackets (concat (map encodeSentence ss) ++ rest)
  = (ss ++ fst (decodePackets rest), snd (decodePackets rest)).
Proof.
  intros Hss. unfold decodePackets.
  pose proof (decodeLoop_sentences ss [] rest [] Hss) as H.
  cbn [app length Nat.add] in H. rewrite H.
  pose proof (decodeLoop_shift (concat (map encodeSentence ss)) rest ss
                (length rest) 0 [] [] ltac:(lia)) as S.
  rewrite app_nil_r, Nat.add_0_r in S. rewrite S.
  destruct (decodeLoop rest 0 [] []) as [ss' j]. cbn [fst snd].
  rewrite drop_app_add. reflexivity.
Qed.

(* ===================================================================== *)
(** ** The connection: invariants, login, replies *)
(* ===================================================================== *)

Lemma connInv_initial o : connInv o initial.
Proof.
  unfold connInv, initial. fields.
  split; [intros _; repeat split; constructor |].
  split; [reflexivity |]. split; discriminate.
Qed.

Lemma connInv_settleLogin_failed o err s :
  loggedIn s = false -> connInv o s -> connInv o (settleLogin (LoginFailed err) s).
Proof.
  intros Hl Hs. unfold settleLogin.
  destruct (login s) eqn:E; [exact Hs |].
  destruct Hs as (H1 & H2 & H3 & H4).
  unfold connInv. fields.
  split; [exact H1 |]. split; [discriminate |]. split; discriminate.
Qed.

(** [destroyAll] once the promise is settled. *)
Lemma connInv_destroyAll o err s :
  login s <> None -> connInv o s -> connInv o (destroyAll err s).
Proof.
  intros Hn Hs. unfold destroyAll.
  destruct (destroyed s) eqn:E; [exact Hs |].
  destruct Hs as (H1 & H2 & H3 & H4).
  unfold connInv. fields.
  split; [| split; [intros K; contradiction | split; assumption]].
  intros Hl. destruct (H1 Hl) as (Hq & Hs & Hw & Hsent).
  rewrite Hq, Hs. repeat split; assumption.
Qed.

Lemma settleLogin_login_some r s : login (settleLogin r s) <> None.
Proof.
  unfold settleLogin. destruct (login s) eqn:E; [congruence |].
  fields. discriminate.
Qed.

Lemma connInv_handleSentence o s sentence :
  connInv o s -> connInv o (handleSentence s sentence).
Proof.
  intros Hs. unfold handleSentence.
  destruct sentence as [|type ws]; [exact Hs |].
  destruct (loggedIn s) eqn:Hl; cbn [negb].
  - destruct (queue s) as [|current rest] eqn:Hq; [exact Hs |].
    destruct Hs as (H1 & H2 & H3 & H4).
    destruct (isTerminal type); unfold connInv; fields;
      (split; [intros K; congruence |]);
      (split; [exact H2 | split; [intros _; exact (H3 Hl) | intros _; reflexivity]]).
  - destruct (Str.eqb type (JS.lit "!done")).
    + destruct Hs as (H1 & H2 & H3 & H4). unfold settleLogin. fields.
      destruct (login s) eqn:E; unfold connInv; fields.
      * split; [discriminate |]. split; [discriminate |].
        split; [discriminate | reflexivity].
      * split; [discriminate |]. split; [discriminate |].
        split; [discriminate | reflexivity].
    + destruct (isFailure type); [| exact Hs].
      apply connInv_destroyAll; [apply settleLogin_login_some |].
      apply connInv_settleLogin_failed; assumption.
Qed.

Lemma connInv_fold o sentences : forall s,
  connInv o s -> connInv o (fold_left handleSentence sentences s).
Proof.
  induction sentences as [|x xs IH]; intros s H; [exact H |].
  cbn [fold_left]. apply IH, connInv_handleSentence, H.
Qed.

Lemma connInv_sendLogin o s : connInv o s -> connInv o (sendLogin o s).
Proof.
  intros (H1 & H2 & H3 & H4). unfold sendLogin, connInv. fields.
  split; [| split; [| split]]; try assumption.
  intros Hl. destruct (H1 Hl) as (Hq & Hs & Hw & Hsent).
  repeat split; try assumption.
  apply Forall_app. split; [exact Hsent |].
  constructor; [reflexivity | constructor].
Qed.

Lemma connInv_handle o s e :
  (negb (isCall e) || resolved s) = true ->
  connInv o s -> connInv o (handle o s e).
Proof.
  intros Hg Hs. destruct e; cbn [handle].
  - destruct (useTls o); [exact Hs | apply connInv_sendLogin, Hs].
  - destruct (useTls o); [apply connInv_sendLogin, Hs | exact Hs].
  - unfold onData. destruct (decodePackets (buf s ++ chunk)) as [ss rem].
    apply connInv_fold. exact Hs.
  - unfold onTimeout.
    destruct (loggedIn s) eqn:Hl; cbn [negb].
    + apply connInv_destroyAll; [apply Hs, Hl | exact Hs].
    + apply connInv_destroyAll; [apply settleLogin_login_some |].
      apply connInv_settleLogin_failed; assumption.
  - unfold onError. destruct (loggedIn s) eqn:Hl; cbn [negb].
    + apply connInv_destroyAll; [apply Hs, Hl | exact Hs].
    + apply connInv_settleLogin_failed; assumption.
  - unfold onClose. cbv zeta. fields.
    destruct (queue s) eqn:Hq.
    + destruct Hs as (H1 & H2 & H3 & H4). unfold connInv. fields.
      repeat split; try assumption; try reflexivity; apply H1; assumption.
    + assert (Hl : loggedIn s = true).
      { destruct (loggedIn s) eqn:Hl; [reflexivity |].
        destruct Hs as (H1 & _). destruct (H1 Hl) as (K & _). congruence. }
      apply connInv_destroyAll; [fields; apply Hs, Hl |].
      destruct Hs as (H1 & H2 & H3 & H4). unfold connInv. fields.
      rewrite <- Hq. repeat split; try assumption; apply H1; assumption.
  - cbn [isCall negb orb] in Hg. unfold resolved in Hg.
    destruct (login s) as [[|]|] eqn:E; try discriminate.
    destruct Hs as (H1 & H2 & H3 & H4). pose proof (H4 E) as Hl.
    unfold write. destruct (destroyed s); unfold connInv; fields;
      rewrite E; (split; [intros K; congruence |]);
      (split; [discriminate | split; [discriminate | intros _; exact Hl]]).
  - cbn [isCall negb orb] in Hg. unfold resolved in Hg.
    destruct (login s) as [[|]|] eqn:E; try discriminate.
    unfold close. apply connInv_destroyAll; [congruence | exact Hs].
Qed.

Lemma connInv_run o events : forall s,
  clientRun o s events = true -> connInv o s -> connInv o (run o events s).
Proof.
  induction events as [|e es IH]; intros s Hg H; [exact H |].
  cbn [clientRun] in Hg. apply andb_true_iff in Hg as [Hg1 Hg2].
  cbn [run fold_left]. apply (IH (handle o s e)); [exact Hg2 |].
  apply connInv_handle; assumption.
Qed.

(** X4: Along every run of a client (socket events at any time, calls of
    [api] once the promise of [rosConnect] is resolved): while the
    connection is not logged in no request exists (the queue is empty,
    nothing has been settled, [write] was never called) and every buffer
    handed to the socket is the login sentence; while the promise is
    unsettled the connection is not marked destroyed; a logged-in
    connection has settled the promise; and the promise is resolved only
    on a logged-in connection. *)
Theorem X4_connection_invariants o events :
  clientRun o initial events = true ->
  let s := run o events initial in
  (loggedIn s = false ->
   queue s = [] /\ settled s = [] /\ writes s = 0%nat
   /\ Forall (fun bytes => bytes = loginSentence o) (sent s))
  /\ (login s = None -> destroyed s = false)
  /\ (loggedIn s = true -> login s <> None)
  /\ (login s = Some LoginOk -> loggedIn s = true).
Proof.
  intros Hg. exact (connInv_run o events initial Hg (connInv_initial o)).
Qed.

(** The sentences of one reply go to the head of the queue, which the
    last of them settles. *)
Lemma fold_reply rows : forall s current rest type ws,
  loggedIn s = true -> queue s = current :: rest ->
  isTerminal type = true ->
  Forall (fun r => match r with
                   | t :: _ => isTerminal t = false
                   | [] => False
                   end) rows ->
  let s' := fold_left handleSentence (rows ++ [type :: ws]) s in
  loggedIn s' = true /\ buf s' = buf s /\ queue s' = rest
  /\ settled s'
     = settled s ++ [(caller current,
                      outcomeOf (accumulator current ++ rows ++ [type :: ws]))].
Proof.
  induction rows as [|r rows IH]; intros s current rest type ws Hl Hq Ht Hrows;
    cbv zeta.
  - cbn [app fold_left].
    rewrite (handleSentence_head s current rest type ws Hl Hq). rewrite Ht.
    fields. repeat split.
    unfold outcomeOf. rewrite last_snoc. reflexivity.
  - inversion Hrows as [|? ? Hr Hrows']; subst.
    destruct r as [|t rw]; [contradiction |].
    cbn [app fold_left].
    rewrite (handleSentence_head s current rest t rw Hl Hq). rewrite Hr.
    match goal with
    | |- context [fold_left handleSentence _ ?s1] =>
      pose proof (IH s1 {| caller := caller current;
                           accumulator := accumulator current ++ [t :: rw] |}
                    rest type ws eq_refl eq_refl Ht Hrows') as H
    end.
    cbv zeta in H. fields. destruct H as (H1 & H2 & H3 & H4).
    rewrite H1, H2, H3, H4. repeat split.
    rewrite <- (app_assoc (accumulator current)). reflexivity.
Qed.

Lemma fold_replies groups : forall s,
  loggedIn s = true ->
  Forall isReply groups ->
  (length groups <= length (queue s))%nat ->
  Forall (fun item => accumulator item = []) (queue s) ->
  let s' := fold_left handleSentence (concat groups) s in
  loggedIn s' = true /\ buf s' = buf s
  /\ queue s' = drop (length groups) (queue s)
  /\ settled s'
     = settled s ++ zip_with (fun item g => (caller item, outcomeOf g))
                      (queue s) groups.
Proof.
  induction groups as [|g groups IH]; intros s Hl Hg Hlen Hacc; cbv zeta.
  - cbn [concat fold_left length]. rewrite drop_0.
    destruct (queue s); cbn [zip_with]; rewrite app_nil_r; repeat split; exact Hl.
  - inversion Hg as [|? ? (rows & type & ws & -> & Ht & Hrows) Hg']; subst.
    destruct (queue s) as [|current rest] eqn:Hq; [cbn [length] in Hlen; lia |].
    inversion Hacc as [|? ? Hc Hrest]; subst.
    cbn [concat]. rewrite fold_left_app.
    pose proof (fold_reply rows s current rest type ws Hl Hq Ht Hrows) as H.
    cbv zeta in H. destruct H as (H1 & H2 & H3 & H4).
    pose proof (IH (fold_left handleSentence (rows ++ [type :: ws]) s) H1 Hg') as H.
    rewrite H3 in H. cbn [length] in Hlen.
    specialize (H ltac:(lia) Hrest). cbv zeta in H.
    destruct H as (K1 & K2 & K3 & K4).
    rewrite K1, K2, K3, K4, H2, H4, Hc. cbn [app zip_with length drop].
    rewrite <- app_assoc. repeat split.
Qed.

(** X5: On a logged-in connection with an empty buffer, a chunk that
    carries the complete replies to the first [n] queued requests (each
    reply: sentences that are not terminal, then a terminal one) settles
    exactly these [n] requests, in order, each from the sentences of its
    own reply, and leaves the rest of the queue and an empty buffer. *)
Theorem X5_replies_matched_in_order s groups :
  loggedIn s = true -> buf s = [] ->
  Forall isReply groups ->
  Forall (Forall (Forall wire_word)) groups ->
  (length groups <= length (queue s))%nat ->
  Forall (fun item => accumulator item = []) (queue s) ->
  let s' := onData (concat (map encodeSentence (concat groups))) s in
  settled s'
  = settled s ++ zip_with (fun item g => (caller item, outcomeOf g))
                   (queue s) groups
  /\ queue s' = drop (length groups) (queue s)
  /\ buf s' = [].
Proof.
  intros Hl Hb Hg Hw Hlen Hacc. cbv zeta.
  rewrite onData_sentences; [| exact Hb |].
  - destruct (fold_replies groups s Hl Hg Hlen Hacc) as (H1 & H2 & H3 & H4).
    rewrite H4, H3, H2, Hb. repeat split.
  - apply Forall_concat. exact Hw.
Qed.

(** X6: While the promise of [rosConnect] is unsettled, in a run of a
    client, a socket error rejects the promise with that error and does
    nothing else: no request exists, nothing is written and the
    connection is not marked destroyed.  The close event that follows
    settles nothing, so the promise keeps the socket error.  A close
    event that comes without an error leaves the promise unsettled. *)
Theorem X6_error_before_login_then_close o events err :
  clientRun o initial events = true ->
  let s := run o events initial in
  login s = None ->
  let s1 := handle o s (SockError err) in
  let s2 := handle o s1 SockClose in
  let s3 := handle o s SockClose in
  (login s1 = Some (LoginFailed err) /\ destroyed s1 = false
   /\ queue s1 = [] /\ settled s1 = [] /\ sent s1 = sent s)
  /\ (login s2 = Some (LoginFailed err) /\ destroyed s2 = false
      /\ queue s2 = [] /\ settled s2 = [] /\ sent s2 = sent s)
  /\ (login s3 = None /\ destroyed s3 = false
      /\ queue s3 = [] /\ settled s3 = [] /\ sent s3 = sent s).
Proof.
  intros Hg s Hn.
  destruct (connInv_run o events initial Hg (connInv_initial o))
    as (H1 & H2 & H3 & H4).
  fold s in H1, H2, H3, H4.
  assert (Hl : loggedIn s = false).
  { destruct (loggedIn s) eqn:Hl; [exfalso; exact (H3 eq_refl Hn) | reflexivity]. }
  destruct (H1 Hl) as (Hq & Hs & Hw & _). pose proof (H2 Hn) as Hd.
  cbv zeta. cbn [handle]. unfold onError, onClose. rewrite Hl. cbn [negb].
  unfold settleLogin. rewrite Hn. fields. rewrite Hq. fields.
  repeat split; assumption.
Qed.

(** X7: A close event on a connection with no request queued calls the
    cleanup hook and nothing else: the connection is not marked
    destroyed.  A [write] made after it is queued and handed to the
    socket, and is not rejected. *)
Theorem X7_write_after_idle_close s words :
  destroyed s = false -> queue s = [] ->
  let s1 := onClose s in
  let s2 := write words s1 in
  destroyed s1 = false /\ sockDestroyed s1 = sockDestroyed s
  /\ onCloseCalls s1 = S (onCloseCalls s)
  /\ queue s2 = [{| caller := writes s; accumulator := [] |}]
  /\ settled s2 = settled s
  /\ sent s2 = sent s ++ [encodeSentence words].
Proof.
  intros Hd Hq. cbv zeta. unfold onClose. cbv zeta. fields. rewrite Hq.
  unfold write. fields. rewrite Hd. fields.
  repeat split; assumption.
Qed.

Lemma startsWith_app p m : is_str p -> Str.startsWith (p ++ m) p = true.
Proof.
  induction 1 as [|c p Hc _ IH]; [destruct m; reflexivity |].
  cbn [app Str.startsWith]. rewrite Z.eqb_refl. exact IH.
Qed.

(** X8: How the login ends on a connection that is not logged in: a
    [!done] sentence resolves the promise of [rosConnect] and touches no
    request; a [!trap] or [!fatal] sentence rejects it with the text after
    [=message=] (with "Login failed" when the sentence has no such word),
    destroys the socket and rejects every queued request with the same
    error; a timeout does the same with the error naming host and
    port. *)
Theorem X8_login_outcome :
  (forall s ws,
      loggedIn s = false -> login s = None -> buf s = [] ->
      Forall wire_word (JS.lit "!done" :: ws) ->
      let s' := onData (encodeSentence (JS.lit "!done" :: ws)) s in
      login s' = Some LoginOk /\ loggedIn s' = true
      /\ queue s' = queue s /\ settled s' = settled s
      /\ destroyed s' = destroyed s)
  /\ (forall s type m,
        loggedIn s = false -> login s = None -> destroyed s = false ->
        buf s = [] ->
        type = JS.lit "!trap" \/ type = JS.lit "!fatal" ->
        wire_word (JS.lit "=message=" +++ m) ->
        let s' := onData (encodeSentence [type; JS.lit "=message=" +++ m]) s in
        login s' = Some (LoginFailed m)
        /\ destroyed s' = true /\ sockDestroyed s' = true
        /\ queue s' = []
        /\ settled s'
           = settled s
             ++ map (fun item => (caller item, Rejected m)) (queue s))
  /\ (forall s type,
        loggedIn s = false -> login s = None -> destroyed s = false ->
        buf s = [] ->
        type = JS.lit "!trap" \/ type = JS.lit "!fatal" ->
        let s' := onData (encodeSentence [type]) s in
        login s' = Some (LoginFailed (JS.lit "Login failed"))
        /\ destroyed s' = true /\ sockDestroyed s' = true)
  /\ (forall o s,
        loggedIn s = false -> login s = None -> destroyed s = false ->
        let err := JS.lit "Connection timeout ke " +++ host o
                   +++ JS.lit ":" +++ port o in
        let s' := handle o s SockTimeout in
        login s' = Some (LoginFailed err)
        /\ destroyed s' = true /\ sockDestroyed s' = true
        /\ settled s'
           = settled s
             ++ map (fun item => (caller item, Rejected err)) (queue s)).
Proof.
  split; [| split; [| split]].
  - intros s ws Hl Hn Hb Hw. cbv zeta.
    pose proof (onData_sentences [JS.lit "!done" :: ws] s Hb
                  ltac:(constructor; [exact Hw | constructor])) as E.
    cbn [map concat] in E. rewrite app_nil_r in E. rewrite E.
    cbn [fold_left]. unfold handleSentence. rewrite Hl. cbn [negb].
    change (Str.eqb (JS.lit "!done") (JS.lit "!done")) with true. cbv iota.
    unfold settleLogin. fields. rewrite Hn. fields. repeat split.
  - intros s type m Hl Hn Hd Hb Ht Hw. cbv zeta.
    assert (Hty : wire_word type) by (destruct Ht as [-> | ->]; vm_compute; intuition congruence).
    pose proof (onData_sentences [[type; JS.lit "=message=" +++ m]] s Hb
                  ltac:(constructor;
                          [constructor; [exact Hty | constructor; [exact Hw | constructor]]
                          | constructor])) as E.
    cbn [map concat] in E. rewrite app_nil_r in E. rewrite E.
    cbn [fold_left]. unfold handleSentence. rewrite Hl. cbn [negb].
    assert (Hdone : Str.eqb type (JS.lit "!done") = false)
      by (destruct Ht as [-> | ->]; reflexivity).
    assert (Hfail : isFailure type = true) by (apply isFailure_spec; exact Ht).
    rewrite Hdone, Hfail.
    assert (Hmsg : messageOf [type; JS.lit "=message=" +++ m] (JS.lit "Login failed") = m).
    { change [type; JS.lit "=message=" +++ m]
        with ([type] ++ (JS.lit "=message=" +++ m) :: []).
      rewrite messageOf_first.
      - unfold Str.slice_from, Str.cat.
        change 9%nat with (length (JS.lit "=message=")).
        apply drop_app_length.
      - constructor; [| constructor]. destruct Ht as [-> | ->]; reflexivity.
      - apply startsWith_app, is_str_lit. }
    rewrite Hmsg. unfold settleLogin. rewrite Hn. unfold destroyAll. fields.
    rewrite Hd. fields. repeat split.
  - intros s type Hl Hn Hd Hb Ht. cbv zeta.
    assert (Hty : wire_word type) by (destruct Ht as [-> | ->]; vm_compute; intuition congruence).
    pose proof (onData_sentences [[type]] s Hb
                  ltac:(constructor;
                          [constructor; [exact Hty | constructor] | constructor])) as E.
    cbn [map concat] in E. rewrite app_nil_r in E. rewrite E.
    cbn [fold_left]. unfold handleSentence. rewrite Hl. cbn [negb].
    assert (Hdone : Str.eqb type (JS.lit "!done") = false)
      by (destruct Ht as [-> | ->]; reflexivity).
    assert (Hfail : isFailure type = true) by (apply isFailure_spec; exact Ht).
    rewrite Hdone, Hfail.
    rewrite messageOf_none
      by (constructor; [destruct Ht as [-> | ->]; reflexivity | constructor]).
    unfold settleLogin. rewrite Hn. unfold destroyAll. fields.
    rewrite Hd. fields. repeat split.
  - intros o s Hl Hn Hd. cbv zeta. cbn [handle]. unfold onTimeout.
    rewrite Hl. cbn [negb]. unfold settleLogin. rewrite Hn.
    unfold destroyAll. fields. rewrite Hd. fields. repeat split.
Qed.

Lemma index_app_sep c k v :
  includes k c = false -> Str.index c (k ++ c :: v) = Some (length k).
Proof.
  unfold includes. induction k as [|d k IH]; intros H.
  - cbn [app Str.index length]. rewrite Z.eqb_refl. reflexivity.
  - cbn [existsb] in H. apply orb_false_iff in H as [Hd Hk].
    cbn [app Str.index length]. rewrite Hd, (IH Hk). reflexivity.
Qed.

Lemma splitAttr_attributeWord k v :
  includes k 61 = false -> splitAttr (attributeWord (k, v)) = Some (k, v).
Proof.
  intros H. unfold splitAttr, attributeWord. cbn [fst snd].
  rewrite index_app_sep by exact H.
  rewrite take_app_length.
  replace (S (length k)) with (length (k ++ [61])) by (rewrite length_app; cbn; lia).
  rewrite (cons_middle 61 k v), app_assoc, drop_app_length.
  reflexivity.
Qed.

Lemma fold_attributes kvs : forall obj : Row,
  Forall (fun kv => plainKey (fst kv)) kvs ->
  fold_left (fun obj w => match splitAttr w with
                          | Some (k, v) => setProp obj k v
                          | None => obj
                          end) (map attributeWord kvs) obj
  = fold_left (fun obj kv => <[fst kv := snd kv]> obj) kvs obj.
Proof.
  induction kvs as [|[k v] kvs IH]; intros obj H; [reflexivity |].
  inversion H as [|? ? [Hk Hp] H']; subst. cbn [fst] in Hk, Hp.
  cbn [map fold_left]. rewrite splitAttr_attributeWord by exact Hk.
  unfold setProp at 2. unfold Str.eqb. rewrite bool_decide_eq_false_2 by exact Hp.
  apply IH, H'.
Qed.

Lemma fold_insert_list_to_map (kvs : list (JS.str * JS.str)) : forall obj : Row,
  fold_left (fun obj kv => <[fst kv := snd kv]> obj) kvs obj
  = list_to_map (rev kvs) ∪ obj.
Proof.
  induction kvs as [|[k v] kvs IH]; intros obj.
  - cbn. rewrite (left_id_L ∅ (∪)). reflexivity.
  - cbn [fold_left rev fst snd]. rewrite IH, list_to_map_app.
    rewrite <- (assoc_L (∪)). f_equal.
    change (list_to_map [(k, v)] : Row) with (<[k := v]> (∅ : Row)).
    rewrite insert_empty, <- insert_union_singleton_l. reflexivity.
Qed.

Lemma parseRow_attributes tag (kvs : list (JS.str * JS.str)) :
  Forall (fun kv => plainKey (fst kv)) kvs ->
  parseRow (tag :: map attributeWord kvs) = list_to_map (rev kvs).
Proof.
  intros H. rewrite parseRow_rowOfAttrs. unfold rowOfAttrs. cbn [tail].
  rewrite fold_attributes by exact H.
  rewrite fold_insert_list_to_map. apply (right_id_L ∅ (∪)).
Qed.

Lemma not_in_rev_keys (k : JS.str) (kvs : list (JS.str * JS.str)) :
  ~ In k (map fst kvs) -> k ∉ (rev kvs).*1.
Proof.
  intros Hk Hin. apply Hk. apply list_elem_of_In in Hin.
  apply in_map_iff in Hin as (x & Hx & Hin). apply in_rev in Hin.
  apply in_map_iff. exists x. split; assumption.
Qed.

(** The value of a key in a parsed row is that of the last attribute
    word with the key. *)
Lemma parseRow_attributes_lookup tag before k v after :
  Forall (fun kv => plainKey (fst kv)) (before ++ (k, v) :: after) ->
  ~ In k (map fst after) ->
  parseRow (tag :: map attributeWord (before ++ (k, v) :: after)) !! k = Some v.
Proof.
  intros H Hk. rewrite parseRow_attributes by exact H.
  rewrite rev_app_distr. cbn [rev]. rewrite <- app_assoc.
  rewrite list_to_map_app. cbn [app].
  rewrite lookup_union_r.
  - change (list_to_map ((k, v) :: rev before) : Row)
      with (<[k := v]> (list_to_map (rev before) : Row)).
    apply lookup_insert_eq.
  - apply not_elem_of_list_to_map_1, not_in_rev_keys, Hk.
Qed.

(** X9: A reply row whose attribute words are [=key=value], with keys
    that hold no [=] and are not [__proto__], parses to the dictionary of
    these pairs: the value of a key is that of the last word with the key,
    whatever characters the value holds ([=] included), and a key no word
    carries is absent. *)
Theorem X9_parseRow_of_attributes tag (kvs : list (JS.str * JS.str)) :
  Forall (fun kv => plainKey (fst kv)) kvs ->
  parseRow (tag :: map attributeWord kvs) = list_to_map (rev kvs)
  /\ (forall before k v after,
        kvs = before ++ (k, v) :: after ->
        ~ In k (map fst after) ->
        parseRow (tag :: map attributeWord kvs) !! k = Some v)
  /\ (forall k, ~ In k (map fst kvs) ->
        parseRow (tag :: map attributeWord kvs) !! k = None).
Proof.
  intros H. split; [exact (parseRow_attributes tag kvs H) | split].
  - intros before k v after -> Hk.
    apply parseRow_attributes_lookup; assumption.
  - intros k Hk. rewrite parseRow_attributes by exact H.
    apply not_elem_of_list_to_map_1, not_in_rev_keys, Hk.
Qed.

(* ===================================================================== *)
(** ** Transport modes *)
(* ===================================================================== *)

(** X10: The transports of [rosConnect].  Without TLS the login sentence
    is written on ["connect"].  With TLS and no fingerprint configured,
    with or without a CA certificate, the option [checkServerIdentity] is
    [undefined] and [tls.connect] throws: the promise of [rosConnect] is
    rejected with that exception and nothing is written.  With TLS and a
    fingerprint the login sentence is written exactly when the chain
    verification accepts the certificate and its digest equals the
    normalised fingerprint (the host name is not checked); otherwise the
    socket fails with the chain error, or else with the mismatch error,
    the promise is rejected with it and nothing is written. *)
Theorem X10_transport_modes
    (sha256_hex : list JS.byte -> JS.str) (toLowerCase : JS.str -> JS.str)
    (notFunction : Error) (o : Options) (chainError : option Error)
    (der : list JS.byte) :
  let s := rosConnect sha256_hex toLowerCase notFunction o chainError der in
  (useTls o = false ->
   socketOpens sha256_hex toLowerCase notFunction o chainError der
   = Opens [SockConnect]
   /\ sent s = [loginSentence o] /\ login s = None)
  /\ (useTls o = true -> truthy (caFingerprint o) = false ->
      socketOpens sha256_hex toLowerCase notFunction o chainError der
      = TlsThrows notFunction
      /\ sent s = [] /\ login s = Some (LoginFailed notFunction))
  /\ (forall fp,
        useTls o = true -> caFingerprint o = Some fp -> fp <> [] ->
        (chainError = None
         /\ sha256_hex der = toLowerCase (stripSeparators fp) ->
         socketOpens sha256_hex toLowerCase notFunction o chainError der
         = Opens [SockSecureConnect]
         /\ sent s = [loginSentence o] /\ login s = None)
        /\ (forall e,
              chainError = Some e ->
              socketOpens sha256_hex toLowerCase notFunction o chainError der
              = Opens [SockError e; SockClose]
              /\ sent s = [] /\ login s = Some (LoginFailed e))
        /\ (chainError = None ->
            sha256_hex der <> toLowerCase (stripSeparators fp) ->
            socketOpens sha256_hex toLowerCase notFunction o chainError der
            = Opens [SockError (mismatchError sha256_hex toLowerCase fp der);
                     SockClose]
            /\ sent s = []
            /\ login s
               = Some (LoginFailed
                         (mismatchError sha256_hex toLowerCase fp der)))).
Proof.
  cbv zeta. unfold rosConnect.
  split; [| split].
  - intros Htls. unfold socketOpens, run. rewrite Htls.
    cbn [fold_left handle]. rewrite Htls. repeat split.
  - intros Htls Hfp. unfold socketOpens. rewrite Htls.
    destruct (caFingerprint o) as [[|c cs]|]; try discriminate Hfp;
      repeat split.
  - intros fp Htls Hfp Hne.
    rewrite (socketOpens_pinned sha256_hex toLowerCase notFunction o fp der
               chainError Htls Hfp Hne).
    split; [| split].
    + intros [-> Hm].
      rewrite bool_decide_eq_false_2 by (intros K; exact (K Hm)).
      unfold run. cbn [fold_left handle]. rewrite Htls. repeat split.
    + intros e ->. repeat split.
    + intros -> Hm. rewrite bool_decide_eq_true_2 by exact Hm.
      repeat split.
Qed.

(* ===================================================================== *)
(** ** Numbers read back from their text *)
(* ===================================================================== *)

Lemma digitValue_hexDigit d : 0 <= d < 36 -> digitValue (hexDigit d) = Some d.
Proof.
  intros H. unfold hexDigit, digitValue.
  destruct (Z.ltb_spec d 10).
  - destruct (Z.leb_spec 48 (48 + d)), (Z.leb_spec (48 + d) 57); try lia.
    cbn [andb]. f_equal. lia.
  - destruct (Z.leb_spec 48 (87 + d)), (Z.leb_spec (87 + d) 57); try lia.
    cbn [andb].
    destruct (Z.leb_spec 97 (87 + d)), (Z.leb_spec (87 + d) 122); try lia.
    cbn [andb]. f_equal. lia.
Qed.

Lemma fold_digits_app radix (x y : list Z) (f : Z -> Z) a :
  fold_left (fun a c => a * radix + f c) (x ++ y) a
  = fold_left (fun a c => a * radix + f c) y
      (fold_left (fun a c => a * radix + f c) x a).
Proof. apply fold_left_app. Qed.

Lemma fold_digits_shift radix (f : Z -> Z) (y : list Z) : forall a,
  fold_left (fun a c => a * radix + f c) y a
  = a * radix ^ Z.of_nat (length y)
    + fold_left (fun a c => a * radix + f c) y 0.
Proof.
  induction y as [|c y IH]; intros a.
  - cbn. lia.
  - cbn [fold_left length]. rewrite IH, (IH (0 * radix + f c)).
    rewrite Nat2Z.inj_succ, Z.pow_succ_r by lia. lia.
Qed.

Lemma digits_digitString radix : 2 <= radix <= 36 ->
  forall fuel n acc,
    0 <= n -> digitString radix acc ->
    digitString radix (digits fuel radix n acc).
Proof.
  intros HR. induction fuel as [|fuel IH]; intros n acc Hn Hacc; [exact Hacc |].
  cbn [digits].
  assert (Hd : digitString radix (hexDigit (n mod radix) :: acc)).
  { constructor; [| exact Hacc].
    pose proof (Z.mod_pos_bound n radix ltac:(lia)).
    exists (n mod radix). split; [apply digitValue_hexDigit; lia | lia]. }
  destruct (n / radix =? 0); [exact Hd |].
  apply IH; [apply Z.div_pos; lia | exact Hd].
Qed.

Lemma digits_number radix : 2 <= radix <= 36 ->
  forall fuel n acc,
    0 <= n < radix ^ Z.of_nat fuel ->
    digitsNumber radix (digits fuel radix n acc)
    = n * radix ^ Z.of_nat (length acc) + digitsNumber radix acc.
Proof.
  intros HR. unfold digitsNumber.
  induction fuel as [|fuel IH]; intros n acc Hn.
  - cbn in Hn. cbn [digits]. replace n with 0 by lia. lia.
  - cbn [digits].
    pose proof (Z.mod_pos_bound n radix ltac:(lia)) as Hm.
    pose proof (Z.div_mod n radix ltac:(lia)) as Hdm.
    assert (Hhd : forall a,
      fold_left (fun a c => a * radix + default 0 (digitValue c))
        (hexDigit (n mod radix) :: acc) a
      = (a * radix + n mod radix) * radix ^ Z.of_nat (length acc)
        + fold_left (fun a c => a * radix + default 0 (digitValue c)) acc 0).
    { intros a. cbn [fold_left]. rewrite digitValue_hexDigit by lia.
      cbn [default]. apply fold_digits_shift. }
    destruct (Z.eqb_spec (n / radix) 0) as [E|E].
    + rewrite Hhd. rewrite E in Hdm. f_equal. f_equal. lia.
    + rewrite IH.
      * rewrite Hhd. cbn [length]. rewrite Nat2Z.inj_succ, Z.pow_succ_r by lia.
        generalize (radix ^ Z.of_nat (length acc)) as P.
        generalize (fold_left (fun a c => a * radix + default 0 (digitValue c)) acc 0).
        intros. nia.
      * split; [apply Z.div_pos; lia |].
        apply Z.div_lt_upper_bound; [lia |].
        rewrite Nat2Z.inj_succ, Z.pow_succ_r in Hn by lia. lia.
Qed.

Lemma log2_fuel radix n :
  2 <= radix -> 0 <= n -> n < radix ^ Z.of_nat (S (Z.to_nat (Z.log2 n))).
Proof.
  intros HR Hn. rewrite Nat2Z.inj_succ, Z2Nat.id by apply Z.log2_nonneg.
  destruct (Z.eq_dec n 0) as [->|Hne].
  - cbn. lia.
  - pose proof (Z.log2_spec n ltac:(lia)) as [_ H].
    eapply Z.lt_le_trans; [exact H |].
    apply Z.pow_le_mono_l. pose proof (Z.log2_nonneg n). lia.
Qed.

(** The text of a number that is not negative is a string of digits
    that denotes it. *)
Lemma Number_toString_digits n radix :
  2 <= radix <= 36 -> 0 <= n ->
  digitString radix (Number_toString n radix)
  /\ digitsNumber radix (Number_toString n radix) = n
  /\ Number_toString n radix <> [].
Proof.
  intros HR Hn. unfold Number_toString.
  destruct (Z.ltb_spec n 0); [lia |].
  split; [apply digits_digitString; [exact HR | exact Hn | constructor] |].
  split.
  - rewrite digits_number; [cbn; lia | exact HR |].
    split; [exact Hn | apply log2_fuel; lia].
  - assert (forall f m (acc : JS.str), acc <> [] -> digits f radix m acc <> []) as K.
    { induction f as [|f IH]; intros m acc Ha; [exact Ha |].
      cbn [digits]. destruct (m / radix =? 0); [discriminate |].
      apply IH. discriminate. }
    cbn [digits]. destruct (n / radix =? 0); [discriminate |].
    apply K. discriminate.
Qed.

(** The digits read from a string of digits followed by a character that
    is not a digit of the radix. *)
Lemma takeDigits_digitString radix s rest :
  digitString radix s ->
  takeDigits radix rest = [] ->
  takeDigits radix (s ++ rest) = map (fun c => default 0 (digitValue c)) s.
Proof.
  intros Hs Hrest. induction Hs as [|c s (d & Hd & Hr) _ IH]; [exact Hrest |].
  cbn [app takeDigits map]. rewrite Hd. cbn [default].
  destruct (Z.ltb_spec d radix); [| lia]. f_equal. exact IH.
Qed.

Lemma fold_left_map_digits radix (s : JS.str) : forall a,
  fold_left (fun a d => a * radix + d)
    (map (fun c => default 0 (digitValue c)) s) a
  = fold_left (fun a c => a * radix + default 0 (digitValue c)) s a.
Proof. induction s as [|c s IH]; intros a; [reflexivity | apply IH]. Qed.

Lemma digitString_head radix c s :
  digitString radix (c :: s) -> radix <= 36 ->
  isWhiteSpace c = false /\ c <> 45 /\ c <> 43
  /\ (48 <= c <= 57 \/ 97 <= c <= 122 \/ 65 <= c <= 90).
Proof.
  intros H HR. inversion H as [|? ? (d & Hd & Hr) _]; subst.
  unfold digitValue in Hd.
  assert (Hc : 48 <= c <= 57 \/ 97 <= c <= 122 \/ 65 <= c <= 90).
  { repeat match type of Hd with
           | (if ?a && ?b then _ else _) = _ =>
             destruct (andb_spec a b); [| clear Hd]
           | (if ?c then _ else _) = _ => destruct c eqn:?
           end; try discriminate; lia || idtac.
    all: repeat match goal with
         | H : (_ && _)%bool = true |- _ => apply andb_true_iff in H; destruct H
         | H : (_ <=? _) = true |- _ => apply Z.leb_le in H
         end; lia. }
  split; [| split; [lia | split; [lia | exact Hc]]].
  unfold isWhiteSpace.
  repeat match goal with
         | |- context [?a <=? ?b] => destruct (Z.leb_spec a b); try lia
         | |- context [?a =? ?b] => destruct (Z.eqb_spec a b); try lia
         end; reflexivity.
Qed.

(** Reading back the text of a number that is not negative, in the radix
    it was written in. *)
Lemma parseInt_Number_toString n radix :
  radix = 10 \/ radix = 16 -> 0 <= n ->
  parseInt (Some (Number_toString n radix)) radix = Some n.
Proof.
  intros HR Hn.
  assert (HR' : 2 <= radix <= 36) by lia.
  destruct (Number_toString_digits n radix HR' Hn) as (Hds & Hnum & Hne).
  unfold parseInt.
  destruct (Number_toString n radix) as [|c s] eqn:E; [contradiction |].
  destruct (digitString_head radix c s Hds ltac:(lia)) as (Hws & Hm & Hp & Hc).
  cbn [trimStart]. rewrite Hws.
  destruct (Z.eqb_spec c 45); [contradiction |].
  destruct (Z.eqb_spec c 43); [contradiction |].
  assert (HT : JS.toInt32 radix = radix) by (destruct HR as [-> | ->]; reflexivity).
  rewrite HT.
  assert (HZ : (radix =? 0) = false) by (destruct HR as [-> | ->]; reflexivity).
  assert (HB : ((radix <? 2) || (36 <? radix)) = false)
    by (destruct HR as [-> | ->]; reflexivity).
  rewrite HZ, HB. cbn [negb andb orb].
  assert (HS : (let '(R2, S2) :=
                  match c :: s with
                  | z :: x :: rest =>
                    if (radix =? 16) && (z =? 48) && ((x =? 120) || (x =? 88))
                    then (16, rest) else (radix, c :: s)
                  | _ => (radix, c :: s)
                  end in
                match takeDigits R2 S2 with
                | [] => None
                | ds => Some (1 * fold_left (fun a d => a * R2 + d) ds 0)
                end) = Some n); [| exact HS].
  assert (Hx : match s with
               | x :: _ => ((x =? 120) || (x =? 88)) = false
               | [] => True
               end).
  { destruct s as [|x s']; [exact I |].
    inversion Hds as [|? ? _ Hs']; subst.
    inversion Hs' as [|? ? (d & Hd & Hr) _]; subst.
    destruct (Z.eqb_spec x 120) as [->|];
      [cbn in Hd; injection Hd as <-; lia |].
    destruct (Z.eqb_spec x 88) as [->|];
      [cbn in Hd; injection Hd as <-; lia |].
    reflexivity. }
  assert (HS2 : match c :: s with
                | z :: x :: rest =>
                  if (radix =? 16) && (z =? 48) && ((x =? 120) || (x =? 88))
                  then (16, rest) else (radix, c :: s)
                | _ => (radix, c :: s)
                end = (radix, c :: s)).
  { destruct s as [|x s']; [reflexivity |]. rewrite Hx, andb_false_r. reflexivity. }
  rewrite HS2.
  pose proof (takeDigits_digitString radix (c :: s) [] Hds eq_refl) as HT2.
  rewrite app_nil_r in HT2. rewrite HT2.
  cbn [map]. rewrite fold_left_map_digits with (s := c :: s).
  unfold digitsNumber in Hnum. rewrite Hnum. f_equal. lia.
Qed.

(* ===================================================================== *)
(** ** Free and taken addresses *)
(* ===================================================================== *)

Lemma usedHosts_spec peers : forall (u4 u6 : gset Z) k,
  let '(v4, v6) := fold_left addUsed peers (u4, u6) in
  (k ∈ v4 \/ k ∈ v6) <-> (k ∈ u4 \/ k ∈ u6) \/ Exists (usesHost k) peers.
Proof.
  induction peers as [|p peers IH]; intros u4 u6 k.
  - cbn [fold_left]. rewrite Exists_nil. tauto.
  - cbn [fold_left]. unfold addUsed at 2. cbv zeta.
    match goal with
    | |- context [fold_left addUsed peers (?a, ?b)] => specialize (IH a b k)
    end.
    destruct (fold_left addUsed peers _) as [v4 v6].
    rewrite IH, Exists_cons. unfold usesHost at 2.
    destruct (parseLastOctetV4 (Peer.ipv4 p)) as [x|],
             (parseLastSegmentV6 (Peer.ipv6 p)) as [y|];
      rewrite ?elem_of_union, ?elem_of_singleton;
      intuition (try congruence); subst; auto.
Qed.

Lemma firstFree_spec (u4 u6 : gset Z) : forall n host,
  match firstFree n host u4 u6 with
  | Some h =>
    host <= h < host + Z.of_nat n /\ ~ (h ∈ u4 \/ h ∈ u6)
    /\ forall k, host <= k < h -> k ∈ u4 \/ k ∈ u6
  | None => forall k, host <= k < host + Z.of_nat n -> k ∈ u4 \/ k ∈ u6
  end.
Proof.
  induction n as [|n IH]; intros host.
  - cbn. intros k Hk. lia.
  - cbn [firstFree].
    destruct (bool_decide (host ∉ u4)) eqn:E4;
      [destruct (bool_decide (host ∉ u6)) eqn:E6 |]; cbn [andb].
    + apply bool_decide_eq_true in E4, E6.
      split; [lia | split; [tauto | intros k Hk; lia]].
    + apply bool_decide_eq_false in E6.
      specialize (IH (host + 1)).
      destruct (firstFree n (host + 1) u4 u6) as [h|].
      * destruct IH as (Hr & Hf & Hs). split; [lia | split; [exact Hf |]].
        intros k Hk. destruct (Z.eq_dec k host) as [->|];
          [right; destruct (decide (host ∈ u6)); tauto | apply Hs; lia].
      * intros k Hk. destruct (Z.eq_dec k host) as [->|];
          [right; destruct (decide (host ∈ u6)); tauto | apply IH; lia].
    + apply bool_decide_eq_false in E4.
      specialize (IH (host + 1)).
      destruct (firstFree n (host + 1) u4 u6) as [h|].
      * destruct IH as (Hr & Hf & Hs). split; [lia | split; [exact Hf |]].
        intros k Hk. destruct (Z.eq_dec k host) as [->|];
          [left; destruct (decide (host ∈ u4)); tauto | apply Hs; lia].
      * intros k Hk. destruct (Z.eq_dec k host) as [->|];
          [left; destruct (decide (host ∈ u4)); tauto | apply IH; lia].
Qed.

(** The host picked is the smallest of 2..253 that no peer uses. *)
Lemma freeHost_spec peers :
  match freeHost peers with
  | Some h =>
    2 <= h <= 253 /\ ~ Exists (usesHost h) peers
    /\ forall k, 2 <= k < h -> Exists (usesHost k) peers
  | None => forall k, 2 <= k <= 253 -> Exists (usesHost k) peers
  end.
Proof.
  unfold freeHost, usedHosts.
  pose proof (usedHosts_spec peers ∅ ∅) as HU.
  destruct (fold_left _ peers (∅, ∅)) as [u4 u6].
  pose proof (firstFree_spec u4 u6 252 2) as HF.
  assert (HU' : forall k, (k ∈ u4 \/ k ∈ u6) <-> Exists (usesHost k) peers).
  { intros k. rewrite (HU k). rewrite !elem_of_empty. tauto. }
  destruct (firstFree 252 2 u4 u6) as [h|].
  - destruct HF as (Hr & Hf & Hs). split; [lia |]. split.
    + rewrite <- HU'. exact Hf.
    + intros k Hk. apply HU', Hs, Hk.
  - intros k Hk. apply HU', HF. lia.
Qed.

(** X11: [findNextFreeIP] returns the addresses of the smallest host
    number in 2..253 that is neither the last octet of the IPv4 address
    nor the last segment of the IPv6 address of any peer, written in
    decimal after the IPv4 prefix and in hexadecimal after the IPv6
    prefix; it throws exactly when every host number in 2..253 is used. *)
Theorem X11_findNextFreeIP_smallest_free peers ipv4Prefix ipv6Prefix :
  match findNextFreeIP peers ipv4Prefix ipv6Prefix with
  | inr (ipv4, ipv6) =>
    exists host,
      2 <= host <= 253
      /\ ~ Exists (usesHost host) peers
      /\ (forall k, 2 <= k < host -> Exists (usesHost k) peers)
      /\ ipv4 = ipv4Prefix +++ Number_toString host 10
      /\ ipv6 = ipv6Prefix +++ Number_toString host 16
  | inl err =>
    err = JS.lit "Tidak ada IP kosong tersisa (host 2" +++ [0x2013]
          +++ JS.lit "253 semua terpakai)"
    /\ forall k, 2 <= k <= 253 -> Exists (usesHost k) peers
  end.
Proof.
  unfold findNextFreeIP. pose proof (freeHost_spec peers) as H.
  destruct (freeHost peers) as [h|].
  - exists h. destruct H as (H1 & H2 & H3).
    exact (conj H1 (conj H2 (conj H3 (conj eq_refl eq_refl)))).
  - split; [reflexivity | exact H].
Qed.

Lemma split_nonempty c s : split c s <> [].
Proof.
  destruct s as [|d s]; cbn [split]; [discriminate |].
  destruct (d =? c); [discriminate |].
  destruct (split c s); discriminate.
Qed.

Lemma split_nosep c y : includes y c = false -> split c y = [y].
Proof.
  unfold includes. induction y as [|d y IH]; intros H; [reflexivity |].
  cbn [existsb] in H. apply orb_false_iff in H as [Hd Hy].
  cbn [split]. rewrite Hd, (IH Hy). reflexivity.
Qed.

Lemma split_app_nosep c y : includes y c = false ->
  forall x, split c (x ++ y) = appLast (split c x) y.
Proof.
  intros Hy. induction x as [|d x IH].
  - cbn [app split appLast]. apply split_nosep, Hy.
  - cbn [app split]. rewrite IH.
    pose proof (split_nonempty c x) as Hne.
    destruct (d =? c).
    + destruct (split c x) as [|g gs]; [contradiction | reflexivity].
    + destruct (split c x) as [|g [|g' gs]]; [contradiction | |]; reflexivity.
Qed.

Lemma includes_app s t c : includes (s ++ t) c = includes s c || includes t c.
Proof. unfold includes. apply existsb_app. Qed.

Lemma trimStart_head c s : isWhiteSpace c = false -> trimStart (c :: s) = c :: s.
Proof. intros H. cbn [trimStart]. rewrite H. reflexivity. Qed.

(** A string with no white space at either end is its own [trim]. *)
Lemma trim_fixed s c :
  trimStart s = s -> isWhiteSpace c = false -> trim (s ++ [c]) = s ++ [c].
Proof.
  intros Hs Hc. unfold trim.
  assert (H1 : trimStart (s ++ [c]) = s ++ [c]).
  { destruct s as [|d s]; [apply trimStart_head, Hc |].
    cbn [trimStart app] in *. destruct (isWhiteSpace d) eqn:E; [| reflexivity].
    exfalso. clear -Hs. assert (length (trimStart s) <= length s)%nat.
    { clear. induction s as [|x s IH]; cbn [trimStart]; [lia |].
      destruct (isWhiteSpace x); cbn [length]; lia. }
    rewrite Hs in H. cbn [length] in H. lia. }
  rewrite H1, rev_app_distr. cbn [rev app].
  rewrite trimStart_head by exact Hc.
  change (c :: rev s) with ([c] ++ rev s).
  rewrite rev_app_distr, rev_involutive. reflexivity.
Qed.

(** The characters of a string of digits are no separators and no white
    space. *)
Lemma digitString_plain radix s c :
  radix <= 36 -> digitString radix s -> In c s ->
  isWhiteSpace c = false /\ c <> 46 /\ c <> 47 /\ c <> 58 /\ c <> 44.
Proof.
  intros HR Hs Hin. unfold digitString in Hs.
  rewrite List.Forall_forall in Hs.
  assert (H : digitString radix [c]) by (constructor; [apply Hs, Hin | constructor]).
  destruct (digitString_head radix c [] H HR) as (Hws & _ & _ & Hc).
  split; [exact Hws | lia].
Qed.

Lemma digitString_includes radix s c :
  radix <= 36 -> digitString radix s ->
  c = 46 \/ c = 47 \/ c = 58 \/ c = 44 -> includes s c = false.
Proof.
  intros HR Hs Hc. unfold includes.
  apply not_true_is_false. intros H. apply existsb_exists in H as (d & Hin & Hd).
  apply Z.eqb_eq in Hd. subst d.
  destruct (digitString_plain radix s c HR Hs Hin) as (_ & H1 & H2 & H3 & H4).
  lia.
Qed.

Lemma lastIndexOf_none w c : includes w c = false -> lastIndexOf w c = None.
Proof.
  unfold includes. induction w as [|d w IH]; intros H; [reflexivity |].
  cbn [existsb] in H. apply orb_false_iff in H as [Hd Hw].
  cbn [lastIndexOf]. rewrite (IH Hw), Hd. reflexivity.
Qed.

Lemma lastIndexOf_app p c y :
  includes y c = false -> lastIndexOf (p ++ c :: y) c = Some (length p).
Proof.
  intros Hy. induction p as [|d p IH].
  - cbn [app lastIndexOf length]. rewrite (lastIndexOf_none y c Hy), Z.eqb_refl.
    reflexivity.
  - cbn [app lastIndexOf length]. rewrite IH. reflexivity.
Qed.

Lemma Number_toString_snoc n radix :
  2 <= radix <= 36 -> 0 <= n ->
  exists s c, Number_toString n radix = s ++ [c]
              /\ digitString radix (s ++ [c]) /\ isWhiteSpace c = false.
Proof.
  intros HR Hn.
  destruct (Number_toString_digits n radix HR Hn) as (Hd & _ & Hne).
  destruct (exists_last Hne) as (s & c & E).
  exists s, c. rewrite <- E. split; [reflexivity | split; [exact Hd |]].
  apply (digitString_plain radix (Number_toString n radix) c); [lia | exact Hd |].
  rewrite E. apply in_or_app. right. left. reflexivity.
Qed.

Lemma withoutPrefixLength_fixed p n radix :
  2 <= radix <= 36 -> 0 <= n ->
  trimStart p = p -> includes p 47 = false ->
  withoutPrefixLength (p ++ Number_toString n radix) = p ++ Number_toString n radix.
Proof.
  intros HR Hn Hp Hs. unfold withoutPrefixLength.
  destruct (Number_toString_snoc n radix HR Hn) as (s & c & E & Hd & Hc).
  rewrite E, app_assoc, trim_fixed; [| | exact Hc].
  - rewrite split_nosep; [reflexivity |].
    rewrite <- app_assoc, includes_app, Hs.
    apply (digitString_includes radix); [lia | exact Hd | tauto].
  - destruct p as [|d p]; [| cbn [app trimStart] in *;
      destruct (isWhiteSpace d); [| reflexivity]].
    + cbn [app]. destruct s as [|x s]; [reflexivity |].
      apply trimStart_head.
      apply (digitString_plain radix ((x :: s) ++ [c]) x); [lia | exact Hd |].
      left. reflexivity.
    + exfalso. clear -Hp. assert (length (trimStart p) <= length p)%nat.
      { clear. induction p as [|x p IH]; cbn [trimStart]; [lia |].
        destruct (isWhiteSpace x); cbn [length]; lia. }
      rewrite Hp in H. cbn [length] in H. lia.
Qed.

Lemma not_dash (s : JS.str) :
  (2 <= length s)%nat ->
  Str.eqb s [] || Str.eqb s (JS.lit "-") = false.
Proof.
  intros H. unfold Str.eqb.
  rewrite !bool_decide_eq_false_2; [reflexivity | |];
    intros ->; cbn in H; lia.
Qed.

Lemma parseLastOctetV4_suggested p host :
  dottedPrefix p -> 0 <= host ->
  parseLastOctetV4 (p +++ Number_toString host 10) = Some host.
Proof.
  intros ((a & b & c & Hsp) & Hsl & Htr) Hh. unfold parseLastOctetV4, Str.cat.
  assert (Hlen : (2 <= length (p ++ Number_toString host 10))%nat).
  { rewrite length_app.
    destruct p as [|x [|y p]]; cbn in Hsp; try discriminate; [| cbn; lia].
    destruct (x =? 46); discriminate. }
  rewrite not_dash by exact Hlen. cbv zeta.
  rewrite withoutPrefixLength_fixed by (assumption || lia).
  destruct (Number_toString_digits host 10 ltac:(lia) Hh) as (Hd & _ & _).
  rewrite split_app_nosep
    by (apply (digitString_includes 10); [lia | exact Hd | tauto]).
  rewrite Hsp. cbn [appLast nth_error app].
  apply parseInt_Number_toString; [left; reflexivity | exact Hh].
Qed.

Lemma parseLastSegmentV6_suggested p host :
  colonPrefix p -> 0 <= host ->
  parseLastSegmentV6 (p +++ Number_toString host 16) = Some host.
Proof.
  intros ((p' & ->) & Hsl & Htr) Hh. unfold parseLastSegmentV6, Str.cat.
  destruct (Number_toString_digits host 16 ltac:(lia) Hh) as (Hd & _ & Hne).
  assert (Hlen : (2 <= length ((p' ++ [58%Z]) ++ Number_toString host 16))%nat).
  { rewrite !length_app. cbn [length].
    destruct (Number_toString host 16); [contradiction | cbn [length]; lia]. }
  rewrite not_dash by exact Hlen. cbv zeta.
  rewrite withoutPrefixLength_fixed by (assumption || lia).
  rewrite <- app_assoc. cbn [app].
  rewrite lastIndexOf_app
    by (apply (digitString_includes 16); [lia | exact Hd | tauto]).
  unfold Str.slice_from.
  replace (length p' + 1)%nat with (length (p' ++ [58]))
    by (rewrite length_app; reflexivity).
  change (p' ++ 58 :: Number_toString host 16)
    with (p' ++ [58] ++ Number_toString host 16).
  rewrite app_assoc, drop_app_length.
  apply parseInt_Number_toString; [right; reflexivity | exact Hh].
Qed.

Lemma digitsNumber_inj radix a b :
  2 <= radix <= 36 -> 0 <= a -> 0 <= b ->
  Number_toString a radix = Number_toString b radix -> a = b.
Proof.
  intros HR Ha Hb E.
  destruct (Number_toString_digits a radix HR Ha) as (_ & <- & _).
  destruct (Number_toString_digits b radix HR Hb) as (_ & <- & _).
  rewrite E. reflexivity.
Qed.

(** X12: With an IPv4 prefix of the shape ["a.b.c."] and an IPv6 prefix
    that ends with a colon, the addresses [findNextFreeIP] builds for a
    host number read back to that number; so once a peer with a suggested
    address is in the list, the next suggestion is for a larger host
    number, with different addresses. *)
Theorem X12_suggested_address_is_then_used ipv4Prefix ipv6Prefix :
  dottedPrefix ipv4Prefix -> colonPrefix ipv6Prefix ->
  (forall host,
      0 <= host ->
      parseLastOctetV4 (ipv4Prefix +++ Number_toString host 10) = Some host
      /\ parseLastSegmentV6 (ipv6Prefix +++ Number_toString host 16) = Some host)
  /\ (forall peers peers' added ipv4 ipv6,
        findNextFreeIP peers ipv4Prefix ipv6Prefix = inr (ipv4, ipv6) ->
        Peer.ipv4 added = ipv4 \/ Peer.ipv6 added = ipv6 ->
        In added peers' -> incl peers peers' ->
        match findNextFreeIP peers' ipv4Prefix ipv6Prefix with
        | inr (ipv4', ipv6') =>
          exists host host',
            host < host'
            /\ ipv4 = ipv4Prefix +++ Number_toString host 10
            /\ ipv4' = ipv4Prefix +++ Number_toString host' 10
            /\ ipv6' = ipv6Prefix +++ Number_toString host' 16
            /\ ipv4' <> ipv4 /\ ipv6' <> ipv6
        | inl _ => True
        end).
Proof.
  intros H4 H6. split.
  - intros host Hh. split;
      [apply parseLastOctetV4_suggested | apply parseLastSegmentV6_suggested];
      assumption.
  - intros peers peers' added ipv4 ipv6 E Hadded Hin Hincl.
    unfold findNextFreeIP in *.
    pose proof (freeHost_spec peers) as HS.
    destruct (freeHost peers) as [h|]; [| discriminate].
    injection E as <- <-. destruct HS as (Hr & Hfree & Hsmall).
    pose proof (freeHost_spec peers') as HS'.
    destruct (freeHost peers') as [h'|]; [| exact I].
    destruct HS' as (Hr' & Hfree' & Hsmall').
    assert (Hused : Exists (usesHost h) peers').
    { apply List.Exists_exists. exists added. split; [exact Hin |].
      unfold usesHost. destruct Hadded as [Ha | Ha]; [left | right]; rewrite Ha.
      - apply parseLastOctetV4_suggested; [exact H4 | lia].
      - apply parseLastSegmentV6_suggested; [exact H6 | lia]. }
    assert (Hlt : h < h').
    { destruct (Z.lt_trichotomy h h') as [Hlt | [E | Hgt]]; [exact Hlt | |].
      - exfalso. subst h'. exact (Hfree' Hused).
      - exfalso. apply Hfree'.
        assert (Hk : Exists (usesHost h') peers) by (apply Hsmall; lia).
        apply List.Exists_exists in Hk as (x & Hx & Hu).
        apply List.Exists_exists. exists x. split; [apply Hincl, Hx | exact Hu]. }
    exists h, h'. split; [exact Hlt |].
    split; [reflexivity |]. split; [reflexivity |]. split; [reflexivity |].
    unfold Str.cat. split; intros E; apply app_inv_head in E;
      [apply (digitsNumber_inj 10) in E | apply (digitsNumber_inj 16) in E]; lia.
Qed.

(** X13: [isIPTaken] reports the first peer, in list order, one of whose
    addresses equals the requested one after [norm] (trimmed, without the
    prefix length, in lower case): as "IPv4" with the requested IPv4
    address when its IPv4 address matches, else as "IPv6"; it reports
    nothing exactly when no peer matches on either address. *)
Theorem X13_isIPTaken_first_match toLowerCase peers ipv4 ipv6 :
  let same4 peer := norm toLowerCase (Peer.ipv4 peer) = norm toLowerCase ipv4 in
  let same6 peer := norm toLowerCase (Peer.ipv6 peer) = norm toLowerCase ipv6 in
  match isIPTaken toLowerCase peers ipv4 ipv6 with
  | NotTaken => Forall (fun peer => ~ same4 peer /\ ~ same6 peer) peers
  | TakenBy which ip =>
    exists before peer after,
      peers = before ++ peer :: after
      /\ Forall (fun peer => ~ same4 peer /\ ~ same6 peer) before
      /\ ((same4 peer /\ which = JS.lit "IPv4" /\ ip = ipv4)
          \/ (~ same4 peer /\ same6 peer /\ which = JS.lit "IPv6" /\ ip = ipv6))
  end.
Proof.
  cbv zeta. induction peers as [|p peers IH]; cbn [isIPTaken]; [constructor |].
  destruct (Str.eqb (norm toLowerCase (Peer.ipv4 p)) (norm toLowerCase ipv4)) eqn:E4.
  { apply Str_eqb_eq in E4. exists [], p, peers.
    split; [reflexivity | split; [constructor | left; auto]]. }
  destruct (Str.eqb (norm toLowerCase (Peer.ipv6 p)) (norm toLowerCase ipv6)) eqn:E6.
  { apply Str_eqb_eq in E6.
    assert (N4 : norm toLowerCase (Peer.ipv4 p) <> norm toLowerCase ipv4)
      by (intros H; apply Str_eqb_eq in H; congruence).
    exists [], p, peers.
    split; [reflexivity | split; [constructor | right; auto]]. }
  assert (N4 : norm toLowerCase (Peer.ipv4 p) <> norm toLowerCase ipv4)
    by (intros H; apply Str_eqb_eq in H; congruence).
  assert (N6 : norm toLowerCase (Peer.ipv6 p) <> norm toLowerCase ipv6)
    by (intros H; apply Str_eqb_eq in H; congruence).
  destruct (isIPTaken toLowerCase peers ipv4 ipv6) as [|which ip].
  - constructor; [split; assumption | exact IH].
  - destruct IH as (before & peer & after & -> & Hb & Hm).
    exists (p :: before), peer, after.
    split; [reflexivity | split; [constructor; [split; assumption | exact Hb] | exact Hm]].
Qed.

(* ===================================================================== *)
(** ** Peer names *)
(* ===================================================================== *)

Lemma tryNames_spec toLowerCase existing draws now : forall n attempt,
  let name := tryNames toLowerCase n attempt existing draws now in
  (name = JS.lit "Peer-" +++ Number_toString now 10
   /\ forall k, (attempt <= k < attempt + n)%nat ->
        toLowerCase (candidate (draws k)) ∈ existing)
  \/ (exists k, (attempt <= k < attempt + n)%nat
        /\ name = candidate (draws k)
        /\ (toLowerCase name ∉ existing)
        /\ forall j, (attempt <= j < k)%nat ->
             toLowerCase (candidate (draws j)) ∈ existing).
Proof.
  induction n as [|n IH]; intros attempt; cbv zeta.
  - left. split; [reflexivity | intros k Hk; lia].
  - cbn [tryNames].
    destruct (bool_decide_reflect
                (toLowerCase (candidate (draws attempt)) ∈ existing)) as [Hin|Hout].
    + destruct (IH (S attempt)) as [(E & Hall) | (k & Hk & E & Hfree & Hbefore)].
      * left. split; [exact E |]. intros k Hk.
        destruct (Nat.eq_dec k attempt) as [->|]; [exact Hin | apply Hall; lia].
      * right. exists k. split; [lia | split; [exact E | split; [exact Hfree |]]].
        intros j Hj.
        destruct (Nat.eq_dec j attempt) as [->|]; [exact Hin | apply Hbefore; lia].
    + right. exists attempt.
      split; [lia | split; [reflexivity | split; [exact Hout |]]].
      intros j Hj. lia.
Qed.

Lemma nth_map_lit (l : list string) i :
  (i < length l)%nat ->
  exists s, nth i (map JS.lit l) (JS.lit "undefined") = JS.lit s /\ In s l.
Proof.
  intros H. exists (nth i l "undefined"%string). split.
  - apply (map_nth JS.lit).
  - apply nth_In, H.
Qed.

(** X14: [generateName] returns the first of its 500 candidates whose
    lower-case form is not among the existing names (trimmed, in lower
    case); the candidate is an adjective, a noun and a number in 10..99
    joined by dashes when the drawn indices are in range.  When all 500
    candidates are taken it returns "Peer-" followed by the current time,
    which is not compared with the existing names. *)
Theorem X14_generateName_avoids_existing
    (toLowerCase : JS.str -> JS.str) existingNames draws now :
  let name := generateName toLowerCase existingNames draws now in
  let existing := map (fun n => trim (toLowerCase n)) existingNames in
  (name = JS.lit "Peer-" +++ Number_toString now 10
   /\ forall k, (k < 500)%nat ->
        toLowerCase (candidate (draws k)) ∈ existing)
  \/ (exists k, (k < 500)%nat
        /\ name = candidate (draws k)
        /\ (forall n, In n existingNames ->
              trim (toLowerCase n) <> toLowerCase name)
        /\ (forall j, (j < k)%nat ->
              toLowerCase (candidate (draws j)) ∈ existing)
        /\ ((adjective (draws k) < 20)%nat -> (noun (draws k) < 20)%nat ->
            0 <= number (draws k) < 90 ->
            exists adj noun num,
              In (JS.lit adj) ADJECTIVES /\ In (JS.lit noun) NOUNS
              /\ 10 <= num <= 99
              /\ name = JS.lit adj +++ JS.lit "-" +++ JS.lit noun
                        +++ JS.lit "-" +++ Number_toString num 10)).
Proof.
  cbv zeta. unfold generateName.
  destruct (tryNames_spec toLowerCase
              (map (fun n => trim (toLowerCase n)) existingNames) draws now 500 0)
    as [(E & Hall) | (k & Hk & E & Hfree & Hbefore)].
  - left. split; [exact E |]. intros k Hk. apply Hall. lia.
  - right. exists k. split; [lia | split; [exact E | split; [| split]]].
    + intros n Hn Heq. apply Hfree. rewrite <- Heq.
      apply list_elem_of_In, in_map_iff. exists n. split; [reflexivity | exact Hn].
    + intros j Hj. apply Hbefore. lia.
    + intros Ha Hn Hnum. rewrite E. unfold candidate.
      destruct (nth_map_lit
                  ["Swift"; "Clever"; "Mighty"; "Noble"; "Brave"; "Silent"; "Golden";
                   "Storm"; "Lunar"; "Solar"; "Cyber"; "Neon"; "Frost"; "Blaze"; "Echo";
                   "Shadow"; "Mystic"; "Royal"; "Cosmic"; "Arctic"]%string
                  (adjective (draws k)) Ha) as (a & Ea & Hina).
      destruct (nth_map_lit
                  ["Phoenix"; "Dragon"; "Tiger"; "Eagle"; "Wolf"; "Falcon"; "Raven";
                   "Lion"; "Bear"; "Hawk"; "Lynx"; "Puma"; "Cobra"; "Viper"; "Panther";
                   "Jaguar"; "Orca"; "Shark"; "Rhino"; "Bison"]%string
                  (noun (draws k)) Hn) as (b & Eb & Hinb).
      exists a, b, (number (draws k) + 10).
      split; [apply in_map, Hina | split; [apply in_map, Hinb | split; [lia |]]].
      unfold ADJECTIVES, NOUNS. rewrite Ea, Eb. reflexivity.
Qed.

(* ===================================================================== *)
(** ** The servers of the environment *)
(* ===================================================================== *)

Lemma key_inj i j suffix :
  0 <= i -> 0 <= j -> Config.key i suffix = Config.key j suffix -> i = j.
Proof.
  intros Hi Hj E. unfold Config.key, Str.cat in E.
  injection E as E.
  destruct (Number_toString_digits i 10 ltac:(lia) Hi) as (Hdi & Hni & _).
  destruct (Number_toString_digits j 10 ltac:(lia) Hj) as (Hdj & Hnj & _).
  assert (Number_toString i 10 = Number_toString j 10).
  { apply (f_equal (@rev Z)) in E. rewrite !rev_app_distr in E.
    apply (f_equal (drop (length (rev (JS.lit suffix))))) in E.
    rewrite !drop_app_length in E.
    apply (f_equal (@rev Z)) in E. rewrite !rev_involutive in E. exact E. }
  apply (digitsNumber_inj 10); [lia | exact Hi | exact Hj | exact H].
Qed.

Lemma scan_spec env : forall fuel n i,
  (forall k, (k < n)%nat ->
     Config.trimmed env (Config.key (i + Z.of_nat k) "_HOST") <> None) ->
  Config.trimmed env (Config.key (i + Z.of_nat n) "_HOST") = None ->
  (n < fuel)%nat ->
  Config.scan fuel env i
  = Some (omap (Config.buildServer env)
            (map (fun k => i + Z.of_nat k) (seq 0 n))).
Proof.
  induction fuel as [|fuel IH]; intros n i Hall Hn Hf; [lia |].
  cbn [Config.scan].
  destruct n as [|n].
  - rewrite Z.add_0_r in Hn. rewrite Hn. reflexivity.
  - pose proof (Hall O ltac:(lia)) as H0. rewrite Z.add_0_r in H0.
    destruct (Config.trimmed env (Config.key i "_HOST")) as [h|] eqn:E;
      [| contradiction].
    rewrite (IH n (i + 1)).
    + cbn [seq map omap]. rewrite Z.add_0_r.
      rewrite <- seq_shift, map_map.
      rewrite (map_ext (fun k => i + Z.of_nat (S k)) (fun k => i + 1 + Z.of_nat k))
        by (intros; lia).
      destruct (Config.buildServer env i) eqn:Eb;
        cbn [omap list_omap]; rewrite Eb; reflexivity.
    + intros k Hk. specialize (Hall (S k) ltac:(lia)).
      replace (i + 1 + Z.of_nat k) with (i + Z.of_nat (S k)) by lia. exact Hall.
    + replace (i + 1 + Z.of_nat n) with (i + Z.of_nat (S n)) by lia. exact Hn.
    + lia.
Qed.

(** The first number below [N] with a property, if there is one. *)
Lemma first_index (P : nat -> bool) N :
  (exists n, (n < N)%nat /\ P n = true /\ forall k, (k < n)%nat -> P k = false)
  \/ (forall n, (n < N)%nat -> P n = false).
Proof.
  induction N as [|N [(n & Hn & Hp & Hk) | Hall]].
  - right. intros n Hn. lia.
  - left. exists n. split; [lia | split; assumption].
  - destruct (P N) eqn:E.
    + left. exists N. split; [lia | split; [exact E | exact Hall]].
    + right. intros n Hn. destruct (Nat.eq_dec n N) as [->|]; [exact E |].
      apply Hall. lia.
Qed.

(** Among the first [size env + 1] indices one has no host. *)
Lemma hostless_index (env : Config.Env) :
  exists n, (n <= size env)%nat
    /\ Config.trimmed env (Config.key (Z.of_nat n) "_HOST") = None
    /\ forall k, (k < n)%nat ->
         Config.trimmed env (Config.key (Z.of_nat k) "_HOST") <> None.
Proof.
  destruct (first_index
              (fun n => bool_decide
                 (Config.trimmed env (Config.key (Z.of_nat n) "_HOST") = None))
              (S (size env))) as [(n & Hn & Hp & Hk) | Hall].
  - exists n. apply bool_decide_eq_true in Hp.
    split; [lia | split; [exact Hp |]].
    intros k Hlt. specialize (Hk k Hlt). apply bool_decide_eq_false in Hk. exact Hk.
  - exfalso.
    set (keys := map (fun k => Config.key (Z.of_nat k) "_HOST") (seq 0 (S (size env)))).
    assert (Hnd : NoDup keys).
    { apply NoDup_fmap_2_strong; [| apply NoDup_seq].
      intros a b _ _ E. apply key_inj in E; lia. }
    assert (Hsub : list_to_set keys ⊆ dom env).
    { intros x Hx. apply elem_of_list_to_set in Hx.
      apply list_elem_of_In, in_map_iff in Hx as (k & <- & Hk).
      apply in_seq in Hk. apply elem_of_dom.
      destruct (env !! Config.key (Z.of_nat k) "_HOST") eqn:E; [eauto |].
      exfalso. specialize (Hall k ltac:(lia)).
      apply bool_decide_eq_false in Hall. apply Hall.
      unfold Config.trimmed. rewrite E. reflexivity. }
    apply subseteq_size in Hsub.
    rewrite size_list_to_set in Hsub by exact Hnd.
    rewrite size_dom in Hsub. unfold keys in Hsub.
    rewrite length_map, length_seq in Hsub. lia.
Qed.

Lemma buildServer_Some env i srv :
  Config.buildServer env i = Some srv ->
  Config.id srv = i
  /\ Config.host srv <> [] /\ Config.user srv <> [] /\ Config.password srv <> []
  /\ Config.port srv <> 0 /\ Config.wgPort srv <> 0.
Proof.
  unfold Config.buildServer, Config.trimmed. intros H.
  repeat match type of H with
         | match (match ?x with _ => _ end) with _ => _ end = _ =>
           destruct x; try discriminate
         end.
  injection H as <-. cbn.
  repeat split; try discriminate;
    unfold Config.intOr;
    match goal with
    | |- context [parseInt ?x 0] => destruct (parseInt x 0) as [n|]; [| lia]
    end;
    destruct (Z.eqb_spec n 0); lia.
Qed.

Lemma omap_ids_sublist env l :
  map Config.id (omap (Config.buildServer env) l) `sublist_of` l.
Proof.
  induction l as [|i l IH]; [constructor |].
  cbn [omap list_omap].
  destruct (Config.buildServer env i) as [srv|] eqn:E.
  - cbn [map]. destruct (buildServer_Some env i srv E) as [-> _].
    apply sublist_skip, IH.
  - apply sublist_cons, IH.
Qed.

(** X15: The scan of the environment ends, at the first index [n] whose
    [S{n}_HOST] is missing or blank; [servers] holds, in index order, the
    servers built for the indices below [n], an index with host but
    without user or password being left out without ending the scan.
    Every server loaded has its index as id, a user, password and host
    that are not empty, and a port that is not zero; no two have the same
    id. *)
Theorem X15_config_servers_scan (env : Config.Env) :
  exists n,
    Config.servers env = Some (builtBelow env n)
    /\ Config.trimmed env (Config.key (Z.of_nat n) "_HOST") = None
    /\ (forall k, (k < n)%nat ->
          Config.trimmed env (Config.key (Z.of_nat k) "_HOST") <> None)
    /\ (forall srv, In srv (builtBelow env n) ->
          0 <= Config.id srv < Z.of_nat n
          /\ Config.buildServer env (Config.id srv) = Some srv
          /\ Config.host srv <> [] /\ Config.user srv <> []
          /\ Config.password srv <> [] /\ Config.port srv <> 0)
    /\ (forall k, (k < n)%nat ->
          Config.buildServer env (Z.of_nat k) <> None ->
          exists srv, In srv (builtBelow env n) /\ Config.id srv = Z.of_nat k)
    /\ NoDup (map Config.id (builtBelow env n)).
Proof.
  destruct (hostless_index env) as (n & Hn & E & Hall).
  exists n.
  split; [| split; [exact E | split; [exact Hall | split; [| split]]]].
  - unfold Config.servers, builtBelow.
    rewrite (scan_spec env (S (size env)) n 0); [reflexivity | | | lia].
    + intros k Hk. cbn [Z.add]. apply Hall, Hk.
    + exact E.
  - intros srv Hin. unfold builtBelow in Hin.
    apply list_elem_of_In, list_elem_of_omap in Hin as (i & Hi & Hb).
    apply list_elem_of_In, in_map_iff in Hi as (k & <- & Hk). apply in_seq in Hk.
    destruct (buildServer_Some env _ srv Hb) as (Hid & Hh & Hu & Hp & Hport & _).
    rewrite Hid. split; [lia |]. split; [exact Hb |].
    split; [exact Hh | split; [exact Hu | split; [exact Hp | exact Hport]]].
  - intros k Hk Hb.
    destruct (Config.buildServer env (Z.of_nat k)) as [srv|] eqn:Eb; [| contradiction].
    exists srv. split.
    + unfold builtBelow. apply list_elem_of_In, list_elem_of_omap.
      exists (Z.of_nat k). split; [| exact Eb].
      apply list_elem_of_In, in_map. apply in_seq. lia.
    + apply (buildServer_Some env _ srv Eb).
  - unfold builtBelow.
    refine (sublist_NoDup _ _ _ (omap_ids_sublist env _)).
    apply NoDup_fmap_2; [intros a b; lia | apply NoDup_seq].
Qed.

(* ===================================================================== *)
(** ** The service: cache, requests, pool *)
(* ===================================================================== *)

Lemma request_connected cfg me words outcomes reply st api p n acts :
  connect cfg (MikrotikService.base me) outcomes 1 (MikrotikService.pool st) (MikrotikService.dials st)
  = (Returned api, p, n, acts) ->
  MikrotikService.request cfg me words outcomes reply st
  = (match reply with
     | Some (Resolved rows) => Value rows
     | Some (Rejected err) => Throws err
     | None => Unsettled
     end,
     {| MikrotikService.pool := p; MikrotikService.cache := MikrotikService.cache st; MikrotikService.dials := n;
        MikrotikService.written := MikrotikService.written st ++ [(api, words)]; MikrotikService.closed := MikrotikService.closed st |}).
Proof.
  intros E. unfold MikrotikService.request. rewrite E.
  destruct reply as [[rows|err]|]; reflexivity.
Qed.

Lemma request_cache cfg me words outcomes reply st :
  MikrotikService.cache (snd (MikrotikService.request cfg me words outcomes reply st)) = MikrotikService.cache st.
Proof.
  unfold MikrotikService.request.
  destruct (connect cfg (MikrotikService.base me) outcomes 1 (MikrotikService.pool st) (MikrotikService.dials st))
    as [[[r p] n] acts].
  destruct r as [api|err|]; [destruct reply as [[rows|err]|] | |]; reflexivity.
Qed.

Lemma connect_pooled (cfg : RouterOS) (svc : Service) (outcomes : list Attempt)
    (a : Z) (p : Pool) (n api : nat) :
  p !! poolKey svc = Some api ->
  connect cfg svc outcomes a p n = (Returned api, p, n, []).
Proof. intros H. destruct outcomes as [|[|e] rest]; cbn [connect]; rewrite H; reflexivity. Qed.

(** X16: [getPeers] answers from the cache, without touching pool, router
    or cache, when it is not forced and the entry of its server is less
    than 5000 ms old; otherwise it asks the router, parses the rows and
    stores them with the current time.  A result it returned is returned
    again by every unforced call within 5000 ms of its entry, and a call
    that throws or does not settle leaves the cache as it was. *)
Theorem X16_getPeers_cache (JSON_parse : JS.str -> option JSON) cfg me :
  (forall st hit now outcomes reply now',
      MikrotikService.cache st !! MikrotikService.cacheKey me = Some hit ->
      now - MikrotikService.ts hit < MikrotikService.CACHE_TTL ->
      MikrotikService.getPeers JSON_parse cfg me false now outcomes reply now' st
      = (Value (MikrotikService.data hit), st))
  /\ (forall st forceRefresh now outcomes rows now' api p n acts,
        connect cfg (MikrotikService.base me) outcomes 1 (MikrotikService.pool st) (MikrotikService.dials st)
        = (Returned api, p, n, acts) ->
        (forceRefresh = true
         \/ MikrotikService.cache st !! MikrotikService.cacheKey me = None
         \/ exists hit, MikrotikService.cache st !! MikrotikService.cacheKey me = Some hit
                        /\ MikrotikService.CACHE_TTL <= now - MikrotikService.ts hit) ->
        MikrotikService.getPeers JSON_parse cfg me forceRefresh now outcomes
          (Some (Resolved rows)) now' st
        = (Value (map (_parsePeer JSON_parse) rows),
           {| MikrotikService.pool := p;
              MikrotikService.cache := <[MikrotikService.cacheKey me :=
                           {| MikrotikService.data := map (_parsePeer JSON_parse) rows;
                              MikrotikService.ts := now' |}]> (MikrotikService.cache st);
              MikrotikService.dials := n;
              MikrotikService.written := MikrotikService.written st ++ [(api, printPeers me)];
              MikrotikService.closed := MikrotikService.closed st |}))
  /\ (forall st forceRefresh now outcomes reply now' result st',
        MikrotikService.getPeers JSON_parse cfg me forceRefresh now outcomes reply now' st
        = (Value result, st') ->
        exists hit,
          MikrotikService.cache st' !! MikrotikService.cacheKey me = Some hit /\ MikrotikService.data hit = result
          /\ forall now2 outcomes2 reply2 now3,
               now2 - MikrotikService.ts hit < MikrotikService.CACHE_TTL ->
               MikrotikService.getPeers JSON_parse cfg me false now2 outcomes2 reply2 now3 st'
               = (Value result, st'))
  /\ (forall st forceRefresh now outcomes reply now' st',
        (exists err,
            MikrotikService.getPeers JSON_parse cfg me forceRefresh now outcomes reply now' st
            = (Throws err, st'))
        \/ MikrotikService.getPeers JSON_parse cfg me forceRefresh now outcomes reply now' st
           = (Unsettled, st') ->
        MikrotikService.cache st' = MikrotikService.cache st).
Proof.
  assert (Hhit : forall st hit now outcomes reply now',
      MikrotikService.cache st !! MikrotikService.cacheKey me = Some hit ->
      now - MikrotikService.ts hit < MikrotikService.CACHE_TTL ->
      MikrotikService.getPeers JSON_parse cfg me false now outcomes reply now' st
      = (Value (MikrotikService.data hit), st)).
  { intros st hit now outcomes reply now' Hc Ht. unfold MikrotikService.getPeers.
    rewrite Hc. cbn [negb andb].
    destruct (Z.ltb_spec (now - MikrotikService.ts hit) MikrotikService.CACHE_TTL); [reflexivity | lia]. }
  split; [exact Hhit | split; [| split]].
  - intros st force now outcomes rows now' api p n acts Hconn Hmiss.
    unfold MikrotikService.getPeers.
    assert (Hfresh : match MikrotikService.cache st !! MikrotikService.cacheKey me with
                     | Some hit =>
                       if negb force && (now - MikrotikService.ts hit <? MikrotikService.CACHE_TTL)
                       then Some (MikrotikService.data hit) else None
                     | None => None
                     end = None).
    { destruct Hmiss as [-> | [-> | (hit & -> & Ht)]].
      - destruct (MikrotikService.cache st !! MikrotikService.cacheKey me); reflexivity.
      - reflexivity.
      - destruct (Z.ltb_spec (now - MikrotikService.ts hit) MikrotikService.CACHE_TTL); [lia |].
        rewrite andb_false_r. reflexivity. }
    rewrite Hfresh.
    fold (printPeers me).
    rewrite (request_connected cfg me (printPeers me) outcomes _ st api p n acts Hconn).
    reflexivity.
  - intros st force now outcomes reply now' result st' E.
    unfold MikrotikService.getPeers in E.
    destruct (MikrotikService.cache st !! MikrotikService.cacheKey me) as [hit|] eqn:Hc.
    + destruct (negb force && (now - MikrotikService.ts hit <? MikrotikService.CACHE_TTL)) eqn:Hf.
      * injection E as <- <-. exists hit. split; [exact Hc | split; [reflexivity |]].
        intros now2 outcomes2 reply2 now3 Ht. apply Hhit; assumption.
      * destruct (MikrotikService.request cfg me _ outcomes reply st) as [[rows|err|] st1];
          try discriminate.
        injection E as <- <-. eexists. split; [apply lookup_insert_eq |].
        split; [reflexivity |].
        intros now2 outcomes2 reply2 now3 Ht.
        apply (Hhit _ {| MikrotikService.data := _; MikrotikService.ts := now' |}); [apply lookup_insert_eq | exact Ht].
    + destruct (MikrotikService.request cfg me _ outcomes reply st) as [[rows|err|] st1];
        try discriminate.
      injection E as <- <-. eexists. split; [apply lookup_insert_eq |].
      split; [reflexivity |].
      intros now2 outcomes2 reply2 now3 Ht.
      apply (Hhit _ {| MikrotikService.data := _; MikrotikService.ts := now' |}); [apply lookup_insert_eq | exact Ht].
  - intros st force now outcomes reply now' st' E.
    assert (K : forall r, (r = Unsettled \/ exists err, r = Throws err) ->
                MikrotikService.getPeers JSON_parse cfg me force now outcomes reply now' st = (r, st') ->
                MikrotikService.cache st' = MikrotikService.cache st).
    { intros r Hr G. unfold MikrotikService.getPeers in G.
      pose proof (request_cache cfg me (printPeers me) outcomes reply st) as RC.
      unfold printPeers in RC.
      destruct (match MikrotikService.cache st !! MikrotikService.cacheKey me with
                | Some hit => if negb force && (now - MikrotikService.ts hit <? MikrotikService.CACHE_TTL)
                              then Some (MikrotikService.data hit) else None
                | None => None
                end) as [peers|].
      - injection G as <- <-. destruct Hr as [Hr | (err & Hr)]; discriminate Hr.
      - destruct (MikrotikService.request cfg me _ outcomes reply st) as [[rows|err|] st1];
          cbn [snd] in RC.
        + injection G as <- <-. destruct Hr as [Hr | (err & Hr)]; discriminate Hr.
        + injection G as _ <-. exact RC.
        + injection G as _ <-. exact RC. }
    destruct E as [(err & E) | E]; [apply (K (Throws err)) | apply (K Unsettled)];
      eauto.
Qed.

Lemma change_cache cfg me words outcomes reply st :
  cacheAfter me (fst (MikrotikService.change cfg me words outcomes reply st)) st
    (snd (MikrotikService.change cfg me words outcomes reply st)).
Proof.
  unfold MikrotikService.change.
  pose proof (request_cache cfg me words outcomes reply st) as RC.
  destruct (MikrotikService.request cfg me words outcomes reply st) as [[rows|err|] st1];
    cbn [fst snd cacheAfter MikrotikService.invalidateCache MikrotikService.cache] in *;
    rewrite ?RC; reflexivity.
Qed.

(** X17: [addPeer], [togglePeer] and [removePeer] delete the cache entry
    of their server when the router accepted the request, and leave the
    cache as it is when they throw or do not settle; the entries of other
    servers are never touched; after a deletion the next unforced
    [getPeers] asks the router. *)
Theorem X17_changes_invalidate_cache (JSON_parse : JS.str -> option JSON) cfg me :
  (forall now name ipv4 ipv6 publicKey privateKey outcomes reply st,
      let '(r, st') := MikrotikService.addPeer cfg me now name ipv4 ipv6 publicKey privateKey
                         outcomes reply st in
      cacheAfter me r st st')
  /\ (forall id shouldDisable outcomes reply st,
        let '(r, st') := MikrotikService.togglePeer cfg me id shouldDisable outcomes reply st in
        cacheAfter me r st st')
  /\ (forall id outcomes reply st,
        let '(r, st') := MikrotikService.removePeer cfg me id outcomes reply st in
        cacheAfter me r st st')
  /\ (forall st st' other,
        cacheAfter me (Value tt) st st' ->
        MikrotikService.cache st' !! MikrotikService.cacheKey me = None
        /\ (other <> MikrotikService.cacheKey me -> MikrotikService.cache st' !! other = MikrotikService.cache st !! other))
  /\ (forall st outcomes rows now now' api p n acts,
        MikrotikService.cache st !! MikrotikService.cacheKey me = None ->
        connect cfg (MikrotikService.base me) outcomes 1 (MikrotikService.pool st) (MikrotikService.dials st)
        = (Returned api, p, n, acts) ->
        MikrotikService.written (snd (MikrotikService.getPeers JSON_parse cfg me false now outcomes
                        (Some (Resolved rows)) now' st))
        = MikrotikService.written st ++ [(api, printPeers me)]).
Proof.
  split; [| split; [| split; [| split]]].
  - intros now name ipv4 ipv6 publicKey privateKey outcomes reply st.
    unfold MikrotikService.addPeer.
    destruct (addPeer (MikrotikService.wgInterface me) now name ipv4 ipv6 publicKey privateKey)
      as [err|words]; [reflexivity |].
    pose proof (change_cache cfg me words outcomes reply st) as H.
    destruct (MikrotikService.change cfg me words outcomes reply st). exact H.
  - intros id shouldDisable outcomes reply st. unfold MikrotikService.togglePeer.
    destruct (Str.eqb id []); [reflexivity |].
    match goal with
    | |- context [MikrotikService.change cfg me ?w outcomes reply st] =>
      pose proof (change_cache cfg me w outcomes reply st) as H;
      destruct (MikrotikService.change cfg me w outcomes reply st)
    end. exact H.
  - intros id outcomes reply st. unfold MikrotikService.removePeer.
    destruct (Str.eqb id []); [reflexivity |].
    match goal with
    | |- context [MikrotikService.change cfg me ?w outcomes reply st] =>
      pose proof (change_cache cfg me w outcomes reply st) as H;
      destruct (MikrotikService.change cfg me w outcomes reply st)
    end. exact H.
  - intros st st' other H. cbn [cacheAfter] in H. rewrite H.
    split; [apply lookup_delete_eq | intros Hne; apply lookup_delete_ne; congruence].
  - intros st outcomes rows now now' api p n acts Hc Hconn.
    unfold MikrotikService.getPeers. rewrite Hc. fold (printPeers me).
    rewrite (request_connected cfg me (printPeers me) outcomes _ st api p n acts Hconn).
    reflexivity.
Qed.

(** X18: [togglePeer] and [removePeer] with an empty id, and [addPeer]
    with a blank name, address or public key, an IPv4 address that is not
    four groups of one to three digits, or an IPv6 address without a
    colon, throw before [connect] is called: pool, cache, connections and
    requests are left as they are.  With an id, [togglePeer] writes
    [=disabled=yes] to disable and [=disabled=no] to enable. *)
Theorem X18_requests_checked_before_connecting cfg me outcomes reply st :
  MikrotikService.togglePeer cfg me [] true outcomes reply st
  = (Throws (JS.lit "Peer ID tidak boleh kosong"), st)
  /\ MikrotikService.togglePeer cfg me [] false outcomes reply st
     = (Throws (JS.lit "Peer ID tidak boleh kosong"), st)
  /\ MikrotikService.removePeer cfg me [] outcomes reply st
     = (Throws (JS.lit "Peer ID tidak boleh kosong"), st)
  /\ (forall now name ipv4 ipv6 publicKey privateKey err,
        addPeer (MikrotikService.wgInterface me) now name ipv4 ipv6 publicKey privateKey
        = inl err ->
        MikrotikService.addPeer cfg me now name ipv4 ipv6 publicKey privateKey
          outcomes reply st
        = (Throws err, st))
  /\ (forall now name ipv4 ipv6 publicKey privateKey,
        trim name = [] \/ trim ipv4 = [] \/ trim ipv6 = [] \/ trim publicKey = []
        \/ isIPv4Text (trim ipv4) = false \/ includes (trim ipv6) 58 = false ->
        exists err,
          MikrotikService.addPeer cfg me now name ipv4 ipv6 publicKey privateKey
            outcomes reply st
          = (Throws err, st))
  /\ (forall id shouldDisable api p n acts,
        id <> [] ->
        connect cfg (MikrotikService.base me) outcomes 1 (MikrotikService.pool st) (MikrotikService.dials st)
        = (Returned api, p, n, acts) ->
        MikrotikService.written (snd (MikrotikService.togglePeer cfg me id shouldDisable outcomes reply st))
        = MikrotikService.written st
          ++ [(api, [JS.lit "/interface/wireguard/peers/set";
                     JS.lit "=.id=" +++ id;
                     JS.lit "=disabled="
                     +++ (if shouldDisable then JS.lit "yes" else JS.lit "no")])]).
Proof.
  split; [reflexivity | split; [reflexivity | split; [reflexivity | split; [| split]]]].
  - intros now name ipv4 ipv6 publicKey privateKey err E.
    unfold MikrotikService.addPeer. rewrite E. reflexivity.
  - intros now name ipv4 ipv6 publicKey privateKey H.
    unfold MikrotikService.addPeer, addPeer, Str.eqb.
    destruct (bool_decide (trim name = [])) eqn:E1; [eexists; reflexivity |].
    destruct (bool_decide (trim ipv4 = [])) eqn:E2; [eexists; reflexivity |].
    destruct (bool_decide (trim ipv6 = [])) eqn:E3; [eexists; reflexivity |].
    destruct (bool_decide (trim publicKey = [])) eqn:E5; [eexists; reflexivity |].
    cbv zeta.
    destruct (isIPv4Text (trim ipv4)) eqn:E4; cbn [negb]; [| eexists; reflexivity].
    destruct (includes (trim ipv6) 58) eqn:E6; cbn [negb]; [| eexists; reflexivity].
    apply bool_decide_eq_false in E1, E2, E3, E5.
    exfalso. intuition congruence.
  - intros id shouldDisable api p n acts Hid Hconn. unfold MikrotikService.togglePeer.
    unfold Str.eqb. rewrite bool_decide_eq_false_2 by exact Hid.
    unfold MikrotikService.change.
    rewrite (request_connected cfg me _ outcomes reply st api p n acts Hconn).
    destruct reply as [[rows|err]|]; reflexivity.
Qed.

(** X19: [getServerPublicKey] on an established connection: an empty
    reply throws "Interface '...' tidak ditemukan di router"; otherwise
    the result is the [public-key] property of the first row
    ([undefined] when the row has none), which for a reply row carrying
    the attribute word [=public-key=K] is [K], whatever characters [K]
    holds; a rejected request throws the error of the rejection. *)
Theorem X19_getServerPublicKey_result cfg me outcomes st api p n acts :
  connect cfg (MikrotikService.base me) outcomes 1 (MikrotikService.pool st) (MikrotikService.dials st)
  = (Returned api, p, n, acts) ->
  fst (MikrotikService.getServerPublicKey cfg me outcomes (Some (Resolved [])) st)
  = Throws (JS.lit "Interface '" +++ MikrotikService.wgInterface me
            +++ JS.lit "' tidak ditemukan di router")
  /\ (forall first rest,
        fst (MikrotikService.getServerPublicKey cfg me outcomes
               (Some (Resolved (first :: rest))) st)
        = Value (first !! JS.lit "public-key"))
  /\ (forall before key after more done,
        Forall (fun kv => plainKey (fst kv))
          (before ++ (JS.lit "public-key", key) :: after) ->
        ~ In (JS.lit "public-key") (map fst after) ->
        fst (MikrotikService.getServerPublicKey cfg me outcomes
               (Some (Resolved
                  (parseRows
                     ((JS.lit "!re"
                       :: map attributeWord
                            (before ++ (JS.lit "public-key", key) :: after))
                      :: more ++ [done])))) st)
        = Value (Some key))
  /\ (forall err,
        fst (MikrotikService.getServerPublicKey cfg me outcomes (Some (Rejected err)) st)
        = Throws err)
  /\ MikrotikService.written (snd (MikrotikService.getServerPublicKey cfg me outcomes None st))
     = MikrotikService.written st ++ [(api, [JS.lit "/interface/wireguard/print";
                             JS.lit "?name=" +++ MikrotikService.wgInterface me])].
Proof.
  intros Hconn. unfold MikrotikService.getServerPublicKey.
  split; [| split; [| split; [| split]]].
  - rewrite (request_connected cfg me _ outcomes _ st api p n acts Hconn).
    reflexivity.
  - intros first rest.
    rewrite (request_connected cfg me _ outcomes _ st api p n acts Hconn).
    reflexivity.
  - intros before key after more done Hk Hlast.
    rewrite (request_connected cfg me _ outcomes _ st api p n acts Hconn).
    unfold parseRows. cbn [List.filter].
    change (Str.eqb (JS.lit "!re") (JS.lit "!re")) with true. cbv iota.
    cbn [map fst]. f_equal.
    apply parseRow_attributes_lookup; assumption.
  - intros err.
    rewrite (request_connected cfg me _ outcomes _ st api p n acts Hconn).
    reflexivity.
  - rewrite (request_connected cfg me _ outcomes _ st api p n acts Hconn).
    reflexivity.
Qed.

(** X20: [disconnect] closes the pooled connection, removes its pool
    entry, and does nothing when called again or without an entry.  The
    close hook of a connection removes the pool entry only when the entry
    is that connection: after [disconnect] and a new [connect], which
    dials once and pools the new connection, the late close event of the
    old connection leaves the new entry in place. *)
Theorem X20_pool_entry_follows_connection cfg me st :
  (* disconnect closes the pooled connection and forgets it *)
  (forall api,
      MikrotikService.pool st !! poolKey (MikrotikService.base me) = Some api ->
      let st' := MikrotikService.disconnect me st in
      MikrotikService.pool st' !! poolKey (MikrotikService.base me) = None
      /\ MikrotikService.closed st' = MikrotikService.closed st ++ [api]
      /\ MikrotikService.disconnect me st' = st')
  /\ (MikrotikService.pool st !! poolKey (MikrotikService.base me) = None ->
      MikrotikService.disconnect me st = st)
  (* the hook removes the entry of the connection that closed, and no other *)
  /\ (forall api,
        MikrotikService.pool st !! poolKey (MikrotikService.base me) = Some api ->
        MikrotikService.pool (MikrotikService._onClose me api st)
          !! poolKey (MikrotikService.base me) = None)
  /\ (forall api,
        MikrotikService.pool st !! poolKey (MikrotikService.base me) <> Some api ->
        MikrotikService._onClose me api st = st)
  (* once the entry is gone the next connect dials, and the late close
     event of the old connection leaves the new entry in place *)
  /\ (forall old rest,
        MikrotikService.pool st !! poolKey (MikrotikService.base me) = Some old ->
        (old < MikrotikService.dials st)%nat ->
        let st1 := MikrotikService.disconnect me st in
        let '(r, p, n, acts) :=
          connect cfg (MikrotikService.base me) (Connects :: rest) 1
            (MikrotikService.pool st1) (MikrotikService.dials st1) in
        let st2 :=
          {| MikrotikService.pool := p;
             MikrotikService.cache := MikrotikService.cache st1;
             MikrotikService.dials := n;
             MikrotikService.written := MikrotikService.written st1;
             MikrotikService.closed := MikrotikService.closed st1 |} in
        r = Returned (MikrotikService.dials st)
        /\ acts = [Dial 1]
        /\ MikrotikService._onClose me old st2 = st2
        /\ MikrotikService.pool st2 !! poolKey (MikrotikService.base me)
           = Some (MikrotikService.dials st)).
Proof.
  split; [| split; [| split; [| split]]].
  - intros api H. cbv zeta. unfold MikrotikService.disconnect at 1 2.
    rewrite H. cbn [MikrotikService.pool MikrotikService.closed].
    split; [apply lookup_delete_eq | split; [reflexivity |]].
    unfold MikrotikService.disconnect. rewrite H.
    cbn [MikrotikService.pool]. rewrite lookup_delete_eq. reflexivity.
  - intros H. unfold MikrotikService.disconnect. rewrite H. reflexivity.
  - intros api H. unfold MikrotikService._onClose.
    rewrite bool_decide_eq_true_2 by exact H.
    cbn [MikrotikService.pool]. apply lookup_delete_eq.
  - intros api H. unfold MikrotikService._onClose.
    rewrite bool_decide_eq_false_2 by exact H. reflexivity.
  - intros old rest H Hold. cbv zeta. unfold MikrotikService.disconnect.
    rewrite H. cbn [MikrotikService.pool MikrotikService.dials
                    MikrotikService.cache MikrotikService.written
                    MikrotikService.closed].
    cbn [connect]. rewrite lookup_delete_eq.
    split; [reflexivity | split; [reflexivity |]].
    unfold MikrotikService._onClose. cbn [MikrotikService.pool].
    rewrite lookup_insert_eq.
    rewrite bool_decide_eq_false_2 by (intros E; injection E as E; lia).
    split; reflexivity.
Qed.

(* ===================================================================== *)
(** ** Addresses of a peer *)
(* ===================================================================== *)

(** What [trimStart] removes is in front, and what it leaves does not
    start with white space. *)
Lemma trimStart_decomp s :
  exists ws, s = ws ++ trimStart s
    /\ match trimStart s with
       | c :: _ => isWhiteSpace c = false
       | [] => True
       end.
Proof.
  induction s as [|c s (ws & E & H)]; [exists []; split; [reflexivity | exact I] |].
  cbn [trimStart]. destruct (isWhiteSpace c) eqn:Ec.
  - exists (c :: ws). split; [cbn [app]; f_equal; exact E | exact H].
  - exists []. split; [reflexivity | exact Ec].
Qed.

(** The result of [trim] does not start with white space. *)
Lemma trim_head s c r : trim s = c :: r -> isWhiteSpace c = false.
Proof.
  unfold trim. intros E.
  destruct (trimStart_decomp s) as (ws1 & _ & H1).
  destruct (trimStart_decomp (rev (trimStart s))) as (ws2 & E2 & _).
  apply (f_equal (@rev Z)) in E2. rewrite rev_involutive, rev_app_distr in E2.
  rewrite E in E2. rewrite E2 in H1. exact H1.
Qed.

Lemma trimStart_app_head c r t :
  isWhiteSpace c = false -> trimStart ((c :: r) ++ t) = (c :: r) ++ t.
Proof. intros H. cbn [app]. apply trimStart_head, H. Qed.

(** A character of a string is the separator or a character of a piece
    of the split. *)
Lemma split_chars c s x :
  In x s -> x = c \/ exists g, In g (split c s) /\ In x g.
Proof.
  induction s as [|d s IH]; [intros []|]. intros [-> | Hin].
  - cbn [split]. destruct (Z.eqb_spec x c) as [E|E]; [left; exact E |].
    right. destruct (split c s) as [|g gs] eqn:Es.
    + exists [x]. split; left; reflexivity.
    + exists (x :: g). split; left; reflexivity.
  - destruct (IH Hin) as [E | (g & Hg & Hx)]; [left; exact E |].
    right. cbn [split]. destruct (d =? c).
    + exists g. split; [right; exact Hg | exact Hx].
    + destruct (split c s) as [|g0 gs]; [contradiction |].
      destruct Hg as [<- | Hg].
      * exists (d :: g0). split; [left; reflexivity | right; exact Hx].
      * exists g. split; [right; exact Hg | exact Hx].
Qed.

(** The text the check of [addPeer] accepts is made of digits and dots,
    with a dot in it. *)
Lemma isIPv4Text_chars v :
  isIPv4Text v = true ->
  Forall (fun x => isDigit x = true \/ x = 46) v /\ includes v 46 = true.
Proof.
  unfold isIPv4Text. intros H.
  destruct (split 46 v) as [|a [|b [|c [|d [|e l]]]]] eqn:Es; try discriminate.
  split.
  - apply List.Forall_forall. intros x Hx.
    destruct (split_chars 46 v x Hx) as [-> | (g & Hg & Hxg)]; [right; reflexivity |].
    left. rewrite Es in Hg. rewrite forallb_forall in H.
    specialize (H g Hg). apply andb_true_iff in H as [_ H].
    rewrite forallb_forall in H. apply H, Hxg.
  - destruct (includes v 46) eqn:E; [reflexivity |].
    rewrite (split_nosep 46 v E) in Es. discriminate.
Qed.

Lemma digits_dots_includes v c :
  Forall (fun x => isDigit x = true \/ x = 46) v ->
  c = 44 \/ c = 47 \/ c = 58 -> includes v c = false.
Proof.
  intros H Hc. unfold includes. apply not_true_is_false. intros E.
  apply existsb_exists in E as (x & Hx & Hxc). apply Z.eqb_eq in Hxc. subst x.
  rewrite List.Forall_forall in H. destruct (H c Hx) as [Hd | ->]; [| lia].
  unfold isDigit in Hd. apply andb_true_iff in Hd as [H1 H2].
  apply Z.leb_le in H1, H2. lia.
Qed.

Lemma split_app_sep c a b :
  includes a c = false -> split c (a ++ c :: b) = a :: split c b.
Proof.
  unfold includes. induction a as [|d a IH]; intros H.
  - cbn [app split]. rewrite Z.eqb_refl. reflexivity.
  - cbn [existsb] in H. apply orb_false_iff in H as [Hd Ha].
    cbn [app split]. rewrite Hd, (IH Ha). reflexivity.
Qed.

Lemma isDigit_not_space x : isDigit x = true -> isWhiteSpace x = false.
Proof.
  unfold isDigit, isWhiteSpace. intros H. apply andb_true_iff in H as [H1 H2].
  apply Z.leb_le in H1, H2.
  repeat match goal with
         | |- context [?a <=? ?b] => destruct (Z.leb_spec a b); try lia
         | |- context [?a =? ?b] => destruct (Z.eqb_spec a b); try lia
         end; reflexivity.
Qed.

(** A string that starts without white space, followed by a suffix of
    the source that ends with a digit, is its own [trim]. *)
Lemma trim_with_suffix c r (suffix : JS.str) last :
  isWhiteSpace c = false -> isWhiteSpace last = false ->
  trim ((c :: r) ++ suffix ++ [last]) = (c :: r) ++ suffix ++ [last].
Proof.
  intros Hc Hl. rewrite app_assoc. apply trim_fixed; [| exact Hl].
  cbn [app]. apply trimStart_head, Hc.
Qed.

Lemma isIPTaken_found (toLowerCase : JS.str -> JS.str) peers peer ipv4 ipv6 :
  In peer peers ->
  norm toLowerCase (Peer.ipv4 peer) = norm toLowerCase ipv4
  \/ norm toLowerCase (Peer.ipv6 peer) = norm toLowerCase ipv6 ->
  isIPTaken toLowerCase peers ipv4 ipv6 <> NotTaken.
Proof.
  induction peers as [|p peers IH]; [intros [] |].
  intros [-> | Hin] Hm; cbn [isIPTaken].
  - destruct (Str.eqb (norm toLowerCase (Peer.ipv4 peer)) (norm toLowerCase ipv4)) eqn:E4;
      [discriminate |].
    destruct (Str.eqb (norm toLowerCase (Peer.ipv6 peer)) (norm toLowerCase ipv6)) eqn:E6;
      [discriminate |].
    exfalso. destruct Hm as [Hm | Hm]; apply Str_eqb_eq in Hm; congruence.
  - destruct (Str.eqb _ _); [discriminate |].
    destruct (Str.eqb _ _); [discriminate |].
    apply IH; assumption.
Qed.

(** The two addresses [addPeer] sends, read back by [_parsePeer]. *)
Lemma addresses_read_back (JSON_parse : JS.str -> option JSON) v4 v6 row :
  isIPv4Text v4 = true -> includes v6 58 = true ->
  includes v6 44 = false -> includes v6 47 = false ->
  (exists raw, v6 = trim raw) ->
  row !! JS.lit "allowed-address"
  = Some (v4 +++ JS.lit "/32," +++ v6 +++ JS.lit "/128") ->
  Peer.ipv4 (_parsePeer JSON_parse row) = v4
  /\ Peer.ipv6 (_parsePeer JSON_parse row) = v6.
Proof.
  intros H4 H6 H6c H6s (raw & Hraw) Hrow.
  destruct (isIPv4Text_chars v4 H4) as (Hch & Hdot).
  assert (Hv4 : exists c r, v4 = c :: r /\ isWhiteSpace c = false).
  { destruct v4 as [|c r]; [discriminate Hdot |].
    exists c, r. split; [reflexivity |].
    inversion Hch as [|? ? [Hd | ->] _]; subst;
      [apply isDigit_not_space, Hd | reflexivity]. }
  assert (Hv6 : exists c r, v6 = c :: r /\ isWhiteSpace c = false).
  { destruct v6 as [|c r] eqn:E; [discriminate H6 |].
    exists c, r. split; [reflexivity |].
    apply (trim_head raw c r). congruence. }
  destruct Hv4 as (c4 & r4 & E4 & Hc4). destruct Hv6 as (c6 & r6 & E6 & Hc6).
  assert (Hlist : addressList row = [v4 ++ JS.lit "/32"; v6 ++ JS.lit "/128"]).
  { unfold addressList. rewrite Hrow. cbn [default]. unfold Str.cat.
    change (JS.lit "/32," ++ v6 ++ JS.lit "/128")
      with ((JS.lit "/32" ++ [44]) ++ v6 ++ JS.lit "/128").
    rewrite <- (app_assoc (JS.lit "/32")), (app_assoc v4). cbn [app]. unfold id.
    rewrite split_app_sep
      by (rewrite includes_app, (digits_dots_includes v4 44 Hch) by tauto;
          reflexivity).
    rewrite split_nosep by (rewrite includes_app, H6c; reflexivity).
    cbn [map].
    rewrite E4, E6.
    change (JS.lit "/32") with ([47; 51] ++ [50]).
    change (JS.lit "/128") with ([47; 49; 50] ++ [56]).
    rewrite !trim_with_suffix by (assumption || reflexivity).
    reflexivity. }
  unfold _parsePeer. cbn [Peer.ipv4 Peer.ipv6]. rewrite Hlist.
  unfold addressWith. cbn [find].
  rewrite (includes_app v4), Hdot. cbn [orb].
  rewrite (includes_app v4 _ 58), (digits_dots_includes v4 58 Hch) by tauto.
  change (includes (JS.lit "/32") 58) with false. cbn [orb].
  rewrite (includes_app v6 _ 58), H6. cbn [orb].
  change (JS.lit "/32") with (47 :: JS.lit "32").
  change (JS.lit "/128") with (47 :: JS.lit "128").
  rewrite !split_app_sep
    by (assumption || (apply (digits_dots_includes v4 47 Hch); tauto)).
  split; reflexivity.
Qed.

(** X21: When [addPeer] accepts its input, the sentence it writes carries
    the addresses as [=allowed-address=<ipv4>/32,<ipv6>/128] (trimmed).
    For an IPv6 address without comma and slash, [_parsePeer] on a reply
    row with this value reports exactly the two trimmed addresses, and
    [isIPTaken] on any peer list holding that peer reports either address
    as taken. *)
Theorem X21_added_peer_is_found_taken
    (JSON_parse : JS.str -> option JSON) (toLowerCase : JS.str -> JS.str)
    wgInterface now name ipv4 ipv6 publicKey privateKey words :
  addPeer wgInterface now name ipv4 ipv6 publicKey privateKey = inr words ->
  includes (trim ipv6) 44 = false -> includes (trim ipv6) 47 = false ->
  let address := trim ipv4 +++ JS.lit "/32," +++ trim ipv6 +++ JS.lit "/128" in
  In (JS.lit "=allowed-address=" +++ address) words
  /\ forall row,
       row !! JS.lit "allowed-address" = Some address ->
       let peer := _parsePeer JSON_parse row in
       Peer.ipv4 peer = trim ipv4 /\ Peer.ipv6 peer = trim ipv6
       /\ forall peers other,
            In peer peers ->
            isIPTaken toLowerCase peers (trim ipv4) other <> NotTaken
            /\ isIPTaken toLowerCase peers other (trim ipv6) <> NotTaken.
Proof.
  intros Hadd Hc Hs. cbv zeta.
  unfold addPeer in Hadd.
  repeat match type of Hadd with
         | (if ?c then _ else _) = _ => destruct c eqn:?; [discriminate |]
         end.
  cbv zeta in Hadd.
  destruct (isIPv4Text (trim ipv4)) eqn:H4; [| discriminate].
  destruct (includes (trim ipv6) 58) eqn:H6; [| discriminate].
  cbn [negb] in Hadd. injection Hadd as <-.
  split; [right; right; right; right; left; reflexivity |].
  intros row Hrow.
  destruct (addresses_read_back JSON_parse (trim ipv4) (trim ipv6) row
              H4 H6 Hc Hs ltac:(eexists; reflexivity) Hrow) as [E4 E6].
  split; [exact E4 | split; [exact E6 |]].
  intros peers other Hin.
  split; apply (isIPTaken_found toLowerCase peers _ _ _ Hin);
    [left; rewrite E4 | right; rewrite E6]; reflexivity.
Qed.

(** X22: A reply row without [allowed-address] (absent or empty) is
    reported by [_parsePeer] with ["-"] for both addresses; such a peer
    uses no host number, so it never changes the host [findNextFreeIP]
    picks. *)
Theorem X22_peer_without_addresses (JSON_parse : JS.str -> option JSON) row :
  row !! JS.lit "allowed-address" = None
  \/ row !! JS.lit "allowed-address" = Some [] ->
  let peer := _parsePeer JSON_parse row in
  Peer.ipv4 peer = JS.lit "-" /\ Peer.ipv6 peer = JS.lit "-"
  /\ (forall k, ~ usesHost k peer)
  /\ (forall peers, freeHost (peer :: peers) = freeHost peers).
Proof.
  intros H. cbv zeta.
  assert (E : addressList row = []).
  { unfold addressList. destruct H as [-> | ->]; reflexivity. }
  assert (E4 : Peer.ipv4 (_parsePeer JSON_parse row) = JS.lit "-")
    by (unfold _parsePeer; cbn [Peer.ipv4]; rewrite E; reflexivity).
  assert (E6 : Peer.ipv6 (_parsePeer JSON_parse row) = JS.lit "-")
    by (unfold _parsePeer; cbn [Peer.ipv6]; rewrite E; reflexivity).
  split; [exact E4 | split; [exact E6 | split]].
  - intros k [Hk | Hk]; [rewrite E4 in Hk | rewrite E6 in Hk]; discriminate Hk.
  - intros peers. unfold freeHost, usedHosts. cbn [fold_left].
    unfold addUsed at 2. rewrite E4, E6. reflexivity.
Qed.

(* ===================================================================== *)
(** ** Server ids and keys *)
(* ===================================================================== *)

Lemma Number_toString_neg n radix :
  n < 0 ->
  Number_toString n radix = 45 :: Number_toString (- n) radix.
Proof.
  intros H. unfold Number_toString.
  destruct (Z.ltb_spec n 0); [| lia].
  destruct (Z.ltb_spec (- n) 0); [lia |]. reflexivity.
Qed.

(** Different integers have different texts. *)
Lemma Number_toString_inj radix a b :
  2 <= radix <= 36 ->
  Number_toString a radix = Number_toString b radix -> a = b.
Proof.
  intros HR E.
  assert (Hhead : forall n, 0 <= n ->
            exists c s, Number_toString n radix = c :: s /\ c <> 45).
  { intros n Hn.
    destruct (Number_toString_digits n radix HR Hn) as (Hd & _ & Hne).
    destruct (Number_toString n radix) as [|c s]; [contradiction |].
    exists c, s. split; [reflexivity |].
    apply (digitString_head radix c s Hd). lia. }
  destruct (Z.lt_ge_cases a 0) as [Ha | Ha], (Z.lt_ge_cases b 0) as [Hb | Hb].
  - rewrite (Number_toString_neg a), (Number_toString_neg b) in E by assumption.
    injection E as E. apply (digitsNumber_inj radix) in E; lia.
  - rewrite (Number_toString_neg a) in E by assumption.
    destruct (Hhead b Hb) as (c & s & Eb & Hc). rewrite Eb in E.
    injection E as E _. congruence.
  - rewrite (Number_toString_neg b) in E by assumption.
    destruct (Hhead a Ha) as (c & s & Ea & Hc). rewrite Ea in E.
    injection E as E _. congruence.
  - apply (digitsNumber_inj radix); assumption.
Qed.

Lemma find_id_Some servers id srv :
  find (fun s => Config.id s =? id) servers = Some srv ->
  In srv servers /\ Config.id srv = id.
Proof.
  intros H. apply find_some in H as [Hin He]. apply Z.eqb_eq in He.
  split; assumption.
Qed.

(** X23: [resolveServer] returns the number [parseInt(raw, 10)] when a
    configured server has it as id, and then [new MikrotikService] for it
    succeeds, with pool key ["srv_<id>"], cache key ["peers_<id>"] and the
    host and interface of that server; otherwise it throws an error of
    status 404 whose message lists the configured ids. *)
Theorem X23_resolved_server_has_service servers raw :
  match resolveServer servers raw with
  | inr id =>
    parseInt (Some raw) 10 = Some id
    /\ exists server me,
         In server servers /\ Config.id server = id
         /\ MikrotikService.new servers id = inr me
         /\ poolKey (MikrotikService.base me)
            = JS.lit "srv_" +++ Number_toString id 10
         /\ MikrotikService.cacheKey me
            = JS.lit "peers_" +++ Number_toString id 10
         /\ MikrotikService.wgInterface me = Config.wgInterface server
         /\ host (srv (MikrotikService.base me)) = Config.host server
  | inl (status, message) =>
    status = 404
    /\ (forall server, In server servers ->
          parseInt (Some raw) 10 <> Some (Config.id server))
    /\ message
       = JS.lit "Server ID " +++ raw
         +++ JS.lit " tidak ditemukan. Server tersedia: "
         +++ join (JS.lit ", ")
               (map (fun s => Number_toString (Config.id s) 10) servers)
  end.
Proof.
  unfold resolveServer. cbv zeta.
  destruct (parseInt (Some raw) 10) as [n|] eqn:Ep.
  - destruct (find (fun s => Config.id s =? n) servers) as [s|] eqn:Ef.
    + split; [reflexivity |].
      destruct (find_id_Some servers n s Ef) as [Hin Hid].
      unfold MikrotikService.new. rewrite Ef.
      eexists s, _. split; [exact Hin | split; [exact Hid |]].
      split; [reflexivity |]. cbn. rewrite Hid. repeat split.
    + split; [reflexivity | split; [| reflexivity]].
      intros s Hin E. injection E as E.
      pose proof (find_none _ _ Ef s Hin) as H. cbn in H.
      apply Z.eqb_neq in H. congruence.
  - split; [reflexivity | split; [| reflexivity]].
    intros s Hin E. discriminate E.
Qed.

(** X24: Service instances for different server ids have different pool
    keys and different cache keys: pooling a connection for one never
    changes the entry of the other, and invalidating the cache of one
    leaves the entry of the other. *)
Theorem X24_services_do_not_share_keys servers a b meA meB :
  MikrotikService.new servers a = inr meA ->
  MikrotikService.new servers b = inr meB ->
  a <> b ->
  poolKey (MikrotikService.base meA) <> poolKey (MikrotikService.base meB)
  /\ MikrotikService.cacheKey meA <> MikrotikService.cacheKey meB
  /\ (forall (p : Pool) api,
        (<[poolKey (MikrotikService.base meA) := api]> p)
          !! poolKey (MikrotikService.base meB)
        = p !! poolKey (MikrotikService.base meB))
  /\ (forall st,
        MikrotikService.cache (MikrotikService.invalidateCache meA st)
          !! MikrotikService.cacheKey meB
        = MikrotikService.cache st !! MikrotikService.cacheKey meB).
Proof.
  unfold MikrotikService.new. intros HA HB Hne.
  destruct (find (fun s => Config.id s =? a) servers) as [sa|] eqn:Ea;
    [| discriminate].
  destruct (find (fun s => Config.id s =? b) servers) as [sb|] eqn:Eb;
    [| discriminate].
  injection HA as <-. injection HB as <-.
  destruct (find_id_Some servers a sa Ea) as [_ Ia].
  destruct (find_id_Some servers b sb Eb) as [_ Ib].
  cbn [MikrotikService.base MikrotikService.cacheKey poolKey].
  assert (Hp : JS.lit "srv_" +++ Number_toString (Config.id sa) 10
               <> JS.lit "srv_" +++ Number_toString (Config.id sb) 10).
  { unfold Str.cat. intros E. apply app_inv_head in E.
    apply (Number_toString_inj 10) in E; [congruence | lia]. }
  assert (Hc : JS.lit "peers_" +++ Number_toString (Config.id sa) 10
               <> JS.lit "peers_" +++ Number_toString (Config.id sb) 10).
  { unfold Str.cat. intros E. apply app_inv_head in E.
    apply (Number_toString_inj 10) in E; [congruence | lia]. }
  split; [exact Hp | split; [exact Hc | split]].
  - intros p api. apply lookup_insert_ne. exact Hp.
  - intros st. cbn [MikrotikService.invalidateCache MikrotikService.cache].
    apply lookup_delete_ne. exact Hc.
Qed.

(* ===================================================================== *)
(** ** The further properties on examples *)
(* ===================================================================== *)

Lemma X1_decodePackets_no_empty_word_witness :
  Forall (Forall (fun w : JS.str => w <> [])) (fst (decodePackets partialBuffer)).
Proof.
  apply X1_decodePackets_no_empty_word.
  repeat (apply List.Forall_cons; [unfold JS.is_byte; lia |]).
  apply List.Forall_nil.
Defined.

Lemma X2_carry_over_inside_first_word_witness :
  decodePackets (concat (map encodeSentence [[JS.lit "!done"]]) ++ [3; 33])
  = ([[JS.lit "!done"]], [3; 33]).
Proof.
  apply (proj1 X2_carry_over_inside_first_word
           [[JS.lit "!done"]] (JS.lit "!re") [3; 33] [114; 101]).
  - apply List.Forall_cons; [| apply List.Forall_nil].
    apply wire_words_check. vm_compute. reflexivity.
  - apply (Forall_inv (wire_words_check [JS.lit "!re"] eq_refl)).
  - reflexivity.
  - discriminate.
Defined.

Lemma X3_decodePackets_after_sentences_witness :
  decodePackets (concat (map encodeSentence [[JS.lit "!done"]]) ++ [2; 98])
  = ([[JS.lit "!done"]] ++ fst (decodePackets [2; 98]),
     snd (decodePackets [2; 98])).
Proof.
  apply X3_decodePackets_after_sentences.
  apply List.Forall_cons; [| apply List.Forall_nil].
  apply wire_words_check. vm_compute. reflexivity.
Defined.

Lemma X4_connection_invariants_witness :
  (loggedIn (run demo [SockConnect; SockError (JS.lit "ECONNRESET"); SockClose]
               initial) = false ->
   sent (run demo [SockConnect; SockError (JS.lit "ECONNRESET"); SockClose]
           initial) = [loginSentence demo])
  /\ loggedIn afterTwoWrites = true.
Proof.
  split.
  - intros _. reflexivity.
  - apply (proj2 (proj2 (proj2 (X4_connection_invariants demo twoWrites eq_refl)))).
    reflexivity.
Defined.

Lemma X5_replies_matched_in_order_witness :
  settled (onData (concat (map encodeSentence (concat [alphaReply])))
             afterTwoWrites)
  = settled afterTwoWrites
    ++ zip_with (fun item g => (caller item, outcomeOf g))
         (queue afterTwoWrites) [alphaReply]
  /\ queue (onData (concat (map encodeSentence (concat [alphaReply])))
              afterTwoWrites)
     = drop (length [alphaReply]) (queue afterTwoWrites)
  /\ buf (onData (concat (map encodeSentence (concat [alphaReply])))
            afterTwoWrites) = [].
Proof.
  apply (X5_replies_matched_in_order afterTwoWrites [alphaReply]).
  - reflexivity.
  - reflexivity.
  - apply List.Forall_cons; [| apply List.Forall_nil].
    exists [alphaRow], (JS.lit "!done"), [].
    split; [reflexivity | split; [reflexivity |]].
    apply List.Forall_cons; [reflexivity | apply List.Forall_nil].
  - apply List.Forall_cons; [| apply List.Forall_nil].
    apply List.Forall_cons; [| apply List.Forall_cons; [| apply List.Forall_nil]];
      apply wire_words_check; vm_compute; reflexivity.
  - vm_compute. lia.
  - apply List.Forall_cons; [reflexivity |].
    apply List.Forall_cons; [reflexivity | apply List.Forall_nil].
Defined.

Lemma X6_error_before_login_then_close_witness :
  login (run demo [SockConnect; SockError (JS.lit "ECONNRESET"); SockClose]
           initial) = Some (LoginFailed (JS.lit "ECONNRESET"))
  /\ login (run demo [SockConnect; SockClose] initial) = None.
Proof.
  pose proof (X6_error_before_login_then_close demo [SockConnect]
                (JS.lit "ECONNRESET") eq_refl eq_refl) as H.
  cbv zeta in H. destruct H as (_ & (H2 & _) & (H3 & _)).
  split; [exact H2 | exact H3].
Defined.

Lemma X7_write_after_idle_close_witness :
  destroyed (onClose idle) = false
  /\ queue (write [JS.lit "/interface/wireguard/print"] (onClose idle))
     = [{| caller := writes idle; accumulator := [] |}]
  /\ settled (write [JS.lit "/interface/wireguard/print"] (onClose idle))
     = settled idle.
Proof.
  pose proof (X7_write_after_idle_close idle [JS.lit "/interface/wireguard/print"]
                eq_refl eq_refl) as H.
  cbv zeta in H. destruct H as (H1 & _ & _ & H2 & H3 & _).
  split; [exact H1 | split; [exact H2 | exact H3]].
Defined.

Lemma X8_login_outcome_witness :
  login (onData (encodeSentence [JS.lit "!trap";
                                 JS.lit "=message=" +++ JS.lit "invalid user name or password"])
           initial)
  = Some (LoginFailed (JS.lit "invalid user name or password")).
Proof.
  apply (proj1 (proj2 X8_login_outcome) initial (JS.lit "!trap")
           (JS.lit "invalid user name or password")).
  - reflexivity.
  - reflexivity.
  - reflexivity.
  - reflexivity.
  - left. reflexivity.
  - apply (Forall_inv (wire_words_check
             [JS.lit "=message=" +++ JS.lit "invalid user name or password"] eq_refl)).
Defined.

Lemma X9_parseRow_of_attributes_witness :
  parseRow (JS.lit "!re" :: map attributeWord interfaceRow) !! JS.lit "public-key"
  = Some (JS.lit "hQ7yq0eAB3q1eQ2w8nq3J9Zy0j3Yk2m8o5r1t6u9xk8=").
Proof.
  assert (Hk : Forall (fun kv => plainKey (fst kv)) interfaceRow).
  { apply List.Forall_cons; [split; [reflexivity | discriminate] |].
    apply List.Forall_cons; [split; [reflexivity | discriminate] |].
    apply List.Forall_nil. }
  apply (proj1 (proj2 (X9_parseRow_of_attributes (JS.lit "!re") interfaceRow Hk))
           [(JS.lit "name", JS.lit "wireguard1")] _ _ []).
  - reflexivity.
  - intros [].
Defined.

Lemma X10_transport_modes_witness :
  (socketOpens (fun _ => JS.lit "00112233") asciiLower
     (JS.lit "ERR_INVALID_ARG_TYPE") unverified None [48; 130]
   = TlsThrows (JS.lit "ERR_INVALID_ARG_TYPE")
   /\ sent (rosConnect (fun _ => JS.lit "00112233") asciiLower
              (JS.lit "ERR_INVALID_ARG_TYPE") unverified None [48; 130]) = []
   /\ login (rosConnect (fun _ => JS.lit "00112233") asciiLower
               (JS.lit "ERR_INVALID_ARG_TYPE") unverified None [48; 130])
      = Some (LoginFailed (JS.lit "ERR_INVALID_ARG_TYPE")))
  /\ (socketOpens (fun _ => JS.lit "aabbccdd") asciiLower
        (JS.lit "ERR_INVALID_ARG_TYPE") pinned None [48; 130]
      = Opens [SockSecureConnect]
      /\ sent (rosConnect (fun _ => JS.lit "aabbccdd") asciiLower
                 (JS.lit "ERR_INVALID_ARG_TYPE") pinned None [48; 130])
         = [loginSentence pinned]
      /\ login (rosConnect (fun _ => JS.lit "aabbccdd") asciiLower
                  (JS.lit "ERR_INVALID_ARG_TYPE") pinned None [48; 130])
         = None).
Proof.
  split.
  - apply (proj1 (proj2 (X10_transport_modes (fun _ => JS.lit "00112233")
                           asciiLower (JS.lit "ERR_INVALID_ARG_TYPE")
                           unverified None [48; 130])));
      reflexivity.
  - apply (proj1 (proj2 (proj2 (X10_transport_modes (fun _ => JS.lit "aabbccdd")
                                  asciiLower (JS.lit "ERR_INVALID_ARG_TYPE")
                                  pinned None [48; 130]))
                    (JS.lit "AA:BB cc:DD") eq_refl eq_refl ltac:(discriminate)));
      split; reflexivity.
Defined.

Lemma X12_suggested_address_is_then_used_witness :
  parseLastOctetV4 (prefix4 +++ Number_toString 26 10) = Some 26
  /\ parseLastSegmentV6 (prefix6 +++ Number_toString 26 16) = Some 26.
Proof.
  assert (H4 : dottedPrefix prefix4)
    by (split; [eexists _, _, _; reflexivity | split; reflexivity]).
  assert (H6 : colonPrefix prefix6)
    by (split; [exists (JS.lit "fd00:10:0:"); reflexivity | split; reflexivity]).
  apply (proj1 (X12_suggested_address_is_then_used prefix4 prefix6 H4 H6)). lia.
Defined.

Lemma X15_config_servers_scan_witness :
  exists n, Config.servers twoRouters = Some (builtBelow twoRouters n)
            /\ NoDup (map Config.id (builtBelow twoRouters n)).
Proof.
  destruct (X15_config_servers_scan twoRouters) as (n & H & _ & _ & _ & _ & Hnd).
  exists n. split; [exact H | exact Hnd].
Defined.

Lemma X16_getPeers_cache_witness :
  MikrotikService.getPeers parseFlat threeAttempts firstService false 5999 []
    None 5999 connected
  = (Value [], connected).
Proof.
  apply (proj1 (X16_getPeers_cache parseFlat threeAttempts firstService)
           connected {| MikrotikService.data := []; MikrotikService.ts := 1000 |}).
  - reflexivity.
  - reflexivity.
Defined.

Lemma X17_changes_invalidate_cache_witness :
  MikrotikService.cache
    (snd (MikrotikService.removePeer threeAttempts firstService (JS.lit "*1") []
            (Some (Resolved [])) connected))
    !! JS.lit "peers_0" = None.
Proof.
  pose proof (proj1 (proj2 (proj2 (X17_changes_invalidate_cache parseFlat
                                     threeAttempts firstService)))
                (JS.lit "*1") [] (Some (Resolved [])) connected) as H.
  pose proof (proj1 (proj2 (proj2 (proj2 (X17_changes_invalidate_cache parseFlat
                                            threeAttempts firstService))))
                connected
                (snd (MikrotikService.removePeer threeAttempts firstService
                        (JS.lit "*1") [] (Some (Resolved [])) connected))
                (JS.lit "peers_0")) as K.
  apply K. exact H.
Defined.

Lemma X18_requests_checked_before_connecting_witness :
  MikrotikService.written
    (snd (MikrotikService.togglePeer threeAttempts firstService (JS.lit "*1") true
            [] None connected))
  = [(0%nat, [JS.lit "/interface/wireguard/peers/set"; JS.lit "=.id=" +++ JS.lit "*1";
              JS.lit "=disabled=" +++ JS.lit "yes"])].
Proof.
  apply (proj2 (proj2 (proj2 (proj2 (proj2
           (X18_requests_checked_before_connecting threeAttempts firstService
              [] None connected)))))
           (JS.lit "*1") true 0%nat (MikrotikService.pool connected) 1%nat []).
  - discriminate.
  - reflexivity.
Defined.

Lemma X19_getServerPublicKey_result_witness :
  fst (MikrotikService.getServerPublicKey threeAttempts firstService []
         (Some (Resolved
            (parseRows
               ((JS.lit "!re" :: map attributeWord
                                   ([(JS.lit "name", JS.lit "wireguard1")]
                                    ++ (JS.lit "public-key",
                                        JS.lit "hQ7yq0eAB3q1eQ2w8nq3J9Zy0j3Yk2m8o5r1t6u9xk8=")
                                       :: []))
                :: [] ++ [[JS.lit "!done"]])))) connected)
  = Value (Some (JS.lit "hQ7yq0eAB3q1eQ2w8nq3J9Zy0j3Yk2m8o5r1t6u9xk8=")).
Proof.
  apply (proj1 (proj2 (proj2 (X19_getServerPublicKey_result threeAttempts
                                firstService [] connected 0%nat
                                (MikrotikService.pool connected) 1%nat []
                                eq_refl)))).
  - apply List.Forall_cons; [split; [reflexivity | discriminate] |].
    apply List.Forall_cons; [split; [reflexivity | discriminate] |].
    apply List.Forall_nil.
  - intros [].
Defined.

Lemma X20_pool_entry_follows_connection_witness :
  MikrotikService.pool (MikrotikService.disconnect firstService connected)
    !! poolKey (MikrotikService.base firstService) = None
  /\ MikrotikService.closed (MikrotikService.disconnect firstService connected)
     = [0%nat].
Proof.
  pose proof (proj1 (X20_pool_entry_follows_connection threeAttempts firstService
                       connected) 0%nat eq_refl) as H.
  cbv zeta in H. destruct H as (H1 & H2 & _).
  split; [exact H1 | exact H2].
Defined.

Lemma X21_added_peer_is_found_taken_witness :
  Peer.ipv4 (_parsePeer parseFlat addedRow) = trim (JS.lit " 10.0.0.2")
  /\ Peer.ipv6 (_parsePeer parseFlat addedRow) = trim (JS.lit "fd00::2 ").
Proof.
  pose proof (X21_added_peer_is_found_taken parseFlat asciiLower
                (JS.lit "wireguard1") (JS.lit "2026-01-01T00:00:00.000Z")
                (JS.lit "Alpha") (JS.lit " 10.0.0.2") (JS.lit "fd00::2 ")
                (JS.lit "pub=") demoKey _ eq_refl eq_refl eq_refl) as H.
  cbv zeta in H. destruct H as (_ & H).
  destruct (H addedRow eq_refl) as (H4 & H6 & _).
  split; [exact H4 | exact H6].
Defined.

Lemma X22_peer_without_addresses_witness :
  Peer.ipv4 (_parsePeer parseFlat ∅) = JS.lit "-"
  /\ Peer.ipv6 (_parsePeer parseFlat ∅) = JS.lit "-".
Proof.
  pose proof (X22_peer_without_addresses parseFlat ∅ (or_introl eq_refl)) as H.
  cbv zeta in H. destruct H as (H4 & H6 & _).
  split; [exact H4 | exact H6].
Defined.

Lemma X24_services_do_not_share_keys_witness :
  JS.lit "srv_" +++ Number_toString 0 10 <> JS.lit "srv_" +++ Number_toString 1 10
  /\ JS.lit "peers_" +++ Number_toString 0 10
     <> JS.lit "peers_" +++ Number_toString 1 10.
Proof.
  destruct (MikrotikService.new twoServers 0) as [e0|me0] eqn:E0;
    [discriminate E0 |].
  destruct (MikrotikService.new twoServers 1) as [e1|me1] eqn:E1;
    [discriminate E1 |].
  pose proof (X24_services_do_not_share_keys twoServers 0 1 me0 me1 E0 E1
                ltac:(discriminate)) as (Hp & Hc & _).
  injection E0 as <-. injection E1 as <-.
  split; [exact Hp | exact Hc].
Defined.
